(** * TiebaWidget: the cache-and-prefetch core of [scripts/get-entry.js]

    A shallow embedding of [selectImageBySize], [downloadImage],
    [prepareForImageDownload], [tryDownloadAllImageWithTimeout],
    [tryGetTiebaPostWithTimeout], [isCacheValid] and [getEntry], and of the
    option handling of the settings screen in [scripts/main-jsbox.js],
    followed by their properties.

    Conventions.
    - JavaScript values that may be [undefined]/[null] are [option]s; a
      condition that tests such a value tests its truthiness, written out
      at each use ([truthy], [nonEmpty], [nonZero]).
    - Timestamps are milliseconds in [Z]. A string is the [string] of the
      bytes of its text in UTF-8; equality, emptiness and splitting at a
      slash are the same on bytes as on JavaScript's code units, and
      [s.length], which is not, is [jsLength s].
    - What the program cannot decide (HTTP answers, write and mkdir results,
      the clock, the preference store, the remote client, the order in
      which responses arrive and whether a timer fires first) is read from
      an environment [Env].
    - Mutable objects are threaded explicitly: the item a running
      [downloadImage] holds, the file system, the cache store and the log of
      requests issued.
    - An async function is a resumable run ([Run]): it has returned, or it
      is suspended at an [await] and goes on from whatever state it is
      resumed in. Calls started together interleave at their awaits. Only
      an [await] on a response is a suspension point: at an [await] on
      what is already settled nobody else is ready to run. *)

From Stdlib Require Import ZArith Ascii.
From stdpp Require Import gmap strings list.

Local Open Scope Z_scope.

(** ** Data model *)

(** A post as [downloadImage] sees it ([item.abstract], [item.imgUrls],
    [item.imgDownloaded], [item.imgPaths]). *)
Record Item := mkItem {
  abstract : option string;
  imgUrls : list string;
  imgDownloaded : option bool;
  imgPaths : option (list string);
}.

(** The value stored under a forum name: [{ items, date, imgAllDownloaded }].
    A missing [imgAllDownloaded] reads as [false] in [!cached.imgAllDownloaded]. *)
Record CacheRecord := mkCache {
  items : option (list Item);
  date : option Z;
  imgAllDownloaded : bool;
}.

(** What [getEntry] returns: [{ info, date }]. *)
Record Entry := mkEntry {
  info : option (list Item);
  entryDate : option Z;
}.

(** The constants of [scripts/constant.js], which the functions below only
    read. [DEBUG] gates logging alone and is left out with the logger. *)
Record Constants := mkConstants {
  POST_INFO_TIMEOUT : Z;
  IMAGE_TIMEOUT : Z;
  IMAGE_DOWNLOAD_DIR : string;
  MAX_NUMBER_OF_POST : Z;
  DEFAULT_REFRESH_CIRCLE : Z;
  MAX_IMAGE_SIZE : Z;
  IMAGE_CLEAR_INTERVAL : Z;
  MAX_ABSTRACT_LEN_ALLOWING_TWO_IMAGES : Z;
}.

(** ** The environment *)

(** [response] of [$http.request({method: 'HEAD', url})]. *)
Record HeadResponse := mkHead {
  expectedContentLength : option Z;
  headError : bool;
}.

(** [response] and [rawData] of [$http.get({url})]. *)
Record GetResponse := mkGet {
  statusCode : Z;
  getError : bool;
  rawData : string;
}.

(** How a call of the remote client under its deadline ends: it resolves
    with a value ([null] is [None]), it throws, or the timer fires first. *)
Variant FetchOutcome :=
  | Resolved (v : option (list Item))
  | Threw
  | TimerFirst.

Record Env := mkEnv {
  http_head : string → HeadResponse;
  http_get : string → GetResponse;
  (** responses of concurrent GETs are handled by increasing latency *)
  get_latency : string → nat;
  file_write_ok : string → string → bool;
  file_mkdir_ok : string → bool;
  (** [getFileMTime(path)], with a falsy answer as [None] *)
  file_mtime : string → option Z;
  (** [$prefs.get('refresh-circle')] *)
  prefs_refresh_circle : option Z;
  (** [new Date()] at the freshness check, [new Date()] after the fetch and
      [Date.now()] in the housekeeping *)
  clock_check : Z;
  clock_fetched : Z;
  clock_prepare : Z;
  (** the remote client called with a name, a deadline and a post limit *)
  remote_fetch : string → Z → Z → FetchOutcome;
  (** the image pass under a deadline: the calls of [downloadImage], by
      index, whose awaited responses arrive, in the order of arrival *)
  image_arrivals : Z → list nat;
  (** whether the timer fires after these arrivals; if not, the responses
      still awaited arrive afterwards, call by call *)
  image_timer : Z → bool;
}.

(** Requests and store writes a run issues, oldest first. *)
Variant Event :=
  | EvHead (url : string)
  | EvGet (url : string)
  | EvFetch (name : string)
  | EvCacheSet (key : string) (value : CacheRecord).

(** ** JavaScript helpers *)

(** [!!v] for a flag that is [undefined], [false] or [true]. *)
Definition truthy (v : option bool) : bool :=
  match v with Some true => true | _ => false end.

(** [!!s] for a string that may be missing: the empty string is falsy. *)
Definition nonEmpty (s : option string) : bool :=
  match s with Some (String _ _) => true | _ => false end.

(** [!!n] for a number that may be missing: zero is falsy. *)
Definition nonZero (n : option Z) : bool :=
  match n with Some k => negb (k =? 0) | None => false end.

(** The UTF-16 code units of the character whose UTF-8 encoding starts
    with the byte [b]: none if [b] continues a character, two if it leads
    a four-byte sequence (a character beyond the basic plane, a surrogate
    pair in JavaScript), one otherwise. *)
Definition unitsAt (b : ascii) : nat :=
  let n := nat_of_ascii b in
  if (n <? 128)%nat then 1%nat
  else if (n <? 192)%nat then 0%nat
  else if (n <? 240)%nat then 1%nat
  else 2%nat.

(** [s.length]: the number of UTF-16 code units of the text. *)
Fixpoint jsLength (s : string) : nat :=
  match s with
  | EmptyString => 0%nat
  | String b s' => (unitsAt b + jsLength s')%nat
  end.

(** [s.split(sep)] for a one-character separator. *)
Fixpoint split (sep : ascii) (s : string) : list string :=
  match s with
  | EmptyString => [EmptyString]
  | String c s' =>
      if Ascii.eqb c sep then EmptyString :: split sep s'
      else match split sep s' with
           | [] => [String c EmptyString]
           | hd :: tl => String c hd :: tl
           end
  end.

(** [url.split('/').slice(-1)[0]] *)
Definition lastSegment (url : string) : string :=
  List.last (split "/"%char url) EmptyString.

(** [`${dst}/${name}`] with [name] the last segment of [url]. *)
Definition localPath (dst url : string) : string :=
  dst +:+ "/" +:+ lastSegment url.

(** ** Runs of async functions *)

(** What a running [downloadImage] works on: its item, the files and the
    log of requests. *)
Record Job := mkJob {
  item : Item;
  disk : gset string;
  log : list Event;
}.

(** A run of an async function: it has returned [a] in state [j], or it is
    suspended at an [await] in state [j] and, once the awaited response is
    there, goes on from the state it is resumed in. *)
Inductive Run (A : Type) : Type :=
  | Done (a : A) (j : Job)
  | Await (j : Job) (resume : Job → Run A).
Arguments Done {A} a j.
Arguments Await {A} j resume.

Definition M (A : Type) : Type := Job → Run A.

Definition ret {A} (a : A) : M A := λ j, Done a j.

(** The run [r] followed by [k]. *)
Fixpoint andThen {A B} (r : Run A) (k : A → M B) : Run B :=
  match r with
  | Done a j => k a j
  | Await j resume => Await j (λ j', andThen (resume j') k)
  end.

Definition bind {A B} (m : M A) (k : A → M B) : M B :=
  λ j, andThen (m j) k.

Notation "x <- m ;; k" := (bind m (λ x, k))
  (at level 100, m at next level, right associativity).
Notation "m ;;; k" := (bind m (λ _, k))
  (at level 100, right associativity).

(** An [await] on a response. *)
Definition await : M unit := λ j, Await j (λ j', Done tt j').

Definition emit (e : Event) : M unit :=
  λ j, Done tt (mkJob (item j) (disk j) (log j ++ [e])).

Definition getItem : M Item := λ j, Done (item j) j.

Definition setItem (it : Item) : M unit :=
  λ j, Done tt (mkJob it (disk j) (log j)).

(** [item.imgDownloaded = b] *)
Definition setDownloaded (b : bool) : M unit :=
  it <- getItem ;;
  setItem (mkItem (abstract it) (imgUrls it) (Some b) (imgPaths it)).

(** The run carried to its end, resumed each time in the state it was
    suspended in: nobody else acts while it waits. *)
Fixpoint complete {A} (r : Run A) : A * Job :=
  match r with
  | Done a j => (a, j)
  | Await j resume => complete (resume j)
  end.

(** The state a run left alone ends in. *)
Definition finalJob {A} (r : Run A) : Job := (complete r).2.

(** The same with room for [n] responses: the value if the run returns in
    time, and the state it has reached. *)
Fixpoint upTo {A} (n : nat) (r : Run A) {struct r} : option A * Job :=
  match r with
  | Done a j => (Some a, j)
  | Await j resume =>
      match n with
      | O => (None, j)
      | S n' => upTo n' (resume j)
      end
  end.

(** The paths recorded so far, a missing [imgPaths] read as none. *)
Definition pathsOf (it : Item) : list string := default [] (imgPaths it).

(** [item.imgPaths.push(path)] *)
Definition pushPath (path : string) : M unit :=
  it <- getItem ;;
  setItem (mkItem (abstract it) (imgUrls it) (imgDownloaded it)
                  (Some (pathsOf it ++ [path]))).

(** [$file.exists(path)] *)
Definition fileExists (path : string) : M bool :=
  λ j, Done (bool_decide (path ∈ disk j)) j.

(** One result of [Promise.allSettled]. *)
Variant Settled :=
  | fulfilled (value : bool)
  | rejected.

(** [v.status === 'fulfilled' && v.value === true] *)
Definition fulfilledTrue (v : Settled) : bool :=
  match v with fulfilled true => true | _ => false end.

Section Program.

Context (C : Constants) (E : Env).

(** [$file.write({path, data})]: on success the file exists afterwards. *)
Definition fileWrite (path data : string) : M bool :=
  λ j, if file_write_ok E path data
       then Done true (mkJob (item j) ({[path]} ∪ disk j) (log j))
       else Done false j.

(** [await $http.request({method: 'HEAD', url})] *)
Definition httpHead (url : string) : M HeadResponse :=
  emit (EvHead url) ;;;
  await ;;;
  ret (http_head E url).

(** [!error && len && len <= maxSize] *)
Definition fitsBudget (maxSize : Z) (r : HeadResponse) : bool :=
  negb (headError r) && nonZero (expectedContentLength r)
  && (default 0 (expectedContentLength r) <=? maxSize).

(** The loop of [selectImageBySize], from the current index on. *)
Fixpoint selectLoop (maxSize maxNumImg : Z) (imgUrls : list string)
    (selected : list string) : M (list string) :=
  match imgUrls with
  | [] => ret selected
  | url :: rest =>
      if Z.of_nat (length selected) <? maxNumImg then
        r <- httpHead url ;;
        selectLoop maxSize maxNumImg rest
          (if fitsBudget maxSize r then selected ++ [url] else selected)
      else ret selected
  end.

(** [selectImageBySize(imgUrls, maxSize, maxNumImg)] *)
Definition selectImageBySize (imgUrls : list string) (maxSize maxNumImg : Z)
    : M (list string) :=
  selectLoop maxSize maxNumImg imgUrls [].

(** The count budget of [downloadImage]:
    [!item.abstract ? 3 : item.abstract.length < MAX_... ? 2 : 1]. *)
Definition maxNumImg (it : Item) : Z :=
  if negb (nonEmpty (abstract it)) then 3
  else if Z.of_nat (jsLength (default EmptyString (abstract it)))
          <? MAX_ABSTRACT_LEN_ALLOWING_TWO_IMAGES C
       then 2
       else 1.

(** [if (!item.imgPaths) { item.imgDownloaded = false; item.imgPaths = [] }] *)
Definition initImgPaths : M unit :=
  it <- getItem ;;
  match imgPaths it with
  | Some _ => ret tt
  | None => setItem (mkItem (abstract it) (imgUrls it) (Some false) (Some []))
  end.

(** The callback of [shownImgUrls.filter], run over the list in order; it
    reads and extends [item.imgPaths] as it goes. *)
Fixpoint filterMissing (dst : string) (urls : list string)
    : M (list string) :=
  match urls with
  | [] => ret []
  | url :: rest =>
      let path := localPath dst url in
      it <- getItem ;;
      if bool_decide (path ∈ pathsOf it) then filterMissing dst rest
      else
        present <- fileExists path ;;
        if present then pushPath path ;;; filterMissing dst rest
        else kept <- filterMissing dst rest ;; ret (url :: kept)
  end.

(** What one download does once its response is there: check the response,
    write the file, record the path. A [throw] is a [rejected] result. *)
Definition settle (dst url : string) : M Settled :=
  let r := http_get E url in
  if getError r then ret rejected
  else if negb (statusCode r =? 200) then ret rejected
  else
    let path := localPath dst url in
    success <- fileWrite path (rawData r) ;;
    if success then pushPath path ;;; ret (fulfilled true)
    else ret rejected.

(** The order in which the responses of GETs issued together are handled:
    by latency, ties in request order. *)
Fixpoint arriveAfter (url : string) (earlier : list string) : list string :=
  match earlier with
  | [] => [url]
  | v :: rest =>
      if (get_latency E url <=? get_latency E v)%nat then url :: v :: rest
      else v :: arriveAfter url rest
  end.

(** The requests [urls], issued in this order, as their responses arrive. *)
Definition arrivalOrder (urls : list string) : list string :=
  foldr arriveAfter [] urls.

(** [$http.get({url})] for every locator, before any response is awaited. *)
Fixpoint issueAll (urls : list string) : M unit :=
  match urls with
  | [] => ret tt
  | url :: rest => emit (EvGet url) ;;; issueAll rest
  end.

(** The responses handled one by one as they arrive, none stopping the
    others. *)
Fixpoint settleAll (dst : string) (arrived : list string)
    : M (list Settled) :=
  match arrived with
  | [] => ret []
  | url :: rest =>
      await ;;;
      v <- settle dst url ;;
      vs <- settleAll dst rest ;;
      ret (v :: vs)
  end.

(** [await Promise.allSettled(shownImgUrls.map(async url => ...))]: every
    GET is issued at once; the results are listed as the responses arrive,
    which [every] does not look at. *)
Definition downloadEach (dst : string) (urls : list string)
    : M (list Settled) :=
  issueAll urls ;;;
  settleAll dst (arrivalOrder urls).

(** [downloadImage(dst, item)], with [item] the item of the job. *)
Definition downloadImage (dst : string) : M bool :=
  it <- getItem ;;
  if truthy (imgDownloaded it) || (length (imgUrls it) =? 0)%nat then ret true
  else
    shownImgUrls <- selectImageBySize (imgUrls it) (MAX_IMAGE_SIZE C)
                                      (maxNumImg it) ;;
    if (length shownImgUrls =? 0)%nat then setDownloaded true ;;; ret true
    else
      initImgPaths ;;;
      shownImgUrls <- filterMissing dst shownImgUrls ;;
      downloadResults <- downloadEach dst shownImgUrls ;;
      if forallb fulfilledTrue downloadResults
      then setDownloaded true ;;; ret true
      else ret false.

(** ** The image pass and the orchestrator *)

(** What outlives a run: the files, the cache store and the requests made. *)
Record World := mkWorld {
  files : gset string;
  store : gmap string CacheRecord;
  history : list Event;
}.

(** [$file.mkdir(path)] *)
Definition fileMkdir (path : string) (fs : gset string)
    : bool * gset string :=
  if file_mkdir_ok E path then (true, {[path]} ∪ fs) else (false, fs).

(** [path] is [dir] or lies below it. *)
Definition underDir (dir path : string) : bool :=
  String.eqb path dir || String.prefix (dir +:+ "/") path.

(** [$file.delete(dir)]: the folder goes with all it holds. *)
Definition fileDelete (dir : string) (fs : gset string) : gset string :=
  filter (λ path, underDir dir path = false) fs.

(** [!$file.exists(path) && !$file.mkdir(path)], with the state [mkdir]
    leaves; [true] is the case that throws. *)
Definition cannotEnsureDir (path : string) (fs : gset string)
    : bool * gset string :=
  if bool_decide (path ∈ fs) then (false, fs)
  else let '(made, fs') := fileMkdir path fs in (negb made, fs').

(** [prepareForImageDownload(dst)]; the [catch] turns a throw into [false]. *)
Definition prepareForImageDownload (dst : string) (fs : gset string)
    : bool * gset string :=
  let '(failed, fs1) := cannotEnsureDir (IMAGE_DOWNLOAD_DIR C) fs in
  if failed then (false, fs1)
  else
    let fs2 :=
      match file_mtime E dst with
      | Some lastClearDate =>
          if IMAGE_CLEAR_INTERVAL C <? clock_prepare E - lastClearDate
          then fileDelete dst fs1 else fs1
      | None => fs1
      end in
    let '(failed', fs3) := cannotEnsureDir dst fs2 in
    (negb failed', fs3).

(** One call of [downloadImage] among those started together: it has
    returned, or it is suspended with its item as it stands. *)
Variant Call :=
  | Returned (v : bool) (it : Item)
  | Suspended (it : Item) (resume : Job → Run bool).

Definition itemOf (c : Call) : Item :=
  match c with Returned _ it => it | Suspended it _ => it end.

(** A run up to its next [await]: the call it leaves, and the files and
    log it leaves to the others. *)
Definition park (r : Run bool) : Call * (gset string * list Event) :=
  match r with
  | Done v j => (Returned v (item j), (disk j, log j))
  | Await j resume => (Suspended (item j) resume, (disk j, log j))
  end.

(** [items.map(downloadImage.bind(null, dst))]: each call runs up to its
    first [await] before the next one starts. *)
Fixpoint startAll (dst : string) (its : list Item) (fs : gset string)
    (lg : list Event) : list Call * (gset string * list Event) :=
  match its with
  | [] => ([], (fs, lg))
  | it :: rest =>
      let '(c, (fs1, lg1)) := park (downloadImage dst (mkJob it fs lg)) in
      let '(cs, st) := startAll dst rest fs1 lg1 in
      (c :: cs, st)
  end.

(** The response call [i] waits for arrives: the call goes on, on its own
    item and the files and log as they are now, up to its next [await].
    An arrival for a call that has returned changes nothing. *)
Definition wake (i : nat) (cs : list Call) (fs : gset string)
    (lg : list Event) : list Call * (gset string * list Event) :=
  match cs !! i with
  | Some (Suspended it resume) =>
      let '(c, st) := park (resume (mkJob it fs lg)) in (<[i := c]> cs, st)
  | _ => (cs, (fs, lg))
  end.

Fixpoint wakeEach (arrivals : list nat) (cs : list Call) (fs : gset string)
    (lg : list Event) : list Call * (gset string * list Event) :=
  match arrivals with
  | [] => (cs, (fs, lg))
  | i :: rest =>
      let '(cs1, (fs1, lg1)) := wake i cs fs lg in
      wakeEach rest cs1 fs1 lg1
  end.

(** The calls still suspended are carried to their end, one by one. *)
Fixpoint drain (cs : list Call) (fs : gset string) (lg : list Event)
    : list Call * (gset string * list Event) :=
  match cs with
  | [] => ([], (fs, lg))
  | Returned v it :: rest =>
      let '(cs', st) := drain rest fs lg in (Returned v it :: cs', st)
  | Suspended it resume :: rest =>
      let '(v, j) := complete (resume (mkJob it fs lg)) in
      let '(cs', st) := drain rest (disk j) (log j) in
      (Returned v (item j) :: cs', st)
  end.

(** What [Promise.allSettled] resolves with once every call has returned;
    a call that returns is a [fulfilled] result. *)
Fixpoint settledResults (cs : list Call) : option (list Settled) :=
  match cs with
  | [] => Some []
  | Returned v _ :: rest => cons (fulfilled v) <$> settledResults rest
  | Suspended _ _ :: _ => None
  end.

(** [Promise.allSettled(items.map(downloadImage.bind(null, dst)))] raced
    against a timer: the calls are started, the responses in [arrivals]
    arrive, and then either every call has returned, or the timer fires
    ([None], with items, files and log as they stand), or the remaining
    responses arrive call by call. *)
Definition downloadItems (dst : string) (its : list Item) (fs : gset string)
    (lg : list Event) (arrivals : list nat) (timerFires : bool)
    : option (list Settled) * (list Item * gset string * list Event) :=
  let '(cs, (fs1, lg1)) := startAll dst its fs lg in
  let '(cs, (fs2, lg2)) := wakeEach arrivals cs fs1 lg1 in
  match settledResults cs with
  | Some downloadResults => (Some downloadResults, (itemOf <$> cs, fs2, lg2))
  | None =>
      if timerFires then (None, (itemOf <$> cs, fs2, lg2))
      else
        let '(cs, (fs3, lg3)) := drain cs fs2 lg2 in
        (settledResults cs, (itemOf <$> cs, fs3, lg3))
  end.

(** Modelled from the spec: [doWithTimeout] of
    scripts/util/do-with-timeout.js, which is not among the sources. The
    operation and a timer start together; if the operation settles first
    its result is returned, if the timer fires first the call fails and the
    operation's effects so far stay (what the abandoned operation does
    afterwards is no longer part of the invocation). The race is decided
    by the environment: the operation is handed the arrivals under the
    deadline [maxTime] and whether the timer fires after them, and answers
    [None] in its first component when the timer won. *)
Definition doWithTimeout {S : Type}
    (operation : list nat → bool → option (list Settled) * S) (maxTime : Z)
    : option (list Settled) * S :=
  operation (image_arrivals E maxTime) (image_timer E maxTime).

(** [tryDownloadAllImageWithTimeout(dst, items, maxTime,
    partialDownloaded)]; the [catch] turns the timeout into [false]. *)
Definition tryDownloadAllImageWithTimeout (dst : string) (its : list Item)
    (maxTime : Z) (partialDownloaded : bool) (fs : gset string)
    (lg : list Event) : bool * (list Item * gset string * list Event) :=
  let '(prepared, fs1) :=
    if partialDownloaded then (true, fs)
    else prepareForImageDownload dst fs in
  if negb prepared then (false, (its, fs1, lg))
  else
    match doWithTimeout (downloadItems dst its fs1 lg) maxTime with
    | (Some downloadResults, st) => (forallb fulfilledTrue downloadResults, st)
    | (None, st) => (false, st)
    end.

(** [try { return await doWithTimeout(getTiebaPost, maxTime, tiebaName,
    maxNumPost) } catch { return null }]. The remote client of
    scripts/get-tieba-post.js is not among the sources; how its call under
    the deadline ends is read from the environment. *)
Definition tryGetTiebaPostWithTimeout (tiebaName : string)
    (maxTime maxNumPost : Z) : option (list Item) :=
  match remote_fetch E tiebaName maxTime maxNumPost with
  | Resolved v => v
  | Threw | TimerFirst => None
  end.

(** [cache && cache.items && cache.date && nowDate - cache.date <
    ($prefs.get('refresh-circle') ?? DEFAULT_REFRESH_CIRCLE) * 60000] *)
Definition isCacheValid (cache : option CacheRecord) (nowDate : Z) : bool :=
  match cache with
  | None => false
  | Some c =>
      match items c, date c with
      | Some _, Some d =>
          nowDate - d
          <? default (DEFAULT_REFRESH_CIRCLE C) (prefs_refresh_circle E)
             * 60000
      | _, _ => false
      end
  end.

(** [$cache.setAsync({key, value})] *)
Definition cacheSet (key : string) (value : CacheRecord) (w : World) : World :=
  mkWorld (files w) (<[key := value]> (store w))
          (history w ++ [EvCacheSet key value]).

(** The image pass of [getEntry] followed by the store write:
    [tryDownloadAllImageWithTimeout(dst, items, IMAGE_TIMEOUT, partial)]
    and [$cache.setAsync({key, value: {items, date, imgAllDownloaded}})]. *)
Definition passAndStore (tiebaName dst : string) (its : list Item) (d : Z)
    (partialDownloaded : bool) (w : World) : Entry * World :=
  let '(imgAllDownloaded, (its', fs', lg')) :=
    tryDownloadAllImageWithTimeout dst its (IMAGE_TIMEOUT C)
      partialDownloaded (files w) (history w) in
  (mkEntry (Some its') (Some d),
   cacheSet tiebaName (mkCache (Some its') (Some d) imgAllDownloaded)
            (mkWorld fs' (store w) lg')).

(** [getEntry(tiebaName, forceLoad)]. In the branch that uses the cache
    the record has items and a date, as [isCacheValid] has just checked;
    the last case of that [match] is never reached. *)
Definition getEntry (tiebaName : string) (forceLoad : bool) (w : World)
    : Entry * World :=
  if bool_decide (tiebaName = EmptyString) then (mkEntry None None, w)
  else
    let cached := store w !! tiebaName in
    let dst := IMAGE_DOWNLOAD_DIR C +:+ "/" +:+ tiebaName in
    if negb forceLoad && isCacheValid cached (clock_check E) then
      match cached with
      | Some (mkCache (Some its) (Some d) allDone) =>
          if negb allDone then passAndStore tiebaName dst its d true w
          else (mkEntry (Some its) (Some d), w)
      | _ => (mkEntry None None, w)
      end
    else
      let w1 := mkWorld (files w) (store w)
                        (history w ++ [EvFetch tiebaName]) in
      match tryGetTiebaPostWithTimeout tiebaName (POST_INFO_TIMEOUT C)
                                       (MAX_NUMBER_OF_POST C) with
      | Some its => passAndStore tiebaName dst its (clock_fetched E) false w1
      | None =>
          match cached with
          | Some (mkCache (Some its) (Some d) _) =>
              (mkEntry (Some its) (Some d), w1)
          | _ => (mkEntry None None, w1)
          end
      end.

End Program.


(** ** The settings screen of [scripts/main-jsbox.js] *)

(** A value as [JSON.parse] returns it. An object holds each key once. The
    screen never looks at a number, which is kept as its text. *)
#[warnings="-register-all"]
Inductive JValue :=
  | JNull
  | JBool (b : bool)
  | JNumber (text : string)
  | JString (s : string)
  | JArray (elements : list JValue)
  | JObject (fields : list (string * JValue)).

(** [v?.key]: [undefined], here [None], unless [v] is an object with the
    key. Neither [name] nor [value] is a property of a string, a number, a
    boolean or an array. *)
Definition getField (key : string) (v : JValue) : option JValue :=
  match v with
  | JObject fields =>
      snd <$> List.find (λ field, String.eqb field.1 key) fields
  | _ => None
  end.

(** [typeof x === 'string' && x.length], with the string when it holds. *)
Definition nonEmptyString (x : option JValue) : option string :=
  match x with
  | Some (JString (String c s)) => Some (String c s)
  | _ => None
  end.

(** The suffix a forum name is shown with. *)
Definition BA : string := "吧".

(** The callback of the filter in [loadWidgetOptions]:
    [typeof v?.name === 'string' && v.name.length &&
     typeof v?.value === 'string' && v.value.length &&
     v.name === v.value + BA]. *)
Definition isWidgetOption (v : JValue) : bool :=
  match nonEmptyString (getField "name" v),
        nonEmptyString (getField "value" v) with
  | Some name, Some value => String.eqb name (value +:+ BA)
  | _, _ => false
  end.

(** [loadWidgetOptions()], given what
    [JSON.parse($file.read(WIDGET_OPTION_PATH).string)] yields: [None]
    when reading or parsing throws, and then the function throws too. *)
Definition loadWidgetOptions (parsed : option JValue)
    : option (list JValue) :=
  match parsed with
  | None => None
  | Some (JArray options) => Some (List.filter isWidgetOption options)
  | Some _ => Some []
  end.

(** The screen while it is shown: the variable [options] of [mainJSBox],
    the rows of the list view ([$('list').data]), and the options the file
    was last written from by this run, if it was. *)
Record Screen := mkScreen {
  options : list JValue;
  listData : list (option JValue);
  savedOptions : option (list JValue);
}.

(** The option [onAdd] makes of a name: [{ name: n + BA, value: n }]. *)
Definition optionFor (newTiebaName : string) : JValue :=
  JObject [("name", JString (newTiebaName +:+ BA));
           ("value", JString newTiebaName)].

(** [v.value === newTiebaName] for an entry of [options]. The variable
    never holds [null]: it is filled by the filter and by [onAdd]. *)
Definition hasValue (newTiebaName : string) (v : JValue) : bool :=
  match getField "value" v with
  | Some (JString value) => String.eqb value newTiebaName
  | _ => false
  end.

Section Settings.

(** Whether [$file.write] of the text of these options succeeds. *)
Context (write_ok : list JValue → bool).

(** [saveWidgetOptions(options)] *)
Definition saveWidgetOptions (opts : list JValue) (s : Screen)
    : bool * Screen :=
  if write_ok opts then (true, mkScreen (options s) (listData s) (Some opts))
  else (false, s).

(** The start of [mainJSBox]: the options are loaded, [[]] if that throws,
    and the list is rendered with their names. *)
Definition mainJSBox (parsed : option JValue) : Screen :=
  let options := default [] (loadWidgetOptions parsed) in
  mkScreen options (getField "name" <$> options) None.

(** [onAdd(newTiebaName)] for the text of the input field. The first
    test, [!typeof newTiebaName === 'string'], is [false] for every
    argument, so only the length decides. The result of the save is not
    looked at. *)
Definition onAdd (newTiebaName : string) (s : Screen) : bool * Screen :=
  if (String.length newTiebaName =? 0)%nat then (false, s)
  else if existsb (hasValue newTiebaName) (options s) then (false, s)
  else
    let options' := options s ++ [optionFor newTiebaName] in
    let s1 := mkScreen options' (getField "name" <$> options')
                       (savedOptions s) in
    (true, (saveWidgetOptions options' s1).2).

(** [onRemove(deletingIdx)]: the entry and its row go, and the rest is
    saved. An index past the end leaves the options as they are. *)
Definition onRemove (deletingIdx : nat) (s : Screen) : Screen :=
  let options' := delete deletingIdx (options s) in
  let s1 := mkScreen options' (delete deletingIdx (listData s))
                     (savedOptions s) in
  (saveWidgetOptions options' s1).2.

End Settings.


(** ** Notions used to state the properties *)

(** An HTTP request, as opposed to a call of the remote client or a write
    to the cache store. *)
Definition isHttp (e : Event) : Prop :=
  match e with EvHead _ | EvGet _ => True | _ => False end.

(** [j'] is a later state of the call that was in [j]: the item keeps its
    abstract and locators, its recorded paths are extended at the end by
    paths that exist, files only grow and the log is extended by HTTP
    requests. *)
Record grows (j j' : Job) : Prop := mkGrows {
  grows_abstract : abstract (item j') = abstract (item j);
  grows_urls : imgUrls (item j') = imgUrls (item j);
  grows_paths : ∃ added,
      pathsOf (item j') = pathsOf (item j) ++ added
      ∧ Forall (λ p, p ∈ disk j') added;
  grows_some : is_Some (imgPaths (item j)) → is_Some (imgPaths (item j'));
  grows_disk : disk j ⊆ disk j';
  grows_log : ∃ evs, log j' = log j ++ evs ∧ Forall isHttp evs;
}.

(** Every stretch of the run [r] between two awaits takes the state it
    starts in to one related by [G]; [j0] is where the current stretch
    started. Nothing is assumed about the state a run is resumed in. *)
Fixpoint guar (G : relation Job) {A} (j0 : Job) (r : Run A) : Prop :=
  match r with
  | Done _ j => G j0 j
  | Await j resume => G j0 j ∧ ∀ j', guar G j' (resume j')
  end.

(** [m] goes on in [G]-steps from any state reached in [G]-steps. *)
Definition stepsIn (G : relation Job) {A} (m : M A) : Prop :=
  ∀ j0 j, G j0 j → guar G j0 (m j).

(** The states a run can be seen in when the others leave its item alone
    and only add files: where it is suspended, and where it returns. *)
Inductive Observed {A} : Run A → Job → Prop :=
  | observed_done a j : Observed (Done a j) j
  | observed_await j resume : Observed (Await j resume) j
  | observed_later j resume j' j1 :
      item j' = item j → disk j ⊆ disk j' →
      Observed (resume j') j1 → Observed (Await j resume) j1.

(** A locator whose probe lets it through: [fitsBudget] of its response. *)
Definition accepted (E : Env) (maxSize : Z) (url : string) : bool :=
  fitsBudget maxSize (http_head E url).
Arguments accepted : simpl never.

(** [item.imgPaths = ps], the rest of the item as it was. *)
Definition withPaths (it : Item) (ps : list string) : Item :=
  mkItem (abstract it) (imgUrls it) (imgDownloaded it) (Some ps).

(** [item.imgDownloaded = b], the rest of the item as it was. *)
Definition withFlag (it : Item) (b : bool) : Item :=
  mkItem (abstract it) (imgUrls it) (Some b) (imgPaths it).

(** The item once [imgPaths] has been created if it was missing. *)
Definition started (it : Item) : Item :=
  match imgPaths it with
  | Some _ => it
  | None => mkItem (abstract it) (imgUrls it) (Some false) (Some [])
  end.

(** The filter keeps a locator: its path is neither recorded in [ps] nor
    a file of [fs]. *)
Definition missing (dst : string) (ps : list string) (fs : gset string)
    (url : string) : bool :=
  negb (bool_decide (localPath dst url ∈ ps))
  && negb (bool_decide (localPath dst url ∈ fs)).

(** The download of [url] goes through: no error, status 200 and the
    write succeeds. *)
Definition downloadOk (E : Env) (dst url : string) : bool :=
  negb (getError (http_get E url))
  && (statusCode (http_get E url) =? 200)
  && file_write_ok E (localPath dst url) (rawData (http_get E url)).

(** The paths the downloads of [urls] that go through record, as they arrive. *)
Definition fetched (E : Env) (dst : string) (urls : list string)
    : list string :=
  map (localPath dst) (List.filter (downloadOk E dst) urls).

(** The guard of [downloadImage]:
    [item.imgDownloaded || item.imgUrls.length === 0]. *)
Definition shortCircuits (it : Item) : bool :=
  truthy (imgDownloaded it) || (length (imgUrls it) =? 0)%nat.

(** As long as the run has not returned, its item is unresolved, provided
    the others leave the item alone; when it returns, [Q] holds. *)
Fixpoint unresolvedUntil {A} (Q : A → Job → Prop) (r : Run A) : Prop :=
  match r with
  | Done a j => Q a j
  | Await j resume =>
      shortCircuits (item j) = false
      ∧ ∀ j', item j' = item j → unresolvedUntil Q (resume j')
  end.

(** [m] keeps an unresolved item unresolved. *)
Definition quiet {A} (m : M A) : Prop :=
  ∀ j, shortCircuits (item j) = false →
       unresolvedUntil (λ _ j', shortCircuits (item j') = false) (m j).

(** A call of the pass is in order: if it has returned, its answer says
    whether its item is resolved; if it is suspended, its item is
    unresolved and its continuation behaves. *)
Definition callOK (c : Call) : Prop :=
  match c with
  | Returned v it => shortCircuits it = v
  | Suspended it resume =>
      shortCircuits it = false
      ∧ (∀ fs lg, unresolvedUntil (λ b j', shortCircuits (item j') = b)
                                  (resume (mkJob it fs lg)))
      ∧ (∀ j', guar grows j' (resume j'))
  end.

(** [j'] extends [j]: as [grows], the log left aside. *)
Definition extends (j j' : Job) : Prop :=
  abstract (item j') = abstract (item j)
  ∧ imgUrls (item j') = imgUrls (item j)
  ∧ (∃ added, pathsOf (item j') = pathsOf (item j) ++ added
       ∧ Forall (λ p, p ∈ disk j') added)
  ∧ (is_Some (imgPaths (item j)) → is_Some (imgPaths (item j')))
  ∧ disk j ⊆ disk j'.

(** The locators [downloadImage] gets from the selector when every probe
    is answered: the first [maxNumImg] accepted ones. *)
Definition selection (C : Constants) (E : Env) (it : Item) : list string :=
  take (Z.to_nat (maxNumImg C it))
       (List.filter (accepted E (MAX_IMAGE_SIZE C)) (imgUrls it)).

(** The item a finished download stage leaves: [ps] recorded, and the flag
    set when every download went through. *)
Definition settled (it : Item) (ps : list string) (allOk : bool) : Item :=
  if allOk then withFlag (withPaths (started it) ps) true
  else withPaths (started it) ps.

(** The events [w'] has seen since [w]. *)
Definition issued (w w' : World) : list Event :=
  drop (length (history w)) (history w').

(** A stored record [getEntry] can fall back on: it has both [items] and
    [date]. *)
Definition usable (cached : option CacheRecord) (its : list Item) (d : Z)
    : Prop :=
  ∃ c, cached = Some c ∧ items c = Some its ∧ date c = Some d.

(** The folder [getEntry] downloads the images of [tiebaName] to. *)
Definition imageDir (C : Constants) (tiebaName : string) : string :=
  IMAGE_DOWNLOAD_DIR C +:+ "/" +:+ tiebaName.

(** The three ways an invocation for a non-empty name goes. *)
Variant Course (C : Constants) (E : Env) (tiebaName : string)
    (forceLoad : bool) (w : World)
    : Entry * World → Prop :=
  | Reused its d flag :
      forceLoad = false →
      isCacheValid C E (store w !! tiebaName) (clock_check E) = true →
      store w !! tiebaName = Some (mkCache (Some its) (Some d) flag) →
      Course C E tiebaName forceLoad w
        (if flag then (mkEntry (Some its) (Some d), w)
         else passAndStore C E tiebaName (imageDir C tiebaName) its d true w)
  | Fetched its :
      forceLoad = true
      ∨ isCacheValid C E (store w !! tiebaName) (clock_check E) = false →
      tryGetTiebaPostWithTimeout E tiebaName (POST_INFO_TIMEOUT C)
        (MAX_NUMBER_OF_POST C) = Some its →
      Course C E tiebaName forceLoad w
        (passAndStore C E tiebaName (imageDir C tiebaName) its
           (clock_fetched E) false
           (mkWorld (files w) (store w) (history w ++ [EvFetch tiebaName])))
  | FellBack e :
      forceLoad = true
      ∨ isCacheValid C E (store w !! tiebaName) (clock_check E) = false →
      tryGetTiebaPostWithTimeout E tiebaName (POST_INFO_TIMEOUT C)
        (MAX_NUMBER_OF_POST C) = None →
      (∀ its d, usable (store w !! tiebaName) its d →
         e = mkEntry (Some its) (Some d)) →
      ((¬ ∃ its d, usable (store w !! tiebaName) its d) →
         e = mkEntry None None) →
      Course C E tiebaName forceLoad w
        (e, mkWorld (files w) (store w) (history w ++ [EvFetch tiebaName])).

(** The locators a call of [downloadImage] requests when it gets as far as
    downloading: the selected ones the filter keeps. *)
Definition pending (C : Constants) (E : Env) (dst : string) (it : Item)
    (fs : gset string) : list string :=
  List.filter (missing dst (pathsOf it) fs) (selection C E it).

(** The run returns [a] in state [j1]; while it waits, the others leave
    its item alone and only add files. *)
Inductive Returns {A} : Run A → A → Job → Prop :=
  | returns_done a j : Returns (Done a j) a j
  | returns_later j resume j' a j1 :
      item j' = item j → disk j ⊆ disk j' →
      Returns (resume j') a j1 → Returns (Await j resume) a j1.

(** The character [c] occurs in [s]. *)
Fixpoint occurs (c : ascii) (s : string) : bool :=
  match s with
  | EmptyString => false
  | String c' s' => Ascii.eqb c' c || occurs c s'
  end.

(** [parts.join(sep)] for a one-character separator. *)
Fixpoint join (sep : ascii) (parts : list string) : string :=
  match parts with
  | [] => EmptyString
  | [part] => part
  | part :: rest => part +:+ String sep (join sep rest)
  end.

(** [it'] is a later state of the post [it]: same abstract and locators,
    recorded paths extended at the end by files of [fs], and [imgPaths]
    not dropped. *)
Definition itemGrows (fs : gset string) (it it' : Item) : Prop :=
  abstract it' = abstract it
  ∧ imgUrls it' = imgUrls it
  ∧ (∃ added, pathsOf it' = pathsOf it ++ added ∧ Forall (λ p, p ∈ fs) added)
  ∧ (is_Some (imgPaths it) → is_Some (imgPaths it')).

(** The call [c] of a pass was started on the post [it]: its item is a
    later state of [it], and it has returned at once if [it] was
    resolved. *)
Definition callFrom (fs : gset string) (it : Item) (c : Call) : Prop :=
  itemGrows fs it (itemOf c)
  ∧ (shortCircuits it = true → c = Returned true it).

(** What a pass makes of a post: a later state of it, and the post itself
    if it was resolved. *)
Definition postKept (fs : gset string) (it it' : Item) : Prop :=
  itemGrows fs it it' ∧ (shortCircuits it = true → it' = it).

(** The screens a run of [mainJSBox] goes through: it starts from what the
    options file parses to, names are added, and rows that exist are
    deleted. *)
Inductive Shown (write_ok : list JValue → bool) (parsed : option JValue)
    : Screen → Prop :=
  | shown_start : Shown write_ok parsed (mainJSBox parsed)
  | shown_add newTiebaName s :
      Shown write_ok parsed s →
      Shown write_ok parsed (onAdd write_ok newTiebaName s).2
  | shown_remove deletingIdx s :
      Shown write_ok parsed s →
      (deletingIdx < length (options s))%nat →
      Shown write_ok parsed (onRemove write_ok deletingIdx s).

(** The forum an option stands for: its [value], when that is a string. *)
Definition valueOf (v : JValue) : option string :=
  match getField "value" v with
  | Some (JString value) => Some value
  | _ => None
  end.

(** ** The specification's wording, where it differs from the code *)

(** The freshness test as the specification words it: a record exists, has
    non-empty items, has a capture time, and less than the refresh
    interval (in minutes) has passed since. *)
Definition freshBySpec (interval : Z) (cache : option CacheRecord)
    (now : Z) : Prop :=
  ∃ c its d, cache = Some c ∧ items c = Some its ∧ its ≠ []
    ∧ date c = Some d ∧ now - d < interval * 60000.

(** The probe test as the specification words it: the probe succeeds and
    reports a known length that is at most [maxBytes]. *)
Definition knownWithin (maxBytes : Z) (r : HeadResponse) : bool :=
  negb (headError r)
  && match expectedContentLength r with
     | Some len => len <=? maxBytes
     | None => false
     end.

(** The count policy as the specification words it: three without an
    abstract, two with an abstract shorter than the threshold, else one. *)
Definition countBySpec (threshold : Z) (abstractText : option string) : Z :=
  match abstractText with
  | None => 3
  | Some s => if Z.of_nat (jsLength s) <? threshold then 2 else 1
  end.

(** ** Concrete settings used in the examples *)

(** Constants in the style of [scripts/constant.js]. *)
Definition demoConstants : Constants :=
  {| POST_INFO_TIMEOUT := 8000; IMAGE_TIMEOUT := 10000;
     IMAGE_DOWNLOAD_DIR := "img"; MAX_NUMBER_OF_POST := 10;
     DEFAULT_REFRESH_CIRCLE := 30; MAX_IMAGE_SIZE := 1000000;
     IMAGE_CLEAR_INTERVAL := 86400000;
     MAX_ABSTRACT_LEN_ALLOWING_TWO_IMAGES := 20 |}.

(** Every probe reports [size url] bytes, every download answers with
    [status url], every write and mkdir succeeds, and the remote client
    ends as [remote] says; the clock reads [now] throughout. *)
Definition demoEnv (size status : string → Z) (remote : FetchOutcome)
    (now : Z) : Env :=
  {| http_head := λ url, mkHead (Some (size url)) false;
     http_get := λ url, mkGet (status url) false "bytes";
     get_latency := λ _, O;
     file_write_ok := λ _ _, true;
     file_mkdir_ok := λ _, true;
     file_mtime := λ _, None;
     prefs_refresh_circle := None;
     clock_check := now; clock_fetched := now; clock_prepare := now;
     remote_fetch := λ _ _ _, remote;
     image_arrivals := λ _, [];
     image_timer := λ _, false |}.

(** [E] on a disk where no folder can be created. *)
Definition noMkdir (E : Env) : Env :=
  {| http_head := http_head E; http_get := http_get E;
     get_latency := get_latency E; file_write_ok := file_write_ok E;
     file_mkdir_ok := λ _, false;
     file_mtime := file_mtime E;
     prefs_refresh_circle := prefs_refresh_circle E;
     clock_check := clock_check E; clock_fetched := clock_fetched E;
     clock_prepare := clock_prepare E;
     remote_fetch := remote_fetch E;
     image_arrivals := image_arrivals E; image_timer := image_timer E |}.

(** [E] with the response for [slow] arriving after all others. *)
Definition delayed (slow : string) (E : Env) : Env :=
  {| http_head := http_head E; http_get := http_get E;
     get_latency := λ url, if String.eqb url slow then 1%nat else O;
     file_write_ok := file_write_ok E;
     file_mkdir_ok := file_mkdir_ok E;
     file_mtime := file_mtime E;
     prefs_refresh_circle := prefs_refresh_circle E;
     clock_check := clock_check E; clock_fetched := clock_fetched E;
     clock_prepare := clock_prepare E;
     remote_fetch := remote_fetch E;
     image_arrivals := image_arrivals E; image_timer := image_timer E |}.

(** [E] with an image pass in which the responses [arrivals] arrive and
    then the timer fires. *)
Definition hurried (arrivals : list nat) (E : Env) : Env :=
  {| http_head := http_head E; http_get := http_get E;
     get_latency := get_latency E; file_write_ok := file_write_ok E;
     file_mkdir_ok := file_mkdir_ok E;
     file_mtime := file_mtime E;
     prefs_refresh_circle := prefs_refresh_circle E;
     clock_check := clock_check E; clock_fetched := clock_fetched E;
     clock_prepare := clock_prepare E;
     remote_fetch := remote_fetch E;
     image_arrivals := λ _, arrivals; image_timer := λ _, true |}.

(** Nothing on disk, nothing stored, nothing requested yet. *)
Definition emptyWorld : World := mkWorld ∅ ∅ [].

(** A post without images, as the remote client hands it over. *)
Definition textPost : Item := mkItem (Some "hello") [] None None.

(** A post whose only image is already there. *)
Definition donePost : Item :=
  mkItem (Some "hello") ["http://h/a.jpg"] (Some true)
         (Some ["img/lol/a.jpg"]).

(** A world whose store holds [r] under the name [lol]. *)
Definition worldWith (r : CacheRecord) : World :=
  mkWorld ∅ {[ "lol" := r ]} [].

(** A post without abstract and with three images. *)
Definition threeImages : Item :=
  mkItem None ["http://h/img1"; "http://h/img2"; "http://h/img3"] None None.

(** Every probe reports one byte; the download of [img2] answers 500, the
    others 200. *)
Definition flakyEnv : Env :=
  demoEnv (λ _, 1)
          (λ url, if String.eqb url "http://h/img2" then 500 else 200)
          Threw 0.

(** The same answers, except that [img2] is now served as well. *)
Definition recoveredEnv : Env := demoEnv (λ _, 1) (λ _, 200) Threw 0.

(** A post with one image. *)
Definition oneImage : Item := mkItem None ["http://h/a.jpg"] None None.

(** Another one. *)
Definition otherImage : Item := mkItem None ["http://h/b.jpg"] None None.

(** Every download answers 500. *)
Definition downEnv : Env := demoEnv (λ _, 1) (λ _, 500) Threw 0.


(** [E] at a time when every folder was last modified long ago. *)
Definition agedEnv (E : Env) : Env :=
  {| http_head := http_head E; http_get := http_get E;
     get_latency := get_latency E; file_write_ok := file_write_ok E;
     file_mkdir_ok := file_mkdir_ok E;
     file_mtime := λ _, Some 1000;
     prefs_refresh_circle := prefs_refresh_circle E;
     clock_check := clock_check E; clock_fetched := clock_fetched E;
     clock_prepare := 100000000;
     remote_fetch := remote_fetch E;
     image_arrivals := image_arrivals E; image_timer := image_timer E |}.


(** [E] with the refresh interval set to [interval] in the preferences. *)
Definition withInterval (interval : Z) (E : Env) : Env :=
  {| http_head := http_head E; http_get := http_get E;
     get_latency := get_latency E; file_write_ok := file_write_ok E;
     file_mkdir_ok := file_mkdir_ok E;
     file_mtime := file_mtime E;
     prefs_refresh_circle := Some interval;
     clock_check := clock_check E; clock_fetched := clock_fetched E;
     clock_prepare := clock_prepare E;
     remote_fetch := remote_fetch E;
     image_arrivals := image_arrivals E; image_timer := image_timer E |}.

(** An options file with two entries the filter keeps and three it
    drops. *)
Definition optionsFile : JValue :=
  JArray [optionFor "lol"; JNull;
          JObject [("name", JString "dota"); ("value", JString "dota")];
          JObject [("name", JString (BA)); ("value", JString "")];
          optionFor "go"].


(** ** Reasoning about runs *)

Arguments fileWrite E path data j /.
Arguments fileExists path j /.
Arguments await j /.
Arguments emit e j /.
Arguments getItem j /.
Arguments setItem it j /.
Arguments ret {A} a j /.
Arguments bind {A B} m k j /.

Global Instance grows_preorder : PreOrder grows.
Proof.
  split.
  - intros j. split; try done.
    + exists []. by rewrite app_nil_r.
    + exists []. by rewrite app_nil_r.
  - intros j1 j2 j3 [Ha Hu [p1 [Hp1 Hd1]] Hs Hd [e1 [He1 Hh1]]]
                    [Ha' Hu' [p2 [Hp2 Hd2]] Hs' Hd' [e2 [He2 Hh2]]].
    split.
    + congruence.
    + congruence.
    + exists (p1 ++ p2). split.
      * by rewrite Hp2, Hp1, <- app_assoc.
      * apply Forall_app. split; [|done].
        eapply Forall_impl; [exact Hd1|]. intros p Hp. by apply Hd'.
    + auto.
    + set_solver.
    + exists (e1 ++ e2). split.
      * by rewrite He2, He1, <- app_assoc.
      * by apply Forall_app.
Qed.

Lemma complete_andThen {A B} (r : Run A) (k : A → M B) :
  complete (andThen r k) = complete (k (complete r).1 (complete r).2).
Proof. induction r as [a j|j resume IH]; simpl; [done|apply IH]. Qed.

Section Steps.

Context (G : relation Job) `{!PreOrder G}.

Lemma guar_andThen {A B} (r : Run A) (k : A → M B) j0 :
  guar G j0 r → (∀ a, stepsIn G (k a)) → guar G j0 (andThen r k).
Proof.
  revert j0. induction r as [a j|j resume IH]; intros j0; simpl.
  - intros HG Hk. by apply Hk.
  - intros [HG Hres] Hk. split; [done|]. intros j'. by apply IH.
Qed.

Lemma stepsIn_ret {A} (a : A) : stepsIn G (ret a).
Proof. by intros j0 j HG. Qed.

Lemma stepsIn_bind {A B} (m : M A) (k : A → M B) :
  stepsIn G m → (∀ a, stepsIn G (k a)) → stepsIn G (bind m k).
Proof. intros Hm Hk j0 j HG. apply guar_andThen; [by apply Hm|done]. Qed.

Lemma stepsIn_await : stepsIn G await.
Proof. intros j0 j HG. simpl. split; [done|]. by intros j'. Qed.

(** A computation that returns at once, in a [G]-step. *)
Lemma stepsIn_atomic {A} (m : M A) :
  (∀ j, ∃ a j', m j = Done a j' ∧ G j j') → stepsIn G m.
Proof.
  intros Hm j0 j HG. destruct (Hm j) as (a & j' & -> & HG'). simpl.
  by etrans.
Qed.

(** What a whole run reaches when it is left alone lies [G]-steps from
    where it started. *)
Lemma guar_complete {A} (r : Run A) j0 : guar G j0 r → G j0 (complete r).2.
Proof.
  revert j0. induction r as [a j|j resume IH]; intros j0; simpl; [done|].
  intros [HG Hres]. etrans; [exact HG|]. by apply IH.
Qed.

End Steps.

Abbreviation mono := (stepsIn grows).

Lemma mono_ret {A} (a : A) : mono (ret a).
Proof. apply (stepsIn_ret grows). Qed.

Lemma mono_bind {A B} (m : M A) (k : A → M B) :
  mono m → (∀ a, mono (k a)) → mono (bind m k).
Proof. apply (stepsIn_bind grows). Qed.

Lemma mono_await : mono await.
Proof. apply (stepsIn_await grows). Qed.

Lemma mono_getItem : mono getItem.
Proof. apply (stepsIn_atomic grows). intros j. by exists (item j), j. Qed.

Lemma mono_emit e : isHttp e → mono (emit e).
Proof.
  intros He. apply (stepsIn_atomic grows). intros j. eexists _, _.
  split; [done|]. split; simpl; try done.
  - exists []. by rewrite app_nil_r.
  - exists [e]. split; [done|]. by apply Forall_singleton.
Qed.

Lemma mono_setDownloaded b : mono (setDownloaded b).
Proof.
  apply (stepsIn_atomic grows). intros j. eexists _, _.
  split; [done|]. split; simpl; try done.
  - exists []. by rewrite app_nil_r.
  - exists []. by rewrite app_nil_r.
Qed.

Lemma mono_initImgPaths : mono initImgPaths.
Proof.
  apply (stepsIn_atomic grows). intros j. unfold initImgPaths. simpl.
  destruct (imgPaths (item j)) as [ps|] eqn:Hps; simpl; eexists _, _.
  - done.
  - split; [done|]. split; simpl; try done.
    + exists []. unfold pathsOf. by rewrite Hps.
    + exists []. by rewrite app_nil_r.
Qed.

(** Recording a path is a step of [grows] when the path exists. *)
Lemma grows_pushPath path j :
  path ∈ disk j → ∃ j', pushPath path j = Done tt j' ∧ grows j j'.
Proof.
  intros Hin. eexists. split; [done|]. split; simpl; try done.
  - exists [path]. split; [done|]. by apply Forall_singleton.
  - exists []. by rewrite app_nil_r.
Qed.

Section Growth.

Context (C : Constants) (E : Env).

Lemma mono_httpHead url : mono (httpHead E url).
Proof.
  unfold httpHead. apply mono_bind; [by apply mono_emit|].
  intros _. apply mono_bind; [apply mono_await|]. intros _.
  apply mono_ret.
Qed.

Lemma mono_selectLoop maxSize n urls selected :
  mono (selectLoop E maxSize n urls selected).
Proof.
  revert selected. induction urls as [|url rest IH]; intros selected; simpl.
  - apply mono_ret.
  - destruct (Z.of_nat (length selected) <? n); [|apply mono_ret].
    apply mono_bind; [apply mono_httpHead|]. intros r. apply IH.
Qed.

Lemma filterMissing_atomic dst urls j :
  ∃ kept j',
    filterMissing dst urls j = Done kept j' ∧ grows j j'
    ∧ imgDownloaded (item j') = imgDownloaded (item j).
Proof.
  revert j. induction urls as [|url rest IH]; intros j; simpl.
  { by exists [], j. }
  destruct (bool_decide (localPath dst url ∈ pathsOf (item j))); [apply IH|].
  simpl. destruct (bool_decide (localPath dst url ∈ disk j)) eqn:Hex; simpl.
  - apply bool_decide_eq_true in Hex.
    destruct (grows_pushPath _ j Hex) as (j1 & Hpush & Hg1).
    simpl in Hpush. injection Hpush as <-.
    edestruct IH as (kept & j' & -> & Hg & Hflag). exists kept, j'.
    split; [done|]. split; [by etrans|]. by rewrite Hflag.
  - destruct (IH j) as (kept & j' & -> & Hg & Hflag). simpl.
    by eexists _, _.
Qed.

Lemma mono_filterMissing dst urls : mono (filterMissing dst urls).
Proof.
  apply (stepsIn_atomic grows). intros j.
  destruct (filterMissing_atomic dst urls j) as (kept & j' & ? & ? & _).
  by exists kept, j'.
Qed.

Lemma mono_settle dst url : mono (settle E dst url).
Proof.
  apply (stepsIn_atomic grows). intros j. unfold settle.
  destruct (getError (http_get E url)); [by eexists _, _|].
  destruct (negb (statusCode (http_get E url) =? 200)); [by eexists _, _|].
  simpl. destruct (file_write_ok E _ _); simpl; [|by eexists _, _].
  eexists _, _. split; [done|]. split; simpl; try done.
  - exists [localPath dst url]. split; [done|].
    apply Forall_singleton. set_solver.
  - set_solver.
  - exists []. by rewrite app_nil_r.
Qed.

Lemma mono_issueAll urls : mono (issueAll urls).
Proof.
  induction urls as [|url rest IH]; simpl; [apply mono_ret|].
  apply mono_bind; [by apply mono_emit|]. by intros _.
Qed.

Lemma mono_settleAll dst urls : mono (settleAll E dst urls).
Proof.
  induction urls as [|url rest IH]; simpl; [apply mono_ret|].
  apply mono_bind; [apply mono_await|]. intros _.
  apply mono_bind; [apply mono_settle|]. intros v.
  apply mono_bind; [apply IH|]. intros vs. apply mono_ret.
Qed.

Lemma mono_downloadEach dst urls : mono (downloadEach E dst urls).
Proof.
  apply mono_bind; [apply mono_issueAll|]. intros _.
  apply mono_settleAll.
Qed.

Lemma mono_downloadImage dst : mono (downloadImage C E dst).
Proof.
  unfold downloadImage.
  apply mono_bind; [apply mono_getItem|]. intros it.
  destruct (_ || _); [apply mono_ret|].
  apply mono_bind; [apply mono_selectLoop|]. intros shown.
  destruct (length shown =? 0)%nat.
  { apply mono_bind; [apply mono_setDownloaded|]. intros _.
    apply mono_ret. }
  apply mono_bind; [apply mono_initImgPaths|]. intros _.
  apply mono_bind; [apply mono_filterMissing|]. intros todo.
  apply mono_bind; [apply mono_downloadEach|].
  intros results.
  destruct (forallb fulfilledTrue results); [|apply mono_ret].
  apply mono_bind; [apply mono_setDownloaded|]. intros _.
  apply mono_ret.
Qed.

(** *** The item stays unresolved until [downloadImage] itself sets the flag *)

Lemma until_andThen {A B} (Q1 : A → Job → Prop) (Q2 : B → Job → Prop)
    (r : Run A) (k : A → M B) :
  unresolvedUntil Q1 r →
  (∀ a j, Q1 a j → unresolvedUntil Q2 (k a j)) →
  unresolvedUntil Q2 (andThen r k).
Proof.
  intros Hr Hk. induction r as [a j|j resume IH]; simpl in *; [by apply Hk|].
  destruct Hr as [Hj Hres]. split; [done|]. intros j' Hsame.
  by apply IH, Hres.
Qed.

Lemma quiet_ret {A} (a : A) : quiet (ret a).
Proof. by intros j Hj. Qed.

Lemma quiet_bind {A B} (m : M A) (k : A → M B) :
  quiet m → (∀ a, quiet (k a)) → quiet (bind m k).
Proof.
  intros Hm Hk j Hj. eapply until_andThen; [by apply Hm|].
  intros a j1 Hj1. by apply Hk.
Qed.

Lemma quiet_await : quiet await.
Proof.
  intros j Hj. simpl. split; [done|]. intros j' Hsame. by rewrite Hsame.
Qed.

(** A computation that returns at once and leaves flag and locators. *)
Lemma quiet_atomic {A} (m : M A) :
  (∀ j, ∃ a j', m j = Done a j'
     ∧ imgUrls (item j') = imgUrls (item j)
     ∧ truthy (imgDownloaded (item j')) = truthy (imgDownloaded (item j))) →
  quiet m.
Proof.
  intros Hm j Hj. destruct (Hm j) as (a & j' & -> & Hu & Hf). simpl.
  unfold shortCircuits in *. by rewrite Hu, Hf.
Qed.

Lemma quiet_emit e : quiet (emit e).
Proof. apply quiet_atomic. intros j. by eexists _, _. Qed.

Lemma quiet_initImgPaths : quiet initImgPaths.
Proof.
  intros j Hj. unfold initImgPaths. simpl.
  destruct (imgPaths (item j)); simpl; [done|].
  unfold shortCircuits in *. simpl.
  by apply orb_false_elim in Hj as [_ ->].
Qed.

Lemma quiet_selectLoop maxSize n urls selected :
  quiet (selectLoop E maxSize n urls selected).
Proof.
  revert selected. induction urls as [|url rest IH]; intros selected; simpl.
  - apply quiet_ret.
  - destruct (Z.of_nat (length selected) <? n); [|apply quiet_ret].
    apply quiet_bind; [|intros r; apply IH].
    apply quiet_bind; [apply quiet_emit|]. intros _.
    apply quiet_bind; [apply quiet_await|]. intros _.
    apply quiet_ret.
Qed.

Lemma quiet_filterMissing dst urls : quiet (filterMissing dst urls).
Proof.
  apply quiet_atomic. intros j.
  destruct (filterMissing_atomic dst urls j) as (kept & j' & ? & Hg & Hflag).
  exists kept, j'. split; [done|]. split; [apply Hg|by rewrite Hflag].
Qed.

Lemma quiet_settle dst url : quiet (settle E dst url).
Proof.
  apply quiet_atomic. intros j. unfold settle.
  destruct (getError (http_get E url)); [by eexists _, _|].
  destruct (negb (statusCode (http_get E url) =? 200)); [by eexists _, _|].
  simpl. destruct (file_write_ok E _ _); simpl; by eexists _, _.
Qed.

Lemma quiet_downloadEach dst urls : quiet (downloadEach E dst urls).
Proof.
  apply quiet_bind; [|intros _].
  - induction urls as [|url rest IH]; simpl; [apply quiet_ret|].
    apply quiet_bind; [apply quiet_emit|]. by intros _.
  - induction (arrivalOrder E urls) as [|url rest IH]; simpl;
      [apply quiet_ret|].
    apply quiet_bind; [apply quiet_await|]. intros _.
    apply quiet_bind; [apply quiet_settle|]. intros v.
    apply quiet_bind; [apply IH|]. intros vs.
    apply quiet_ret.
Qed.

(** [downloadImage] answers [true] exactly when it leaves the item
    resolved (flag set, or no locators); as long as it has not returned,
    the item is unresolved. *)
Lemma downloadImage_verdict dst j :
  unresolvedUntil (λ b j', shortCircuits (item j') = b)
                  (downloadImage C E dst j).
Proof.
  unfold downloadImage. simpl.
  change (truthy (imgDownloaded (item j)) || (length (imgUrls (item j)) =? 0)%nat)
    with (shortCircuits (item j)).
  destruct (shortCircuits (item j)) eqn:Hguard; simpl; [done|].
  eapply until_andThen; [by apply quiet_selectLoop|].
  intros shown j1 H1. simpl in H1.
  destruct (length shown =? 0)%nat; simpl; [done|].
  eapply until_andThen; [by apply quiet_initImgPaths|].
  intros [] j2 H2. simpl in H2.
  eapply until_andThen; [by apply quiet_filterMissing|].
  intros todo j3 H3. simpl in H3.
  eapply until_andThen; [by apply quiet_downloadEach|].
  intros results j4 H4. simpl in H4.
  destruct (forallb fulfilledTrue results); simpl; done.
Qed.

End Growth.

(** ** A call left alone *)

(** What a call computes when nobody else acts while it waits and every
    response arrives: [complete]. *)

Section Selector.

Context (E : Env) (maxSize n : Z).

Lemma selectLoop_run urls : ∀ selected it fs lg,
  ∃ probed rest,
    urls = probed ++ rest
    ∧ complete (selectLoop E maxSize n urls selected (mkJob it fs lg))
      = (selected ++ List.filter (accepted E maxSize) probed,
         mkJob it fs (lg ++ map EvHead probed))
    ∧ List.filter (accepted E maxSize) probed
      = take (Z.to_nat n - length selected)%nat
             (List.filter (accepted E maxSize) urls)
    ∧ (rest = []
       ∨ n ≤ Z.of_nat (length selected
                       + length (List.filter (accepted E maxSize) probed)))
    ∧ (∀ pre url post, probed = pre ++ url :: post →
        Z.of_nat (length selected
                  + length (List.filter (accepted E maxSize) pre)) < n).
Proof.
  induction urls as [|u rest0 IH]; intros selected it fs lg.
  - exists [], []. simpl. rewrite !app_nil_r, take_nil.
    repeat split; auto. intros [|??] ???; discriminate.
  - simpl. destruct (Z.of_nat (length selected) <? n) eqn:Hroom.
    + apply Z.ltb_lt in Hroom.
      change (fitsBudget maxSize (http_head E u))
        with (accepted E maxSize u).
      destruct (accepted E maxSize u) eqn:Hfit.
      * destruct (IH (selected ++ [u]) it fs (lg ++ [EvHead u]))
          as (probed & rest & Hsplit & Hrun & Htake & Hstop & Hroom').
        exists (u :: probed), rest. split; [by rewrite Hsplit|].
        unfold httpHead. simpl.
        change (fitsBudget maxSize (http_head E u))
          with (accepted E maxSize u).
        rewrite Hfit, Hrun.
        rewrite <- !app_assoc. simpl. split; [done|].
        rewrite length_app in Htake, Hstop, Hroom'. simpl in *.
        split; [|split].
        -- destruct (Z.to_nat n - length selected)%nat as [|k] eqn:Hk;
             [lia|]. simpl. f_equal. rewrite Htake. f_equal. lia.
        -- destruct Hstop as [->|Hstop]; [by left|right]. lia.
        -- intros [|v pre] url post Heq; simpl in Heq; simplify_eq; simpl.
           ++ lia.
           ++ rewrite Hfit. simpl.
              specialize (Hroom' pre url post eq_refl). lia.
      * destruct (IH selected it fs (lg ++ [EvHead u]))
          as (probed & rest & Hsplit & Hrun & Htake & Hstop & Hroom').
        exists (u :: probed), rest. split; [by rewrite Hsplit|].
        unfold httpHead. simpl.
        change (fitsBudget maxSize (http_head E u))
          with (accepted E maxSize u).
        rewrite Hfit, Hrun.
        rewrite <- !app_assoc. simpl. split; [done|].
        split; [done|]. split; [done|].
        intros [|v pre] url post Heq; simpl in Heq; simplify_eq; simpl.
        -- lia.
        -- rewrite Hfit. by apply (Hroom' pre url post).
    + apply Z.ltb_ge in Hroom. exists [], (u :: rest0). simpl.
      rewrite !app_nil_r. split; [done|]. split; [done|].
      split; [|split].
      * replace (Z.to_nat n - length selected)%nat with O by lia.
        by rewrite take_0.
      * right. lia.
      * intros [|??] ???; discriminate.
Qed.

End Selector.

Lemma withPaths_same it ps : imgPaths it = Some ps → withPaths it ps = it.
Proof. destruct it. simpl. by intros ->. Qed.

Lemma imgPaths_started it : imgPaths (started it) = Some (pathsOf it).
Proof. unfold started, pathsOf. by destruct (imgPaths it) eqn:H; rewrite ?H. Qed.

Lemma truthy_started it :
  truthy (imgDownloaded it) = false →
  truthy (imgDownloaded (started it)) = false.
Proof. unfold started. by destruct (imgPaths it). Qed.

Section Prefetcher.

Context (C : Constants) (E : Env) (dst : string).

Lemma filterMissing_run urls : ∀ it ps fs lg,
  imgPaths it = Some ps →
  ∃ repaired,
    filterMissing dst urls (mkJob it fs lg)
    = Done (List.filter (missing dst ps fs) urls)
           (mkJob (withPaths it (ps ++ repaired)) fs lg)
    ∧ Forall (λ p, p ∈ fs ∧ (p ∉ ps) ∧ (∃ u, u ∈ urls ∧ p = localPath dst u))
             repaired
    ∧ (∀ u, u ∈ urls → localPath dst u ∈ fs →
         localPath dst u ∈ ps ++ repaired).
Proof.
  induction urls as [|url rest IH]; intros it ps fs lg Hps.
  - exists []. simpl. rewrite app_nil_r, withPaths_same by done.
    split; [done|]. split; [done|]. intros u Hu. by apply elem_of_nil in Hu.
  - simpl. unfold pathsOf, missing at 1. rewrite Hps. simpl.
    destruct (bool_decide (localPath dst url ∈ ps)) eqn:Hin; simpl.
    + apply bool_decide_eq_true in Hin.
      destruct (IH it ps fs lg Hps) as (rep & Hrun & Hrep & Hcov).
      exists rep. split; [done|]. split.
      * eapply Forall_impl; [exact Hrep|]. simpl.
        intros p (? & ? & u & ? & ?). do 2 (split; [done|]).
        exists u. split; [by apply elem_of_cons; right|done].
      * intros u [->|Hu]%elem_of_cons Hfs; [|by apply Hcov].
        apply elem_of_app. by left.
    + apply bool_decide_eq_false in Hin.
      destruct (bool_decide (localPath dst url ∈ fs)) eqn:Hex; simpl.
      * apply bool_decide_eq_true in Hex.
        unfold pathsOf. rewrite Hps. simpl.
        destruct (IH (withPaths it (ps ++ [localPath dst url]))
                     (ps ++ [localPath dst url]) fs lg eq_refl)
          as (rep & Hrun & Hrep & Hcov).
        exists (localPath dst url :: rep).
        change (mkItem (abstract it) (imgUrls it) (imgDownloaded it)
                       (Some (ps ++ [localPath dst url])))
          with (withPaths it (ps ++ [localPath dst url])).
        rewrite Hrun. split; [|split].
        -- f_equal.
           ++ apply filter_ext_in_iff. intros u _. unfold missing.
              destruct (bool_decide (localPath dst u ∈ fs)) eqn:Hu;
                [by rewrite !andb_false_r|].
              rewrite !andb_true_r. f_equal.
              apply bool_decide_eq_false in Hu.
              apply bool_decide_ext.
              rewrite elem_of_app, list_elem_of_singleton.
              split; [|tauto]. intros [?|Heq]; [done|]. congruence.
           ++ unfold withPaths. simpl. by rewrite <- app_assoc.
        -- constructor.
           ++ do 2 (split; [done|]). exists url.
              split; [apply list_elem_of_here|done].
           ++ eapply Forall_impl; [exact Hrep|]. simpl.
              intros p (? & Hnot & u & ? & ?). split; [done|]. split.
              ** intros ?. apply Hnot, elem_of_app. by left.
              ** exists u. split; [by apply elem_of_cons; right|done].
        -- intros u [->|Hu]%elem_of_cons Hfs.
           ++ apply elem_of_app. right. apply list_elem_of_here.
           ++ specialize (Hcov u Hu Hfs). by rewrite <- app_assoc in Hcov.
      * apply bool_decide_eq_false in Hex.
        destruct (IH it ps fs lg Hps) as (rep & Hrun & Hrep & Hcov).
        exists rep. rewrite Hrun. simpl. split; [done|]. split.
        -- eapply Forall_impl; [exact Hrep|]. simpl.
           intros p (? & ? & u & ? & ?). do 2 (split; [done|]).
           exists u. split; [by apply elem_of_cons; right|done].
        -- intros u [->|Hu]%elem_of_cons Hfs; [done|by apply Hcov].
Qed.

Lemma issueAll_run urls : ∀ it fs lg,
  issueAll urls (mkJob it fs lg)
  = Done tt (mkJob it fs (lg ++ map EvGet urls)).
Proof.
  induction urls as [|url rest IH]; intros it fs lg; simpl.
  - by rewrite app_nil_r.
  - rewrite IH. by rewrite <- app_assoc.
Qed.

Lemma settle_run url it ps fs lg :
  imgPaths it = Some ps →
  settle E dst url (mkJob it fs lg)
  = if downloadOk E dst url
    then Done (fulfilled true)
              (mkJob (withPaths it (ps ++ [localPath dst url]))
                     ({[localPath dst url]} ∪ fs) lg)
    else Done rejected (mkJob it fs lg).
Proof.
  intros Hps. unfold settle, downloadOk.
  destruct (getError (http_get E url)); simpl; [done|].
  destruct (statusCode (http_get E url) =? 200); simpl; [|done].
  destruct (file_write_ok E _ _); simpl; [|done].
  unfold pathsOf. by rewrite Hps.
Qed.

Lemma settleAll_run urls : ∀ it ps fs lg,
  imgPaths it = Some ps →
  ∃ results,
    complete (settleAll E dst urls (mkJob it fs lg))
    = (results,
       mkJob (withPaths it (ps ++ fetched E dst urls))
             (list_to_set (fetched E dst urls) ∪ fs) lg)
    ∧ forallb fulfilledTrue results = forallb (downloadOk E dst) urls.
Proof.
  unfold fetched.
  induction urls as [|url rest IH]; intros it ps fs lg Hps; simpl.
  - exists []. rewrite app_nil_r, withPaths_same by done.
    split; [|done]. do 2 f_equal. set_solver.
  - rewrite (settle_run url it ps fs lg Hps).
    destruct (downloadOk E dst url) eqn:Hok; simpl.
    + destruct (IH (withPaths it (ps ++ [localPath dst url]))
                   (ps ++ [localPath dst url])
                   ({[localPath dst url]} ∪ fs) lg eq_refl)
        as (results & Hrun & Hall).
      exists (fulfilled true :: results).
      rewrite complete_andThen, Hrun. simpl.
      split; [|done]. do 2 f_equal.
      * unfold withPaths. simpl. by rewrite <- app_assoc.
      * set_solver.
    + destruct (IH it ps fs lg Hps) as (results & Hrun & Hall).
      exists (rejected :: results).
      by rewrite complete_andThen, Hrun.
Qed.

Lemma arriveAfter_perm url earlier :
  arriveAfter E url earlier ≡ₚ url :: earlier.
Proof.
  induction earlier as [|v rest IH]; simpl; [done|].
  destruct (get_latency E url <=? get_latency E v)%nat; [done|].
  rewrite IH. apply Permutation_swap.
Qed.

Lemma arrivalOrder_perm urls : arrivalOrder E urls ≡ₚ urls.
Proof.
  induction urls as [|url rest IH]; simpl; [done|].
  by rewrite arriveAfter_perm, IH.
Qed.

Lemma forallb_perm {A} (f : A → bool) (l l' : list A) :
  l ≡ₚ l' → forallb f l = forallb f l'.
Proof.
  induction 1; simpl; try congruence.
  by destruct (f x), (f y).
Qed.

Lemma downloadEach_run urls it ps fs lg :
  imgPaths it = Some ps →
  ∃ results,
    complete (downloadEach E dst urls (mkJob it fs lg))
    = (results,
       mkJob (withPaths it (ps ++ fetched E dst (arrivalOrder E urls)))
             (list_to_set (fetched E dst (arrivalOrder E urls)) ∪ fs)
             (lg ++ map EvGet urls))
    ∧ forallb fulfilledTrue results = forallb (downloadOk E dst) urls.
Proof.
  intros Hps. unfold downloadEach. simpl. rewrite issueAll_run.
  destruct (settleAll_run (arrivalOrder E urls) it ps fs
              (lg ++ map EvGet urls) Hps) as (results & Hrun & Hall).
  exists results. split; [done|].
  rewrite Hall. apply forallb_perm, arrivalOrder_perm.
Qed.

End Prefetcher.

Arguments selectImageBySize : simpl never.
Arguments downloadEach : simpl never.
Arguments initImgPaths : simpl never.
Arguments setDownloaded : simpl never.

Section OneCall.

Context (C : Constants) (E : Env) (dst : string).
Context (it : Item) (fs : gset string) (lg : list Event).

Lemma downloadImage_skip :
  shortCircuits it = true →
  downloadImage C E dst (mkJob it fs lg) = Done true (mkJob it fs lg).
Proof.
  unfold shortCircuits, downloadImage. simpl. by intros ->.
Qed.

Lemma select_run :
  ∃ probed rest,
    imgUrls it = probed ++ rest
    ∧ complete (selectImageBySize E (imgUrls it) (MAX_IMAGE_SIZE C)
                  (maxNumImg C it) (mkJob it fs lg))
      = (selection C E it, mkJob it fs (lg ++ map EvHead probed)).
Proof.
  destruct (selectLoop_run E (MAX_IMAGE_SIZE C) (maxNumImg C it)
              (imgUrls it) [] it fs lg)
    as (probed & rest & Hsplit & Hrun & Htake & _).
  exists probed, rest. split; [done|].
  unfold selectImageBySize, selection. rewrite Hrun. simpl.
  rewrite Htake. simpl. by rewrite Nat.sub_0_r.
Qed.

Lemma downloadImage_none :
  shortCircuits it = false →
  selection C E it = [] →
  ∃ probed rest,
    imgUrls it = probed ++ rest
    ∧ complete (downloadImage C E dst (mkJob it fs lg))
      = (true, mkJob (withFlag it true) fs (lg ++ map EvHead probed)).
Proof.
  intros Hguard Hsel. destruct select_run as (probed & rest & Hsplit & Hrun).
  exists probed, rest. split; [done|].
  unfold downloadImage. simpl. unfold shortCircuits in Hguard.
  rewrite Hguard. simpl. rewrite complete_andThen, Hrun. simpl.
  rewrite Hsel. done.
Qed.

Lemma downloadImage_some :
  shortCircuits it = false →
  selection C E it ≠ [] →
  ∃ probed rest repaired,
    let todo := List.filter (missing dst (pathsOf it) fs) (selection C E it) in
    let got := fetched E dst (arrivalOrder E todo) in
    imgUrls it = probed ++ rest
    ∧ complete (downloadImage C E dst (mkJob it fs lg))
      = (forallb (downloadOk E dst) todo,
         mkJob (settled it (pathsOf it ++ repaired ++ got)
                        (forallb (downloadOk E dst) todo))
               (list_to_set got ∪ fs)
               (lg ++ map EvHead probed ++ map EvGet todo))
    ∧ Forall (λ p, p ∈ fs ∧ (p ∉ pathsOf it)
                   ∧ (∃ u, u ∈ selection C E it ∧ p = localPath dst u))
             repaired
    ∧ (∀ u, u ∈ selection C E it → localPath dst u ∈ fs →
         localPath dst u ∈ pathsOf it ++ repaired).
Proof.
  intros Hguard Hsel. destruct select_run as (probed & rest & Hsplit & Hrun).
  destruct (filterMissing_run dst (selection C E it) (started it)
              (pathsOf it) fs (lg ++ map EvHead probed)
              (imgPaths_started it)) as (repaired & Hfilter & Hrep & Hcov).
  set (todo := List.filter (missing dst (pathsOf it) fs) (selection C E it))
    in *.
  destruct (downloadEach_run E dst todo
              (withPaths (started it) (pathsOf it ++ repaired))
              (pathsOf it ++ repaired) fs (lg ++ map EvHead probed) eq_refl)
    as (results & Hdl & Hall).
  exists probed, rest, repaired. simpl. split; [done|]. split; [|done].
  unfold downloadImage. simpl. unfold shortCircuits in Hguard.
  rewrite Hguard. simpl. rewrite complete_andThen, Hrun. simpl.
  assert ((length (selection C E it) =? 0)%nat = false) as ->
    by (by destruct (selection C E it)).
  simpl.
  assert (initImgPaths (mkJob it fs (lg ++ map EvHead probed))
          = Done tt (mkJob (started it) fs (lg ++ map EvHead probed)))
    as Hinit.
  { unfold initImgPaths, started. simpl.
    destruct (imgPaths it); [|done]. simpl. by destruct it. }
  rewrite Hinit. simpl. rewrite Hfilter. simpl.
  rewrite complete_andThen, Hdl. simpl.
  rewrite Hall. unfold settled.
  rewrite <- !app_assoc.
  destruct (forallb (downloadOk E dst) todo); simpl; done.
Qed.

End OneCall.


(** ** The image pass *)

Lemma until_complete {A} (Q : A → Job → Prop) (r : Run A) :
  unresolvedUntil Q r → Q (complete r).1 (complete r).2.
Proof.
  induction r as [a j|j resume IH]; simpl; [done|].
  intros [_ Hres]. by apply IH, Hres.
Qed.

Lemma park_ok (r : Run bool) j0 :
  unresolvedUntil (λ b j', shortCircuits (item j') = b) r →
  guar grows j0 r →
  callOK (park r).1
  ∧ ∃ evs, (park r).2.2 = log j0 ++ evs ∧ Forall isHttp evs.
Proof.
  destruct r as [v j|j resume]; simpl.
  - intros Hv Hg. split; [done|]. apply Hg.
  - intros [Hj Hres] [Hg Hguar]. split; [|apply Hg].
    split; [done|]. split; [|done]. intros fs lg. by apply Hres.
Qed.

Section Pass.

Context (C : Constants) (E : Env) (dst : string).

Lemma startAll_ok its : ∀ fs lg,
  Forall callOK (startAll C E dst its fs lg).1
  ∧ ∃ evs, (startAll C E dst its fs lg).2.2 = lg ++ evs ∧ Forall isHttp evs.
Proof.
  induction its as [|it rest IH]; intros fs lg; simpl.
  { split; [done|]. exists []. by rewrite app_nil_r. }
  destruct (park_ok (downloadImage C E dst (mkJob it fs lg)) (mkJob it fs lg))
    as (Hc & evs & Hlog & Hhttp).
  { apply downloadImage_verdict. }
  { by apply mono_downloadImage. }
  destruct (park _) as [c [fs1 lg1]]. simpl in *.
  destruct (IH fs1 lg1) as (Hcs & evs' & Hlog' & Hhttp').
  destruct (startAll C E dst rest fs1 lg1) as [cs [fs2 lg2]]. simpl in *.
  split; [by constructor|]. exists (evs ++ evs').
  rewrite Hlog', Hlog, <- app_assoc. split; [done|]. by apply Forall_app.
Qed.

Lemma wake_ok i cs fs lg :
  Forall callOK cs →
  Forall callOK (wake i cs fs lg).1
  ∧ ∃ evs, (wake i cs fs lg).2.2 = lg ++ evs ∧ Forall isHttp evs.
Proof.
  intros Hcs. unfold wake.
  destruct (cs !! i) as [[v it|it resume]|] eqn:Hi; simpl;
    try (split; [done|]; exists []; by rewrite app_nil_r).
  pose proof (Forall_lookup_1 _ _ _ _ Hcs Hi) as (Hit & Hres & Hguar).
  destruct (park_ok (resume (mkJob it fs lg)) (mkJob it fs lg))
    as (Hc & evs & Hlog & Hhttp); [done..|].
  destruct (park _) as [c [fs1 lg1]]. simpl in *.
  split; [by apply Forall_insert|]. by exists evs.
Qed.

Lemma wakeEach_ok arrivals : ∀ cs fs lg,
  Forall callOK cs →
  Forall callOK (wakeEach arrivals cs fs lg).1
  ∧ ∃ evs, (wakeEach arrivals cs fs lg).2.2 = lg ++ evs ∧ Forall isHttp evs.
Proof.
  induction arrivals as [|i rest IH]; intros cs fs lg Hcs; simpl.
  { split; [done|]. exists []. by rewrite app_nil_r. }
  destruct (wake_ok i cs fs lg Hcs) as (Hcs1 & evs & Hlog & Hhttp).
  destruct (wake i cs fs lg) as [cs1 [fs1 lg1]]. simpl in *.
  destruct (IH cs1 fs1 lg1 Hcs1) as (Hcs2 & evs' & Hlog' & Hhttp').
  split; [done|]. exists (evs ++ evs').
  rewrite Hlog', Hlog, <- app_assoc. split; [done|]. by apply Forall_app.
Qed.

Lemma drain_ok cs : ∀ fs lg,
  Forall callOK cs →
  Forall callOK (drain cs fs lg).1
  ∧ is_Some (settledResults (drain cs fs lg).1)
  ∧ ∃ evs, (drain cs fs lg).2.2 = lg ++ evs ∧ Forall isHttp evs.
Proof.
  induction cs as [|c rest IH]; intros fs lg Hcs; simpl.
  { split; [done|]. split; [done|]. exists []. by rewrite app_nil_r. }
  apply Forall_cons in Hcs as [Hc Hrest].
  destruct c as [v it|it resume]; simpl in *.
  - destruct (IH fs lg Hrest) as (Hcs' & [rs Hrs] & Hlog).
    destruct (drain rest fs lg) as [cs' st]. simpl in *.
    split; [by constructor|]. split; [|done]. rewrite Hrs. by eexists.
  - destruct Hc as (Hit & Hres & Hguar).
    pose proof (until_complete _ _ (Hres fs lg)) as Hv.
    pose proof (guar_complete grows _ _ (Hguar (mkJob it fs lg)))
      as [_ _ _ _ _ (evs & Hlog & Hhttp)].
    destruct (complete (resume (mkJob it fs lg))) as [v j]. simpl in *.
    destruct (IH (disk j) (log j) Hrest)
      as (Hcs' & [rs Hrs] & evs' & Hlog' & Hhttp').
    destruct (drain rest (disk j) (log j)) as [cs' [fs' lg']]. simpl in *.
    split; [by constructor|]. split; [rewrite Hrs; by eexists|].
    exists (evs ++ evs'). rewrite Hlog', Hlog, <- app_assoc.
    split; [done|]. by apply Forall_app.
Qed.

(** The results say whether every item is resolved; while a call is
    suspended, some item is not. *)
Lemma settledResults_verdict cs :
  Forall callOK cs →
  match settledResults cs with
  | Some results =>
      forallb fulfilledTrue results = forallb shortCircuits (itemOf <$> cs)
  | None => forallb shortCircuits (itemOf <$> cs) = false
  end.
Proof.
  induction 1 as [|c rest Hc _ IH]; [done|].
  rewrite fmap_cons. destruct c as [v it|it resume]; simpl in *.
  - destruct (settledResults rest) as [rs|]; simpl.
    + rewrite Hc, <- IH. by destruct v.
    + rewrite IH. apply andb_false_r.
  - by destruct Hc as [-> _].
Qed.

(** The pass settles with every result [true] exactly when it leaves every
    item resolved, a pass the timer wins leaves some item unresolved, and
    the log grows by HTTP requests only: whatever the arrivals. *)
Lemma downloadItems_verdict its fs lg arrivals timerFires :
  ∃ r its' fs' evs,
    downloadItems C E dst its fs lg arrivals timerFires
    = (r, (its', fs', lg ++ evs))
    ∧ Forall isHttp evs
    ∧ match r with
      | Some results =>
          forallb fulfilledTrue results = forallb shortCircuits its'
      | None => forallb shortCircuits its' = false
      end.
Proof.
  unfold downloadItems.
  destruct (startAll_ok its fs lg) as (Hcs0 & evs0 & Hlog0 & Hhttp0).
  destruct (startAll C E dst its fs lg) as [cs0 [fs0 lg0]]. simpl in *.
  destruct (wakeEach_ok arrivals cs0 fs0 lg0 Hcs0)
    as (Hcs1 & evs1 & Hlog1 & Hhttp1).
  destruct (wakeEach arrivals cs0 fs0 lg0) as [cs1 [fs1 lg1]]. simpl in *.
  pose proof (settledResults_verdict cs1 Hcs1) as Hv1.
  assert (lg1 = lg ++ (evs0 ++ evs1)) as Hlg1
    by by rewrite Hlog1, Hlog0, <- app_assoc.
  destruct (settledResults cs1) as [rs|].
  { exists (Some rs), (itemOf <$> cs1), fs1, (evs0 ++ evs1).
    rewrite Hlg1. split; [done|]. split; [by apply Forall_app|done]. }
  destruct timerFires.
  { exists None, (itemOf <$> cs1), fs1, (evs0 ++ evs1).
    rewrite Hlg1. split; [done|]. split; [by apply Forall_app|done]. }
  destruct (drain_ok cs1 fs1 lg1 Hcs1) as (Hcs2 & _ & evs2 & Hlog2 & Hhttp2).
  pose proof (settledResults_verdict (drain cs1 fs1 lg1).1 Hcs2) as Hv2.
  destruct (drain cs1 fs1 lg1) as [cs2 [fs2 lg2]]. simpl in *.
  exists (settledResults cs2), (itemOf <$> cs2), fs2, ((evs0 ++ evs1) ++ evs2).
  rewrite Hlog2, Hlg1, <- !app_assoc. split; [done|].
  split; [|done]. rewrite !Forall_app. done.
Qed.

(** [tryDownloadAllImageWithTimeout] answers [true] exactly when it was
    not stopped by the directory preparation and leaves every item
    resolved. *)
Lemma tryDownloadAll_verdict its maxTime partialDownloaded fs lg :
  ∃ its' fs' evs,
    tryDownloadAllImageWithTimeout C E dst its maxTime partialDownloaded fs lg
    = ((partialDownloaded || (prepareForImageDownload C E dst fs).1)
       && forallb shortCircuits its', (its', fs', lg ++ evs))
    ∧ Forall isHttp evs.
Proof.
  unfold tryDownloadAllImageWithTimeout, doWithTimeout.
  destruct partialDownloaded; simpl.
  - destruct (downloadItems_verdict its fs lg (image_arrivals E maxTime)
                (image_timer E maxTime))
      as (r & its' & fs' & evs & Hrun & Hhttp & Hr).
    rewrite Hrun. exists its', fs', evs. split; [|done].
    destruct r as [results|]; by rewrite Hr.
  - destruct (prepareForImageDownload C E dst fs) as [[] fs1]; simpl.
    + destruct (downloadItems_verdict its fs1 lg (image_arrivals E maxTime)
                  (image_timer E maxTime))
        as (r & its' & fs' & evs & Hrun & Hhttp & Hr).
      rewrite Hrun. exists its', fs', evs. split; [|done].
      destruct r as [results|]; by rewrite Hr.
    + exists its, fs1, []. by rewrite app_nil_r.
Qed.

End Pass.

(** ** The orchestrator *)

Lemma issued_app w fs st evs :
  issued w (mkWorld fs st (history w ++ evs)) = evs.
Proof. unfold issued. simpl. apply drop_app_length. Qed.

Lemma issued_same w : issued w w = [].
Proof. unfold issued. apply drop_all. Qed.

Section Orchestrator.

Context (C : Constants) (E : Env).

Lemma isCacheValid_usable cached now :
  isCacheValid C E cached now = true ↔
  ∃ its d, usable cached its d
    ∧ now - d < default (DEFAULT_REFRESH_CIRCLE C) (prefs_refresh_circle E)
                * 60000.
Proof.
  unfold isCacheValid, usable. split.
  - destruct cached as [[[its|] [d|] flag]|]; simpl; try done.
    intros H%Z.ltb_lt. exists its, d. split; [|done]. by eexists.
  - intros (its & d & (c & -> & Hi & Hd) & Hlt). rewrite Hi, Hd.
    by apply Z.ltb_lt.
Qed.

(** The pass and the store write that follows it: one record is written,
    under the name, after HTTP requests only; its flag is [true] exactly
    when the preparation did not stop the pass and every item is left
    resolved. *)
Lemma passAndStore_run tiebaName its d partialDownloaded w :
  ∃ its' fs' evs,
    let r := mkCache (Some its') (Some d)
               ((partialDownloaded
                 || (prepareForImageDownload C E (imageDir C tiebaName)
                       (files w)).1)
                && forallb shortCircuits its') in
    passAndStore C E tiebaName (imageDir C tiebaName) its d
                 partialDownloaded w
    = (mkEntry (Some its') (Some d),
       mkWorld fs' (<[tiebaName := r]> (store w))
               (history w ++ evs ++ [EvCacheSet tiebaName r]))
    ∧ Forall isHttp evs.
Proof.
  unfold passAndStore.
  destruct (tryDownloadAll_verdict C E (imageDir C tiebaName) its
              (IMAGE_TIMEOUT C) partialDownloaded (files w) (history w))
    as (its' & fs' & evs & Hrun & Hhttp).
  rewrite Hrun. exists its', fs', evs. simpl. split; [|done].
  unfold cacheSet. simpl. by rewrite <- app_assoc.
Qed.

Lemma getEntry_course tiebaName forceLoad w :
  tiebaName ≠ EmptyString →
  Course C E tiebaName forceLoad w (getEntry C E tiebaName forceLoad w).
Proof.
  intros Hname. unfold getEntry. rewrite bool_decide_eq_false_2 by done.
  fold (imageDir C tiebaName).
  destruct (negb forceLoad
            && isCacheValid C E (store w !! tiebaName) (clock_check E))
    eqn:Hfresh.
  - apply andb_true_iff in Hfresh as [Hforce%negb_true_iff Hvalid].
    pose proof Hvalid as Hv. unfold isCacheValid in Hv.
    destruct (store w !! tiebaName) as [[[its|] [d|] flag]|] eqn:Hc;
      try done.
    rewrite <- Hc in Hvalid.
    pose proof (Reused C E tiebaName forceLoad w its d flag Hforce Hvalid Hc)
      as HR.
    by destruct flag.
  - assert (forceLoad = true
            ∨ isCacheValid C E (store w !! tiebaName) (clock_check E) = false)
      as Hwhy.
    { apply andb_false_iff in Hfresh as [H%negb_false_iff|H]; auto. }
    destruct (tryGetTiebaPostWithTimeout E tiebaName _ _) as [its|] eqn:Hget.
    + by apply Fetched.
    + destruct (store w !! tiebaName) as [[[its|] [d|] flag]|] eqn:Hc;
        (apply FellBack;
         [by rewrite Hc | done
         | intros its' d' (c & Hc' & Hi & Hd); rewrite Hc in Hc';
           by simplify_eq/=
         | intros Hno; try done; exfalso; apply Hno;
           eexists _, _, _; by rewrite Hc ]).
Qed.

(** For a non-empty name the remote client is called exactly when a reload
    is forced or the freshness test fails. *)
Lemma fetch_issued_iff tiebaName forceLoad w :
  tiebaName ≠ EmptyString →
  (EvFetch tiebaName ∈ issued w (getEntry C E tiebaName forceLoad w).2
   ↔ forceLoad = true
     ∨ isCacheValid C E (store w !! tiebaName) (clock_check E) = false).
Proof.
  intros Hname.
  destruct (getEntry_course tiebaName forceLoad w Hname)
    as [its d flag Hforce Hvalid Hc|its Hwhy Hget|e Hwhy Hget _ _].
  + assert (EvFetch tiebaName ∉ issued w
              (if flag then (mkEntry (Some its) (Some d), w)
               else passAndStore C E tiebaName (imageDir C tiebaName)
                      its d true w).2) as Hnot.
    { destruct flag; simpl.
      - rewrite issued_same. apply not_elem_of_nil.
      - destruct (passAndStore_run tiebaName its d true w)
          as (its' & fs' & evs & Hrun & Hhttp).
        simpl in Hrun. rewrite Hrun. simpl. rewrite issued_app.
        rewrite elem_of_app, list_elem_of_singleton.
        intros [Hin|?]; [|done].
        by apply (proj1 (Forall_forall _ _) Hhttp) in Hin. }
    split; [done|]. intros [?|?]; congruence.
  + split; [done|]. intros _.
    destruct (passAndStore_run tiebaName its (clock_fetched E) false
                (mkWorld (files w) (store w)
                         (history w ++ [EvFetch tiebaName])))
      as (its' & fs' & evs & Hrun & Hhttp).
    simpl in Hrun. rewrite Hrun. simpl.
    rewrite <- app_assoc, issued_app. set_solver.
  + split; [done|]. intros _. simpl. rewrite issued_app. set_solver.
Qed.

End Orchestrator.

(** ** Properties of the orchestrator *)

(** C1, as the specification states it, fails twice: a record whose item
    list is empty passes the freshness test, and for the empty name no
    fetch is made even when a reload is forced. *)
Lemma freshness_counterexample :
  ¬ (isCacheValid demoConstants (demoEnv (λ _, 1) (λ _, 200) Threw 1000)
       (Some (mkCache (Some []) (Some 0) true)) 1000 = true
     ↔ freshBySpec 30 (Some (mkCache (Some []) (Some 0) true)) 1000)
  ∧ ¬ (EvFetch "" ∈ issued emptyWorld
         (getEntry demoConstants (demoEnv (λ _, 1) (λ _, 200) Threw 1000)
            "" true emptyWorld).2
       ↔ true = true
         ∨ isCacheValid demoConstants
             (demoEnv (λ _, 1) (λ _, 200) Threw 1000)
             (store emptyWorld !! "") 1000 = false).
Proof.
  split.
  - intros [H _]. destruct (H eq_refl) as (c & its & d & Hc & Hi & Hne & _).
    simplify_eq/=.
  - intros [_ H]. specialize (H (or_introl eq_refl)).
    by apply elem_of_nil in H.
Qed.

(** C1 (amended): the freshness test holds iff a record exists, has an
    item list (empty or not) and a capture time, and less than the refresh
    interval (the preference, else the default, in minutes) has passed
    since; and for a non-empty name [getEntry] calls the remote client
    exactly when the test fails or a reload is forced. *)
Theorem freshness_decides_fetch (C : Constants) (E : Env) :
  (∀ cache now,
     isCacheValid C E cache now = true ↔
     ∃ c its d, cache = Some c ∧ items c = Some its ∧ date c = Some d
       ∧ now - d
         < default (DEFAULT_REFRESH_CIRCLE C) (prefs_refresh_circle E)
           * 60000)
  ∧ (∀ tiebaName forceLoad w,
       tiebaName ≠ EmptyString →
       (EvFetch tiebaName
          ∈ issued w (getEntry C E tiebaName forceLoad w).2
        ↔ forceLoad = true
          ∨ isCacheValid C E (store w !! tiebaName) (clock_check E)
            = false)).
Proof.
  split.
  - intros cache now. rewrite isCacheValid_usable. unfold usable.
    naive_solver.
  - intros tiebaName forceLoad w Hname. by apply fetch_issued_iff.
Qed.

(** The freshness scenario of the specification: with a refresh interval of
    30 minutes, a record captured 10 minutes ago is reused without a remote
    call, and one captured 40 minutes ago leads to a remote call. *)
Lemma freshness_decides_fetch_witness :
  (EvFetch "lol"
     ∈ issued (worldWith (mkCache (Some [donePost]) (Some 0) true))
         (getEntry demoConstants
            (demoEnv (λ _, 1) (λ _, 200) Threw 600000) "lol" false
            (worldWith (mkCache (Some [donePost]) (Some 0) true))).2
   ↔ false = true
     ∨ isCacheValid demoConstants
         (demoEnv (λ _, 1) (λ _, 200) Threw 600000)
         (store (worldWith (mkCache (Some [donePost]) (Some 0) true))
          !! "lol") 600000 = false)
  ∧ (EvFetch "lol"
     ∈ issued (worldWith (mkCache (Some [donePost]) (Some 0) true))
         (getEntry demoConstants
            (demoEnv (λ _, 1) (λ _, 200) Threw 2400000) "lol" false
            (worldWith (mkCache (Some [donePost]) (Some 0) true))).2
   ↔ false = true
     ∨ isCacheValid demoConstants
         (demoEnv (λ _, 1) (λ _, 200) Threw 2400000)
         (store (worldWith (mkCache (Some [donePost]) (Some 0) true))
          !! "lol") 2400000 = false).
Proof.
  split.
  - apply (proj2 (freshness_decides_fetch demoConstants
                    (demoEnv (λ _, 1) (λ _, 200) Threw 600000))). done.
  - apply (proj2 (freshness_decides_fetch demoConstants
                    (demoEnv (λ _, 1) (λ _, 200) Threw 2400000))). done.
Defined.

(** The same scenario evaluated: ten minutes after the capture nothing is
    fetched or written; forty minutes after it the remote client is
    called, and as it fails the stale record is served. *)
Example freshness_scenario :
  getEntry demoConstants (demoEnv (λ _, 1) (λ _, 200) Threw 600000) "lol"
    false (worldWith (mkCache (Some [donePost]) (Some 0) true))
  = (mkEntry (Some [donePost]) (Some 0),
     worldWith (mkCache (Some [donePost]) (Some 0) true))
  ∧ getEntry demoConstants (demoEnv (λ _, 1) (λ _, 200) Threw 2400000) "lol"
      false (worldWith (mkCache (Some [donePost]) (Some 0) true))
    = (mkEntry (Some [donePost]) (Some 0),
       mkWorld ∅ {[ "lol" := mkCache (Some [donePost]) (Some 0) true ]}
               [EvFetch "lol"]).
Proof. split; vm_compute; reflexivity. Qed.

(** C3: when the remote fetch of an invocation fails or times out, the
    invocation leaves files and cache store as they were and writes
    nothing (its only event is the fetch), so no entry is deleted or
    overwritten; and if the store holds a record with items and a capture
    time under the name, fresh or stale, exactly these are returned. *)
Theorem failed_fetch_falls_back (C : Constants) (E : Env)
    (tiebaName : string) (forceLoad : bool) (w : World) :
  EvFetch tiebaName ∈ issued w (getEntry C E tiebaName forceLoad w).2 →
  tryGetTiebaPostWithTimeout E tiebaName (POST_INFO_TIMEOUT C)
    (MAX_NUMBER_OF_POST C) = None →
  (getEntry C E tiebaName forceLoad w).2
  = mkWorld (files w) (store w) (history w ++ [EvFetch tiebaName])
  ∧ (∀ c its d,
       store w !! tiebaName = Some c → items c = Some its →
       date c = Some d →
       (getEntry C E tiebaName forceLoad w).1 = mkEntry (Some its) (Some d)).
Proof.
  intros Hfetch Hfail.
  destruct (decide (tiebaName = EmptyString)) as [->|Hname].
  { unfold getEntry in Hfetch. simpl in Hfetch.
    rewrite issued_same in Hfetch. by apply elem_of_nil in Hfetch. }
  pose proof (fetch_issued_iff C E tiebaName forceLoad w Hname) as Hiff.
  destruct (getEntry_course C E tiebaName forceLoad w Hname)
    as [its d flag Hforce Hvalid Hc|its Hwhy Hget|e Hwhy Hget Huse _].
  - apply Hiff in Hfetch as [?|?]; congruence.
  - congruence.
  - split; [done|]. intros c its d Hc Hi Hd. simpl.
    apply Huse. by exists c.
Qed.

(** A forced reload that times out while a record captured at time 5 is
    stored: the record's items and time come back and nothing is written. *)
Lemma failed_fetch_falls_back_witness :
  (getEntry demoConstants (demoEnv (λ _, 1) (λ _, 200) TimerFirst 9000000)
     "lol" true (worldWith (mkCache (Some [textPost]) (Some 5) false))).2
  = mkWorld ∅ {[ "lol" := mkCache (Some [textPost]) (Some 5) false ]}
            [EvFetch "lol"]
  ∧ (∀ c its d,
       store (worldWith (mkCache (Some [textPost]) (Some 5) false)) !! "lol"
       = Some c →
       items c = Some its → date c = Some d →
       (getEntry demoConstants
          (demoEnv (λ _, 1) (λ _, 200) TimerFirst 9000000) "lol" true
          (worldWith (mkCache (Some [textPost]) (Some 5) false))).1
       = mkEntry (Some its) (Some d)).
Proof.
  apply (failed_fetch_falls_back demoConstants
           (demoEnv (λ _, 1) (λ _, 200) TimerFirst 9000000) "lol" true
           (worldWith (mkCache (Some [textPost]) (Some 5) false))).
  - vm_compute. apply list_elem_of_here.
  - reflexivity.
Defined.

(** C6, as the specification states it, fails for the empty name: [info]
    is [null] although no remote fetch was made, let alone failed. It also
    fails when the fetch fails and the stored record lacks its capture
    time: [info] is [null] although a record exists. *)
Lemma null_info_counterexample :
  ¬ (info (getEntry demoConstants
             (demoEnv (λ _, 1) (λ _, 200) (Resolved (Some [textPost])) 1000)
             "" false emptyWorld).1 = None →
     store emptyWorld !! "" = None
     ∧ EvFetch ""
         ∈ issued emptyWorld
             (getEntry demoConstants
                (demoEnv (λ _, 1) (λ _, 200) (Resolved (Some [textPost]))
                   1000)
                "" false emptyWorld).2
     ∧ tryGetTiebaPostWithTimeout
         (demoEnv (λ _, 1) (λ _, 200) (Resolved (Some [textPost])) 1000)
         "" 8000 10 = None)
  ∧ ¬ (info (getEntry demoConstants
               (demoEnv (λ _, 1) (λ _, 200) Threw 1000) "lol" false
               (worldWith (mkCache (Some [textPost]) None false))).1 = None →
       store (worldWith (mkCache (Some [textPost]) None false)) !! "lol"
       = None
       ∧ EvFetch "lol"
           ∈ issued (worldWith (mkCache (Some [textPost]) None false))
               (getEntry demoConstants
                  (demoEnv (λ _, 1) (λ _, 200) Threw 1000) "lol" false
                  (worldWith (mkCache (Some [textPost]) None false))).2
       ∧ tryGetTiebaPostWithTimeout
           (demoEnv (λ _, 1) (λ _, 200) Threw 1000) "lol" 8000 10 = None).
Proof.
  split.
  - intros H. destruct (H eq_refl) as (_ & _ & ?). discriminate.
  - intros H. destruct (H eq_refl) as (Hstore & _).
    vm_compute in Hstore. discriminate.
Qed.

(** C6 (amended): for a non-empty name the returned [info] is [null]
    exactly when the remote fetch was made and failed or timed out and the
    store holds no record with items and a capture time under the name; in
    particular, with no record at all and a failing remote client both
    [info] and the date are [null]. For the empty name both are [null] and
    nothing is done. *)
Theorem null_info_only_without_fallback (C : Constants) (E : Env)
    (forceLoad : bool) (w : World) :
  (∀ tiebaName,
     tiebaName ≠ EmptyString →
     (info (getEntry C E tiebaName forceLoad w).1 = None ↔
      EvFetch tiebaName ∈ issued w (getEntry C E tiebaName forceLoad w).2
      ∧ tryGetTiebaPostWithTimeout E tiebaName (POST_INFO_TIMEOUT C)
          (MAX_NUMBER_OF_POST C) = None
      ∧ ¬ ∃ its d, usable (store w !! tiebaName) its d)
     ∧ (store w !! tiebaName = None →
        tryGetTiebaPostWithTimeout E tiebaName (POST_INFO_TIMEOUT C)
          (MAX_NUMBER_OF_POST C) = None →
        (getEntry C E tiebaName forceLoad w).1 = mkEntry None None))
  ∧ getEntry C E EmptyString forceLoad w = (mkEntry None None, w).
Proof.
  split; [|done]. intros tiebaName Hname.
  pose proof (fetch_issued_iff C E tiebaName forceLoad w Hname) as Hiff.
  destruct (getEntry_course C E tiebaName forceLoad w Hname)
    as [its d flag Hforce Hvalid Hc|its Hwhy Hget|e Hwhy Hget Huse Hnone].
  - split.
    + split.
      * destruct flag; simpl; [done|].
        destruct (passAndStore_run C E tiebaName its d true w)
          as (its' & fs' & evs & Hrun & _).
        simpl in Hrun. by rewrite Hrun.
      * intros (Hfetch & _). apply Hiff in Hfetch as [?|?]; congruence.
    + intros Hc'. congruence.
  - split.
    + split; [|intros (_ & ? & _); congruence].
      destruct (passAndStore_run C E tiebaName its (clock_fetched E) false
                  (mkWorld (files w) (store w)
                           (history w ++ [EvFetch tiebaName])))
        as (its' & fs' & evs & Hrun & _).
      simpl in Hrun. by rewrite Hrun.
    + congruence.
  - simpl. split.
    + split.
      * intros Hinfo. split; [|split; [done|]].
        -- rewrite issued_app. apply list_elem_of_here.
        -- intros (its & d & Hu). by rewrite (Huse its d Hu) in Hinfo.
      * intros (_ & _ & Hno). by rewrite (Hnone Hno).
    + intros Hc _. apply Hnone. intros (its & d & c & Hc' & _). congruence.
Qed.

(** No record and a remote client that throws: [info] and date are [null]. *)
Lemma null_info_only_without_fallback_witness :
  (getEntry demoConstants (demoEnv (λ _, 1) (λ _, 200) Threw 1000)
     "lol" false emptyWorld).1 = mkEntry None None.
Proof.
  apply (proj1 (null_info_only_without_fallback demoConstants
                  (demoEnv (λ _, 1) (λ _, 200) Threw 1000) false emptyWorld)
           "lol"); done.
Defined.

Lemma shortCircuits_resolved it :
  shortCircuits it = true ↔ imgDownloaded it = Some true ∨ imgUrls it = [].
Proof.
  unfold shortCircuits. rewrite orb_true_iff, Nat.eqb_eq, length_zero_iff_nil.
  unfold truthy. destruct (imgDownloaded it) as [[]|]; naive_solver.
Qed.

Lemma forallb_resolved its :
  forallb shortCircuits its = true ↔
  Forall (λ it, imgDownloaded it = Some true ∨ imgUrls it = []) its.
Proof.
  rewrite forallb_forall, Forall_forall.
  split; intros H it Hin; apply shortCircuits_resolved, H;
    by apply list_elem_of_In.
Qed.

(** C2, as the specification states it, fails for a post without images:
    [downloadImage] reports success for it without touching its flag, so
    the record stored after a first fetch has [imgAllDownloaded] set while
    the post's [imgDownloaded] is still missing. It also fails when the
    image folder cannot be created: the pass is refused and the flag is
    [false], here for a fetch that brought no post at all. *)
Lemma stored_flag_counterexample :
  ¬ (∀ r its,
       store (getEntry demoConstants
                (demoEnv (λ _, 1) (λ _, 200) (Resolved (Some [textPost]))
                   1000)
                "lol" false emptyWorld).2 !! "lol" = Some r →
       items r = Some its →
       (imgAllDownloaded r = true
        ↔ Forall (λ it, imgDownloaded it = Some true) its))
  ∧ ¬ (∀ r its,
         store (getEntry demoConstants
                  (noMkdir (demoEnv (λ _, 1) (λ _, 200) (Resolved (Some []))
                              1000))
                  "lol" false emptyWorld).2 !! "lol" = Some r →
         items r = Some its →
         (imgAllDownloaded r = true
          ↔ Forall (λ it, imgDownloaded it = Some true) its)).
Proof.
  split; intros H.
  - specialize (H (mkCache (Some [textPost]) (Some 1000) true) [textPost]
                  eq_refl eq_refl).
    apply proj1 in H. specialize (H eq_refl).
    apply Forall_cons in H as [H _]. discriminate.
  - specialize (H (mkCache (Some []) (Some 1000) false) [] eq_refl eq_refl).
    apply proj2 in H. specialize (H (Forall_nil_2 _)). discriminate.
Qed.

(** C2 (amended): every record an invocation of [getEntry] stores is
    stored under the name, holds the items and capture time the invocation
    returns, and has [imgAllDownloaded] set iff every stored item has
    [imgDownloaded] set or has no locators and, when the items were just
    fetched, the preparation of the image folder succeeded. *)
Theorem stored_flag_summarises_items (C : Constants) (E : Env)
    (tiebaName : string) (forceLoad : bool) (w : World)
    (key : string) (r : CacheRecord) :
  EvCacheSet key r ∈ issued w (getEntry C E tiebaName forceLoad w).2 →
  key = tiebaName
  ∧ store (getEntry C E tiebaName forceLoad w).2 !! tiebaName = Some r
  ∧ ∃ its d,
      items r = Some its ∧ date r = Some d
      ∧ (getEntry C E tiebaName forceLoad w).1 = mkEntry (Some its) (Some d)
      ∧ (imgAllDownloaded r = true ↔
         Forall (λ it, imgDownloaded it = Some true ∨ imgUrls it = []) its
         ∧ (EvFetch tiebaName
              ∈ issued w (getEntry C E tiebaName forceLoad w).2 →
            (prepareForImageDownload C E (imageDir C tiebaName)
               (files w)).1 = true)).
Proof.
  intros Hset.
  destruct (decide (tiebaName = EmptyString)) as [->|Hname].
  { unfold getEntry in Hset. simpl in Hset.
    rewrite issued_same in Hset. by apply elem_of_nil in Hset. }
  pose proof (fetch_issued_iff C E tiebaName forceLoad w Hname) as Hiff.
  destruct (getEntry_course C E tiebaName forceLoad w Hname)
    as [its d flag Hforce Hvalid Hc|its Hwhy Hget|e Hwhy Hget _ _].
  - assert (¬ EvFetch tiebaName
              ∈ issued w
                  (if flag then (mkEntry (Some its) (Some d), w)
                   else passAndStore C E tiebaName (imageDir C tiebaName)
                          its d true w).2) as Hnofetch.
    { intros [?|?]%Hiff; congruence. }
    destruct flag; simpl in *.
    { rewrite issued_same in Hset. by apply elem_of_nil in Hset. }
    destruct (passAndStore_run C E tiebaName its d true w)
      as (its' & fs' & evs & Hrun & Hhttp).
    simpl in Hrun. rewrite Hrun in *. simpl in *.
    rewrite issued_app in Hset.
    apply elem_of_app in Hset as [Hin|Hin%list_elem_of_singleton].
    { by apply (proj1 (Forall_forall _ _) Hhttp) in Hin. }
    injection Hin as -> ->. split; [done|].
    split; [by rewrite lookup_insert_eq|].
    exists its', d. simpl. do 3 (split; [done|]).
    rewrite forallb_resolved. tauto.
  - destruct (passAndStore_run C E tiebaName its (clock_fetched E) false
                (mkWorld (files w) (store w)
                         (history w ++ [EvFetch tiebaName])))
      as (its' & fs' & evs & Hrun & Hhttp).
    simpl in Hrun. rewrite Hrun in *. simpl in *.
    rewrite <- app_assoc, issued_app in *.
    apply elem_of_app in Hset as [Hin|Hin]; [set_solver|].
    apply elem_of_app in Hin as [Hin|Hin%list_elem_of_singleton].
    { by apply (proj1 (Forall_forall _ _) Hhttp) in Hin. }
    injection Hin as -> ->. split; [done|].
    split; [by rewrite lookup_insert_eq|].
    exists its', (clock_fetched E). simpl. do 3 (split; [done|]).
    rewrite andb_true_iff, forallb_resolved.
    split; [tauto|]. intros [? Hprep]. split; [|done].
    apply Hprep. apply list_elem_of_here.
  - simpl in Hset. rewrite issued_app in Hset. set_solver.
Qed.

(** A first fetch of one post without images: the stored flag is set. *)
Lemma stored_flag_summarises_items_witness :
  "lol" = "lol"
  ∧ store (getEntry demoConstants
             (demoEnv (λ _, 1) (λ _, 200) (Resolved (Some [textPost])) 1000)
             "lol" false emptyWorld).2 !! "lol"
    = Some (mkCache (Some [textPost]) (Some 1000) true)
  ∧ ∃ its d,
      items (mkCache (Some [textPost]) (Some 1000) true) = Some its
      ∧ date (mkCache (Some [textPost]) (Some 1000) true) = Some d
      ∧ (getEntry demoConstants
           (demoEnv (λ _, 1) (λ _, 200) (Resolved (Some [textPost])) 1000)
           "lol" false emptyWorld).1 = mkEntry (Some its) (Some d)
      ∧ (imgAllDownloaded (mkCache (Some [textPost]) (Some 1000) true) = true
         ↔ Forall (λ it, imgDownloaded it = Some true ∨ imgUrls it = []) its
           ∧ (EvFetch "lol"
                ∈ issued emptyWorld
                    (getEntry demoConstants
                       (demoEnv (λ _, 1) (λ _, 200)
                          (Resolved (Some [textPost])) 1000)
                       "lol" false emptyWorld).2 →
              (prepareForImageDownload demoConstants
                 (demoEnv (λ _, 1) (λ _, 200) (Resolved (Some [textPost]))
                    1000)
                 (imageDir demoConstants "lol") (files emptyWorld)).1
              = true)).
Proof.
  apply (stored_flag_summarises_items demoConstants
           (demoEnv (λ _, 1) (λ _, 200) (Resolved (Some [textPost])) 1000)
           "lol" false emptyWorld "lol"
           (mkCache (Some [textPost]) (Some 1000) true)).
  vm_compute. apply list_elem_of_further, list_elem_of_here.
Defined.


(** Two calls interleaved and cut: the probe of the second post is
    answered first, then that of the first, then the download of the
    second; the timer fires while the first post still waits for its
    image. The record is stored with the flag off, the second post
    resolved and the first one not. *)
Example interleaved_pass_scenario :
  let E := hurried [1; 0; 1]%nat
             (demoEnv (λ _, 1) (λ _, 200)
                      (Resolved (Some [oneImage; otherImage])) 5) in
  let w := (getEntry demoConstants E "lol" false emptyWorld).2 in
  store w !! "lol"
  = Some (mkCache
            (Some [mkItem None ["http://h/a.jpg"] (Some false) (Some []);
                   mkItem None ["http://h/b.jpg"] (Some true)
                          (Some ["img/lol/b.jpg"])])
            (Some 5) false)
  ∧ issued emptyWorld w
    = [EvFetch "lol"; EvHead "http://h/a.jpg"; EvHead "http://h/b.jpg";
       EvGet "http://h/b.jpg"; EvGet "http://h/a.jpg";
       EvCacheSet "lol"
         (mkCache
            (Some [mkItem None ["http://h/a.jpg"] (Some false) (Some []);
                   mkItem None ["http://h/b.jpg"] (Some true)
                          (Some ["img/lol/b.jpg"])])
            (Some 5) false)].
Proof. split; vm_compute; reflexivity. Qed.

(** ** Properties of the selector and the prefetcher *)

(** C7, as the specification states it, fails for a probe that reports a
    length of zero: the length is known and within any budget, yet the
    locator is skipped. *)
Lemma selector_counterexample :
  (complete (selectImageBySize (demoEnv (λ _, 0) (λ _, 200) Threw 0)
               ["http://h/a.jpg"] 1000 1 (mkJob textPost ∅ []))).1
  ≠ take 1 (List.filter
              (λ url, knownWithin 1000
                        (http_head (demoEnv (λ _, 0) (λ _, 200) Threw 0)
                                   url))
              ["http://h/a.jpg"]).
Proof. vm_compute. discriminate. Qed.

(** C7 (amended): [selectImageBySize], once all the responses it awaits
    have arrived, has probed a prefix of the locators, in order, and
    returns the accepted ones among them, which are the first [maxNumImg]
    accepted locators of the whole list, in their original order. A
    locator is accepted iff its probe has no error and reports a length
    that is present, not zero and at most [maxSize]; any other probe just
    skips the locator. A locator is probed only while fewer than
    [maxNumImg] are selected, so none is probed once the budget is reached;
    the result is shorter than the budget when the list runs out first.
    Item and files are left alone. *)
Theorem selector_takes_first_fitting (E : Env) (imgUrls : list string)
    (maxSize maxNumImg : Z) (it : Item) (fs : gset string)
    (lg : list Event) :
  ∃ probed rest,
    imgUrls = probed ++ rest
    ∧ complete (selectImageBySize E imgUrls maxSize maxNumImg
                  (mkJob it fs lg))
      = (take (Z.to_nat maxNumImg) (List.filter (accepted E maxSize) imgUrls),
         mkJob it fs (lg ++ map EvHead probed))
    ∧ List.filter (accepted E maxSize) probed
      = take (Z.to_nat maxNumImg) (List.filter (accepted E maxSize) imgUrls)
    ∧ (rest = []
       ∨ maxNumImg
         ≤ Z.of_nat (length (List.filter (accepted E maxSize) probed)))
    ∧ (∀ pre url post, probed = pre ++ url :: post →
         Z.of_nat (length (List.filter (accepted E maxSize) pre)) < maxNumImg)
    ∧ (∀ url,
         accepted E maxSize url = true ↔
         headError (http_head E url) = false
         ∧ ∃ len, expectedContentLength (http_head E url) = Some len
             ∧ len ≠ 0 ∧ len ≤ maxSize).
Proof.
  destruct (selectLoop_run E maxSize maxNumImg imgUrls [] it fs lg)
    as (probed & rest & Hsplit & Hrun & Htake & Hstop & Hroom).
  simpl in *. rewrite Nat.sub_0_r in Htake.
  exists probed, rest. split; [done|]. split; [|split; [done|]].
  { unfold selectImageBySize. by rewrite Hrun, Htake. }
  split; [done|]. split; [done|].
  intros url. unfold accepted, fitsBudget, nonZero.
  destruct (headError (http_head E url)); simpl; [naive_solver|].
  destruct (expectedContentLength (http_head E url)) as [len|]; simpl;
    [|naive_solver].
  rewrite andb_true_iff, negb_true_iff, Z.eqb_neq, Z.leb_le.
  naive_solver.
Qed.

(** The size scenario of the specification: of [A] (2 MB) and [B] (500 KB)
    under a budget of 1 MB, only [B] is selected. *)
Example selector_size_scenario :
  complete (selectImageBySize
              (demoEnv (λ url, if String.eqb url "A" then 2000000 else 500000)
                       (λ _, 200) Threw 0)
              ["A"; "B"] 1000000 3 (mkJob textPost ∅ []))
  = (["B"], mkJob textPost ∅ [EvHead "A"; EvHead "B"]).
Proof. reflexivity. Qed.

(** The same with [B] first: the order of the candidates does not matter
    to what is selected, and with a budget of one [A] is not even probed. *)
Example selector_stops_early :
  complete (selectImageBySize
              (demoEnv (λ url, if String.eqb url "A" then 2000000 else 500000)
                       (λ _, 200) Threw 0)
              ["B"; "A"] 1000000 1 (mkJob textPost ∅ []))
  = (["B"], mkJob textPost ∅ [EvHead "B"]).
Proof. reflexivity. Qed.

(** The selector on [A] (2 MB) and [B] (500 KB) with room for three. *)
Lemma selector_takes_first_fitting_witness :
  ∃ probed rest,
    ["A"; "B"] = probed ++ rest
    ∧ complete (selectImageBySize
                  (demoEnv (λ url, if String.eqb url "A" then 2000000
                                   else 500000) (λ _, 200) Threw 0)
                  ["A"; "B"] 1000000 3 (mkJob textPost ∅ []))
      = (["B"], mkJob textPost ∅ ([] ++ map EvHead probed))
    ∧ rest = [].
Proof.
  destruct (selector_takes_first_fitting
              (demoEnv (λ url, if String.eqb url "A" then 2000000
                               else 500000) (λ _, 200) Threw 0)
              ["A"; "B"] 1000000 3 textPost ∅ [])
    as (probed & rest & Hsplit & Hrun & Hsel & Hstop & _).
  exists probed, rest. split; [exact Hsplit|]. split; [exact Hrun|].
  destruct Hstop as [Hrest|Hfull]; [exact Hrest|].
  rewrite Hsel in Hfull. vm_compute in Hfull. by destruct Hfull.
Defined.

(** C8, as the specification states it, fails for an abstract that is
    present but empty: it is shorter than any positive threshold, yet the
    budget is three, and [downloadImage] requests three images. Its
    example fails when the five probes report a length of zero, which is
    within any budget: nothing is selected. *)
Lemma count_budget_counterexample :
  maxNumImg demoConstants (mkItem (Some "") ["u1"; "u2"; "u3"] None None)
  ≠ countBySpec (MAX_ABSTRACT_LEN_ALLOWING_TWO_IMAGES demoConstants)
                (abstract (mkItem (Some "") ["u1"; "u2"; "u3"] None None))
  ∧ log (complete
           (downloadImage demoConstants
              (demoEnv (λ _, 500000) (λ _, 200) Threw 0) "img/lol"
              (mkJob (mkItem (Some "") ["u1"; "u2"; "u3"] None None)
                     ∅ []))).2
    = [EvHead "u1"; EvHead "u2"; EvHead "u3";
       EvGet "u1"; EvGet "u2"; EvGet "u3"]
  ∧ Forall (λ url, knownWithin 1000000
                     (http_head (demoEnv (λ _, 0) (λ _, 200) Threw 0) url)
                   = true)
           ["u1"; "u2"; "u3"; "u4"; "u5"]
  ∧ (complete
       (selectImageBySize (demoEnv (λ _, 0) (λ _, 200) Threw 0)
          ["u1"; "u2"; "u3"; "u4"; "u5"] 1000000
          (maxNumImg demoConstants
             (mkItem None ["u1"; "u2"; "u3"; "u4"; "u5"] None None))
          (mkJob (mkItem None ["u1"; "u2"; "u3"; "u4"; "u5"] None None)
                 ∅ []))).1
    ≠ ["u1"; "u2"; "u3"]
  ∧ log (complete
           (downloadImage demoConstants
              (demoEnv (λ _, 0) (λ _, 200) Threw 0) "img/lol"
              (mkJob (mkItem None ["u1"; "u2"; "u3"; "u4"; "u5"] None None)
                     ∅ []))).2
    = map EvHead ["u1"; "u2"; "u3"; "u4"; "u5"].
Proof.
  split; [vm_compute; discriminate|].
  split; [vm_compute; reflexivity|].
  split; [by repeat constructor|].
  split; [vm_compute; discriminate|]. vm_compute. reflexivity.
Qed.

Section Budget.

Context (C : Constants) (E : Env) (dst : string).
Context (it : Item) (fs : gset string) (lg : list Event).

(** What a call left alone requests, with what its selector probed. *)
Lemma downloadImage_requests :
  shortCircuits it = false →
  ∃ probed rest,
    imgUrls it = probed ++ rest
    ∧ List.filter (accepted E (MAX_IMAGE_SIZE C)) probed = selection C E it
    ∧ (rest = []
       ∨ maxNumImg C it
         ≤ Z.of_nat (length (List.filter (accepted E (MAX_IMAGE_SIZE C))
                               probed)))
    ∧ (∀ pre url post, probed = pre ++ url :: post →
         Z.of_nat (length (List.filter (accepted E (MAX_IMAGE_SIZE C)) pre))
         < maxNumImg C it)
    ∧ log (complete (downloadImage C E dst (mkJob it fs lg))).2
      = lg ++ map EvHead probed ++ map EvGet (pending C E dst it fs).
Proof.
  intros Hguard.
  destruct (selectLoop_run E (MAX_IMAGE_SIZE C) (maxNumImg C it)
              (imgUrls it) [] it fs lg)
    as (probed & rest & Hsplit & Hrun & Htake & Hstop & Hroom).
  simpl in Hrun, Htake, Hstop, Hroom. rewrite Nat.sub_0_r in Htake.
  fold (selection C E it) in Htake.
  exists probed, rest. do 4 (split; [done|]).
  assert (complete (selectImageBySize E (imgUrls it) (MAX_IMAGE_SIZE C)
                      (maxNumImg C it) (mkJob it fs lg))
          = (selection C E it, mkJob it fs (lg ++ map EvHead probed)))
    as Hselect.
  { unfold selectImageBySize. by rewrite Hrun, Htake. }
  unfold downloadImage. simpl. unfold shortCircuits in Hguard.
  rewrite Hguard. simpl. rewrite complete_andThen, Hselect. simpl.
  unfold pending.
  destruct (decide (selection C E it = [])) as [Hsel|Hsel].
  { rewrite Hsel. simpl. by rewrite app_nil_r. }
  destruct (filterMissing_run dst (selection C E it) (started it)
              (pathsOf it) fs (lg ++ map EvHead probed)
              (imgPaths_started it)) as (repaired & Hfilter & _ & _).
  set (todo := List.filter (missing dst (pathsOf it) fs) (selection C E it))
    in *.
  destruct (downloadEach_run E dst todo
              (withPaths (started it) (pathsOf it ++ repaired))
              (pathsOf it ++ repaired) fs (lg ++ map EvHead probed) eq_refl)
    as (results & Hdl & Hall).
  assert ((length (selection C E it) =? 0)%nat = false) as ->
    by (by destruct (selection C E it)).
  simpl.
  assert (initImgPaths (mkJob it fs (lg ++ map EvHead probed))
          = Done tt (mkJob (started it) fs (lg ++ map EvHead probed)))
    as Hinit.
  { unfold initImgPaths, started. simpl.
    destruct (imgPaths it); [|done]. simpl. by destruct it. }
  rewrite Hinit. simpl. rewrite Hfilter. simpl.
  rewrite complete_andThen, Hdl. simpl.
  rewrite <- !app_assoc.
  by destruct (forallb fulfilledTrue results).
Qed.

End Budget.

(** C8 (amended): for an item that gets past the guard, [downloadImage]
    selects with a count budget of 3 when the abstract is missing or
    empty, 2 when it is non-empty and has fewer UTF-16 code units (what
    [.length] counts) than the threshold, and 1 otherwise: it probes the
    locators in order as long as fewer than that many are accepted, and
    then requests the first that many accepted locators, those apart
    whose file is recorded or exists. So for an item without abstract
    whose five locators are all accepted by the probe, it probes just the
    first three and these are the selected ones, in their order; on a
    fresh item and folder it requests exactly these three. *)
Theorem count_budget_by_abstract (C : Constants) (E : Env) (dst : string)
    (it : Item) (fs : gset string) (lg : list Event) :
  shortCircuits it = false →
  let budget :=
    match abstract it with
    | None | Some EmptyString => 3
    | Some s =>
        if Z.of_nat (jsLength s) <? MAX_ABSTRACT_LEN_ALLOWING_TWO_IMAGES C
        then 2 else 1
    end in
  let selected :=
    take (Z.to_nat budget)
         (List.filter (accepted E (MAX_IMAGE_SIZE C)) (imgUrls it)) in
  ∃ probed rest,
    imgUrls it = probed ++ rest
    ∧ List.filter (accepted E (MAX_IMAGE_SIZE C)) probed = selected
    ∧ (rest = [] ∨ budget ≤ Z.of_nat (length selected))
    ∧ (∀ pre url post, probed = pre ++ url :: post →
         Z.of_nat (length (List.filter (accepted E (MAX_IMAGE_SIZE C)) pre))
         < budget)
    ∧ log (complete (downloadImage C E dst (mkJob it fs lg))).2
      = lg ++ map EvHead probed
           ++ map EvGet (List.filter (missing dst (pathsOf it) fs) selected)
    ∧ (abstract it = None →
       length (imgUrls it) = 5%nat →
       Forall (λ url, accepted E (MAX_IMAGE_SIZE C) url = true)
              (imgUrls it) →
       probed = take 3 (imgUrls it)
       ∧ selected = take 3 (imgUrls it)
       ∧ (imgPaths it = None →
          (∀ url, url ∈ imgUrls it → localPath dst url ∉ fs) →
          log (complete (downloadImage C E dst (mkJob it fs lg))).2
          = lg ++ map EvHead (take 3 (imgUrls it))
               ++ map EvGet (take 3 (imgUrls it)))).
Proof.
  intros Hguard budget selected.
  assert (maxNumImg C it = budget) as Hbudget.
  { unfold maxNumImg, budget. by destruct (abstract it) as [[|c s]|]. }
  assert (selection C E it = selected) as Hselected.
  { unfold selection, selected. by rewrite Hbudget. }
  destruct (downloadImage_requests C E dst it fs lg Hguard)
    as (probed & rest & Hsplit & Hsel & Hstop & Hroom & Hlog).
  rewrite Hbudget in Hstop, Hroom. unfold pending in Hlog.
  rewrite Hselected in Hsel, Hlog. rewrite Hsel in Hstop.
  exists probed, rest. do 5 (split; [done|]).
  intros Habs Hlen Hall.
  assert (∀ (f : string → bool) l,
            Forall (λ url, f url = true) l → List.filter f l = l) as Hid.
  { intros f. induction 1 as [|u l Hu _ IH]; simpl; [done|].
    by rewrite Hu, IH. }
  assert (budget = 3) as Hthree by (unfold budget; by rewrite Habs).
  assert (selected = take 3 (imgUrls it)) as Hshown.
  { unfold selected. by rewrite Hthree, (Hid _ _ Hall). }
  assert (probed = take 3 (imgUrls it)) as Hprobed.
  { rewrite <- Hshown, <- Hsel. symmetry. apply Hid.
    rewrite Hsplit in Hall. by apply Forall_app in Hall as [? _]. }
  do 2 (split; [done|]). intros Hpaths Hfresh.
  rewrite Hlog, Hprobed, Hshown. do 3 f_equal.
  apply Hid, Forall_forall. intros url Hurl.
  assert (url ∈ imgUrls it) as Hin
    by (eapply elem_of_sublist; [exact Hurl|apply sublist_take]).
  unfold missing. apply andb_true_intro.
  split; apply negb_true_iff, bool_decide_eq_false; [|by apply Hfresh].
  unfold pathsOf. rewrite Hpaths. apply not_elem_of_nil.
Qed.

(** Five locators of 500 KB each and no abstract: the first three. *)
Lemma count_budget_by_abstract_witness :
  let E := demoEnv (λ _, 500000) (λ _, 200) Threw 0 in
  let it := mkItem None ["u1"; "u2"; "u3"; "u4"; "u5"] None None in
  ∃ probed rest,
    imgUrls it = probed ++ rest
    ∧ List.filter (accepted E (MAX_IMAGE_SIZE demoConstants)) probed
      = take (Z.to_nat 3)
             (List.filter (accepted E (MAX_IMAGE_SIZE demoConstants))
                          (imgUrls it))
    ∧ probed = take 3 (imgUrls it)
    ∧ log (complete (downloadImage demoConstants E "img/lol"
                       (mkJob it ∅ []))).2
      = [] ++ map EvHead (take 3 (imgUrls it))
           ++ map EvGet (take 3 (imgUrls it)).
Proof.
  destruct (count_budget_by_abstract demoConstants
              (demoEnv (λ _, 500000) (λ _, 200) Threw 0) "img/lol"
              (mkItem None ["u1"; "u2"; "u3"; "u4"; "u5"] None None) ∅ []
              eq_refl)
    as (probed & rest & Hsplit & Hsel & _ & _ & _ & Hfive).
  destruct (Hfive eq_refl eq_refl) as (Hprobed & _ & Hlog).
  { repeat constructor. }
  exists probed, rest. split; [exact Hsplit|]. split; [exact Hsel|].
  split; [exact Hprobed|]. apply Hlog; [reflexivity|].
  intros url _. apply not_elem_of_empty.
Defined.

(** An abstract of seven Chinese characters, 21 bytes in UTF-8, counts as
    seven: under a threshold of 20 the budget is two, and both images are
    probed and requested. *)
Example chinese_abstract_scenario :
  jsLength "今天天气真不错" = 7%nat
  ∧ maxNumImg demoConstants
      (mkItem (Some "今天天气真不错") ["u1"; "u2"] None None) = 2
  ∧ log (complete
           (downloadImage demoConstants
              (demoEnv (λ _, 500000) (λ _, 200) Threw 0) "img/lol"
              (mkJob (mkItem (Some "今天天气真不错") ["u1"; "u2"] None None)
                     ∅ []))).2
    = [EvHead "u1"; EvHead "u2"; EvGet "u1"; EvGet "u2"].
Proof. repeat split; vm_compute; reflexivity. Qed.

(** C5, as the specification states it, fails for an item without
    locators: [downloadImage] succeeds at once and leaves the flag as it
    was, here missing. *)
Lemma short_circuit_counterexample :
  imgUrls textPost = []
  ∧ imgDownloaded
      (item (complete (downloadImage demoConstants
                         (demoEnv (λ _, 1) (λ _, 200) Threw 0) "img/lol"
                         (mkJob textPost ∅ []))).2)
    ≠ Some true.
Proof. split; [done|]. vm_compute. discriminate. Qed.

(** C5 (amended): [downloadImage] returns [true] at once, without
    awaiting anything, when the item's flag is already [true] or its
    locator list is empty; in both cases it makes no probe and no download
    and leaves the item, its flag included, and the files exactly as they
    were. *)
Theorem short_circuit_leaves_all_alone (C : Constants) (E : Env)
    (dst : string) (a : option string) (urls : list string)
    (d : option bool) (ps : option (list string)) (fs : gset string)
    (lg : list Event) :
  downloadImage C E dst (mkJob (mkItem a urls (Some true) ps) fs lg)
  = Done true (mkJob (mkItem a urls (Some true) ps) fs lg)
  ∧ downloadImage C E dst (mkJob (mkItem a [] d ps) fs lg)
    = Done true (mkJob (mkItem a [] d ps) fs lg).
Proof.
  split; apply downloadImage_skip; unfold shortCircuits; simpl; [done|].
  apply orb_true_r.
Qed.

(** A finished post and a post without images: both calls return at once. *)
Lemma short_circuit_leaves_all_alone_witness :
  downloadImage demoConstants recoveredEnv "img/lol" (mkJob donePost ∅ [])
  = Done true (mkJob donePost ∅ [])
  ∧ downloadImage demoConstants recoveredEnv "img/lol" (mkJob textPost ∅ [])
    = Done true (mkJob textPost ∅ []).
Proof.
  split.
  - apply (short_circuit_leaves_all_alone demoConstants recoveredEnv
             "img/lol" (Some "hello") ["http://h/a.jpg"] None
             (Some ["img/lol/a.jpg"]) ∅ []).
  - apply (short_circuit_leaves_all_alone demoConstants recoveredEnv
             "img/lol" (Some "hello") ["http://h/a.jpg"] None None ∅ []).
Defined.

Lemma extends_trans j1 j2 j3 : extends j1 j2 → extends j2 j3 → extends j1 j3.
Proof.
  intros (Ha & Hu & (p1 & Hp1 & Hd1) & Hs & Hd)
         (Ha' & Hu' & (p2 & Hp2 & Hd2) & Hs' & Hd').
  split; [congruence|]. split; [congruence|]. split; [|split; [auto|]].
  - exists (p1 ++ p2). split; [by rewrite Hp2, Hp1, <- app_assoc|].
    apply Forall_app. split; [|done].
    eapply Forall_impl; [exact Hd1|]. intros p Hp. by apply Hd'.
  - set_solver.
Qed.

Lemma grows_extends j j' : grows j j' → extends j j'.
Proof. intros [? ? ? ? ? _]. by repeat split. Qed.

(** What the others do while the call waits: nothing to its item, and
    they only add files. *)
Lemma resumed_extends j j' :
  item j' = item j → disk j ⊆ disk j' → extends j j'.
Proof.
  intros Hitem Hdisk. unfold extends. rewrite Hitem.
  repeat split; try done. exists []. by rewrite app_nil_r.
Qed.

Lemma observed_extends {A} (r : Run A) j1 :
  Observed r j1 →
  ∀ start j0, guar grows j0 r → extends start j0 → extends start j1.
Proof.
  induction 1 as [a j|j resume|j resume j' j1 Hitem Hdisk _ IH];
    intros start j0 Hguar Hstart; simpl in Hguar.
  - eapply extends_trans; [exact Hstart|]. by apply grows_extends.
  - eapply extends_trans; [exact Hstart|]. by apply grows_extends, Hguar.
  - destruct Hguar as [Hg Hres]. apply (IH start j'); [apply Hres|].
    eapply extends_trans; [exact Hstart|].
    eapply extends_trans; [by apply grows_extends|].
    by apply resumed_extends.
Qed.

(** A run left alone is seen in the state it reaches after any number of
    responses. *)
Lemma observed_upTo {A} n (r : Run A) : Observed r (upTo n r).2.
Proof.
  revert n. induction r as [a j|j resume IH]; intros n; simpl.
  - constructor.
  - destruct n as [|n]; simpl; [constructor|].
    by apply (observed_later j resume j).
Qed.

(** C10: in whatever state a call of [downloadImage] is seen, suspended at
    an await or returned, alone or with others acting while it waits (they
    leave its item alone and only add files), the paths recorded in the
    item are the paths recorded when the call started, in their order,
    followed by appended ones; nothing is removed, replaced or reordered,
    and every appended path is a file that exists (it was found by the
    repair step or written by a download). *)
Theorem imgPaths_only_grow (C : Constants) (E : Env) (dst : string)
    (j j1 : Job) :
  Observed (downloadImage C E dst j) j1 →
  ∃ added,
    pathsOf (item j1) = pathsOf (item j) ++ added
    ∧ (∀ ps, imgPaths (item j) = Some ps →
         imgPaths (item j1) = Some (ps ++ added))
    ∧ Forall (λ p, p ∈ disk j1) added.
Proof.
  intros Hseen.
  destruct (observed_extends _ _ Hseen j j)
    as (_ & _ & (added & Hpaths & Hdisk) & Hsome & _).
  { by apply mono_downloadImage. }
  { by apply resumed_extends. }
  exists added. split; [done|]. split; [|done].
  intros ps Hps. destruct (Hsome (mk_is_Some _ _ Hps)) as [ps' Hps'].
  unfold pathsOf in Hpaths. rewrite Hps, Hps' in Hpaths. simpl in Hpaths.
  by rewrite Hps', Hpaths.
Qed.

(** A call on a post that already records [img3], seen after four
    responses: three probes and the download of [img1]. *)
Example suspended_run_scenario :
  upTo 4 (downloadImage demoConstants recoveredEnv "img/lol"
            (mkJob (mkItem None (imgUrls threeImages) (Some false)
                           (Some ["img/lol/img3"]))
                   {[ "img/lol/img3" ]} []))
  = (None,
     mkJob (mkItem None (imgUrls threeImages) (Some false)
                   (Some ["img/lol/img3"; "img/lol/img1"]))
           {[ "img/lol/img1"; "img/lol/img3" ]}
           [EvHead "http://h/img1"; EvHead "http://h/img2";
            EvHead "http://h/img3"; EvGet "http://h/img1";
            EvGet "http://h/img2"]).
Proof. vm_compute. reflexivity. Qed.

(** The run above keeps [img3] in front of what it appends. *)
Lemma imgPaths_only_grow_witness :
  ∃ added,
    pathsOf
      (item (upTo 4 (downloadImage demoConstants recoveredEnv "img/lol"
                       (mkJob (mkItem None (imgUrls threeImages) (Some false)
                                      (Some ["img/lol/img3"]))
                              {[ "img/lol/img3" ]} []))).2)
    = ["img/lol/img3"] ++ added.
Proof.
  destruct (imgPaths_only_grow demoConstants recoveredEnv "img/lol"
              (mkJob (mkItem None (imgUrls threeImages) (Some false)
                             (Some ["img/lol/img3"]))
                     {[ "img/lol/img3" ]} [])
              (upTo 4 (downloadImage demoConstants recoveredEnv "img/lol"
                         (mkJob (mkItem None (imgUrls threeImages)
                                        (Some false)
                                        (Some ["img/lol/img3"]))
                                {[ "img/lol/img3" ]} []))).2
              (observed_upTo 4 _))
    as (added & Hpaths & _).
  exists added. exact Hpaths.
Defined.

Lemma selection_agree C E E' it it' :
  (∀ url, http_head E' url = http_head E url) →
  abstract it' = abstract it → imgUrls it' = imgUrls it →
  selection C E' it' = selection C E it.
Proof.
  intros Hhead Ha Hu. unfold selection, maxNumImg. rewrite Ha, Hu.
  f_equal. apply filter_ext. intros url. unfold accepted. by rewrite Hhead.
Qed.

Lemma elem_of_pending C E dst it fs u :
  u ∈ pending C E dst it fs ↔
  u ∈ selection C E it ∧ (localPath dst u ∉ pathsOf it)
  ∧ (localPath dst u ∉ fs).
Proof.
  unfold pending, missing.
  rewrite list_elem_of_In, filter_In, <- list_elem_of_In, andb_true_iff,
    !negb_true_iff, !bool_decide_eq_false. tauto.
Qed.

Lemma elem_of_fetched E dst urls p :
  p ∈ fetched E dst urls ↔
  ∃ u, u ∈ urls ∧ downloadOk E dst u = true ∧ p = localPath dst u.
Proof.
  unfold fetched. rewrite list_elem_of_In, in_map_iff. split.
  - intros (u & <- & Hu). apply filter_In in Hu as [Hu Hok].
    exists u. by rewrite list_elem_of_In.
  - intros (u & Hu & Hok & ->). exists u. split; [done|].
    apply filter_In. by rewrite <- list_elem_of_In.
Qed.

Lemma imgPaths_settled it ps b : imgPaths (settled it ps b) = Some ps.
Proof. by destruct b. Qed.

Section Requests.

Context (C : Constants) (E : Env) (dst : string).

Lemma complete_skip it fs lg :
  shortCircuits it = true →
  complete (downloadImage C E dst (mkJob it fs lg)) = (true, mkJob it fs lg).
Proof. intros Hguard. by rewrite downloadImage_skip. Qed.

(** A call left alone requests only pending locators. *)
Lemma requests_are_pending it fs lg u :
  EvGet u ∈ log (complete (downloadImage C E dst (mkJob it fs lg))).2 →
  EvGet u ∈ lg ∨ (shortCircuits it = false ∧ u ∈ pending C E dst it fs).
Proof.
  destruct (shortCircuits it) eqn:Hguard.
  { rewrite complete_skip by done. auto. }
  assert (∀ l, EvGet u ∉ map EvHead l) as Hhead.
  { intros l [x [? _]]%list_elem_of_In%in_map_iff. discriminate. }
  destruct (decide (selection C E it = [])) as [Hsel|Hsel].
  - destruct (downloadImage_none C E dst it fs lg Hguard Hsel)
      as (probed & rest & _ & ->). simpl.
    intros [?|Hin]%elem_of_app; [by left|]. by apply Hhead in Hin.
  - destruct (downloadImage_some C E dst it fs lg Hguard Hsel)
      as (probed & rest & repaired & _ & -> & _). simpl.
    intros [?|[Hin|Hin]%elem_of_app]%elem_of_app; [by left| |].
    + by apply Hhead in Hin.
    + right. split; [done|].
      apply list_elem_of_In, in_map_iff in Hin as (x & [= ->] & Hin).
      by apply list_elem_of_In.
Qed.

End Requests.

Lemma filter_filter_andb {A} (f g : A → bool) (l : list A) :
  List.filter g (List.filter f l) = List.filter (λ x, f x && g x) l.
Proof.
  induction l as [|x l IH]; simpl; [done|].
  destruct (f x); simpl; [|done]. destruct (g x); by rewrite IH.
Qed.

(** C4: when a call of [downloadImage] requests downloads and at least one
    of them fails (error, status other than 200 or failed write), the
    call, once every response has arrived, answers [false] and has left the
    flag falsy ([false] if [imgPaths] had to be created, else as it was);
    every pending locator was still requested, and the path of every
    download that went through is recorded in [imgPaths] and exists as a
    file, while the path of a pending locator is recorded or exists only
    if a download to that path went through. A call that follows, with
    the same probe answers, probes again and requests exactly the pending
    locators whose file is still missing, in their order: each of them
    failed before, and a failed locator is requested again unless another
    download to the same path went through. *)
Theorem failed_download_spares_siblings (C : Constants) (E : Env)
    (dst : string) (it : Item) (fs : gset string) (lg : list Event)
    (failing : string) :
  shortCircuits it = false →
  failing ∈ pending C E dst it fs →
  downloadOk E dst failing = false →
  ∃ j',
    complete (downloadImage C E dst (mkJob it fs lg)) = (false, j')
    ∧ imgDownloaded (item j') = imgDownloaded (started it)
    ∧ (imgPaths it = None → imgDownloaded (item j') = Some false)
    ∧ truthy (imgDownloaded (item j')) = false
    ∧ (∀ u, u ∈ pending C E dst it fs → EvGet u ∈ log j')
    ∧ (∀ u, u ∈ pending C E dst it fs → downloadOk E dst u = true →
         localPath dst u ∈ pathsOf (item j') ∧ localPath dst u ∈ disk j')
    ∧ (∀ u, u ∈ pending C E dst it fs →
         (localPath dst u ∈ pathsOf (item j') ↔ localPath dst u ∈ disk j')
         ∧ (localPath dst u ∈ disk j' ↔
            ∃ v, v ∈ pending C E dst it fs ∧ downloadOk E dst v = true
              ∧ localPath dst v = localPath dst u))
    ∧ (∀ E' lg',
         (∀ url, http_head E' url = http_head E url) →
         ∃ probed rest,
           imgUrls it = probed ++ rest
           ∧ log (complete (downloadImage C E' dst
                              (mkJob (item j') (disk j') lg'))).2
             = lg' ++ map EvHead probed
                   ++ map EvGet
                        (List.filter
                           (λ u, negb (bool_decide
                                         (localPath dst u ∈ disk j')))
                           (pending C E dst it fs)))
    ∧ (∀ u, u ∈ pending C E dst it fs → (localPath dst u ∉ disk j') →
         downloadOk E dst u = false)
    ∧ ((∀ v, v ∈ pending C E dst it fs → downloadOk E dst v = true →
           localPath dst v ≠ localPath dst failing) →
       (localPath dst failing ∉ pathsOf (item j'))
       ∧ (localPath dst failing ∉ disk j')).
Proof.
  intros Hguard Hfail Hbad.
  assert (selection C E it ≠ []) as Hsel.
  { apply elem_of_pending in Hfail as [Hin _]. intros Heq.
    rewrite Heq in Hin. by apply elem_of_nil in Hin. }
  destruct (downloadImage_some C E dst it fs lg Hguard Hsel)
    as (probed & rest & repaired & Hsplit & Hrun & Hrep & Hcov).
  fold (pending C E dst it fs) in Hrun.
  assert (forallb (downloadOk E dst) (pending C E dst it fs) = false) as Hall.
  { apply not_true_is_false. intros Hall.
    rewrite forallb_forall in Hall.
    apply list_elem_of_In, Hall in Hfail. congruence. }
  rewrite Hall in Hrun. unfold settled in Hrun.
  set (got := fetched E dst (arrivalOrder E (pending C E dst it fs))) in *.
  assert (∀ p, p ∈ got ↔
               ∃ v, v ∈ pending C E dst it fs ∧ downloadOk E dst v = true
                 ∧ localPath dst v = p) as Hgot.
  { intros p. unfold got. rewrite elem_of_fetched. split.
    - intros (v & Hv & Hok & ->). rewrite arrivalOrder_perm in Hv.
      by exists v.
    - intros (v & Hv & Hok & <-). exists v.
      by rewrite arrivalOrder_perm. }
  assert (∀ p, p ∈ repaired → p ∈ fs) as Hrepfs.
  { intros p Hp. by apply (proj1 (Forall_forall _ _) Hrep) in Hp as [? _]. }
  set (it1 := withPaths (started it) (pathsOf it ++ repaired ++ got)) in *.
  set (fs1 := list_to_set got ∪ fs : gset string) in *.
  assert (pathsOf it1 = pathsOf it ++ repaired ++ got) as HP by done.
  assert (∀ u, u ∈ pending C E dst it fs →
            (localPath dst u ∈ pathsOf it1 ↔ localPath dst u ∈ got)
            ∧ (localPath dst u ∈ fs1 ↔ localPath dst u ∈ got)) as Hwhere.
  { intros u (_ & Hnp & Hnf)%elem_of_pending. rewrite HP. unfold fs1.
    rewrite !elem_of_app, elem_of_union, elem_of_list_to_set.
    split; split; auto.
    - intros [?|[?%Hrepfs|?]]; done.
    - intros [?|?]; done. }
  eexists. split; [exact Hrun|]. simpl.
  split; [done|]. split.
  { unfold started. by intros ->. }
  split.
  { apply truthy_started. unfold shortCircuits in Hguard.
    by apply orb_false_elim in Hguard as [? _]. }
  split; [|split; [|split; [|split; [|split]]]].
  - intros u Hu. rewrite !elem_of_app. right. right.
    by apply list_elem_of_In, in_map, list_elem_of_In.
  - intros u Hu Hok. destruct (Hwhere u Hu) as [Hp Hd].
    assert (localPath dst u ∈ got) by (apply Hgot; by exists u).
    split; [by apply Hp|by apply Hd].
  - intros u Hu. destruct (Hwhere u Hu) as [Hp Hd].
    split; [by rewrite Hp, Hd|]. by rewrite Hd, Hgot.
  - intros E' lg' Hhead.
    assert (shortCircuits it1 = false) as Hguard1.
    { apply orb_false_elim in Hguard as [Hf Hn].
      unfold shortCircuits. simpl. rewrite (truthy_started _ Hf).
      unfold started. by destruct (imgPaths it). }
    assert (selection C E' it1 = selection C E it) as Hsel1.
    { apply selection_agree; [done|..];
        unfold it1, started; by destruct (imgPaths it). }
    destruct (downloadImage_requests C E' dst it1 fs1 lg' Hguard1)
      as (probed' & rest' & Hsplit' & _ & _ & _ & Hlog).
    exists probed', rest'. split.
    { rewrite <- Hsplit'. unfold it1, started. by destruct (imgPaths it). }
    rewrite Hlog. do 3 f_equal.
    unfold pending. rewrite Hsel1, filter_filter_andb.
    apply filter_ext_in. intros u Hu%list_elem_of_In.
    unfold missing. rewrite HP.
    destruct (bool_decide (localPath dst u ∈ pathsOf it)) eqn:Hp; simpl.
    { apply bool_decide_eq_true in Hp.
      rewrite bool_decide_eq_true_2; [done|].
      rewrite elem_of_app. by left. }
    apply bool_decide_eq_false in Hp.
    destruct (bool_decide (localPath dst u ∈ fs)) eqn:Hf; simpl.
    { apply bool_decide_eq_true in Hf.
      rewrite (bool_decide_eq_true_2 (localPath dst u ∈ fs1));
        [apply andb_false_r|].
      unfold fs1. apply elem_of_union. by right. }
    apply bool_decide_eq_false in Hf.
    assert (u ∈ pending C E dst it fs) as Hpend by by apply elem_of_pending.
    destruct (Hwhere u Hpend) as [Hin1 Hin2]. rewrite HP in Hin1.
    destruct (bool_decide (localPath dst u ∈ fs1)) eqn:Hf1; simpl.
    + apply bool_decide_eq_true in Hf1.
      rewrite bool_decide_eq_true_2; [done|]. apply Hin1. by apply Hin2.
    + apply bool_decide_eq_false in Hf1.
      rewrite bool_decide_eq_false_2; [done|]. intros Hin. by apply Hf1, Hin2, Hin1.
  - intros u Hu Hnot. apply not_true_is_false. intros Hok.
    apply Hnot. apply (Hwhere u Hu), Hgot. by exists u.
  - intros Halone.
    assert (localPath dst failing ∉ got) as Hnot.
    { intros (v & Hv & Hok & Heq)%Hgot. by apply (Halone v). }
    destruct (Hwhere failing Hfail) as [Hp Hd].
    split; [by rewrite Hp|by rewrite Hd].
Qed.

(** The partial-failure scenario of the specification: [img2] fails while
    [img1] and [img3] go through. *)
Lemma failed_download_spares_siblings_witness :
  ∃ j',
    complete (downloadImage demoConstants flakyEnv "img/lol"
                (mkJob threeImages ∅ [])) = (false, j')
    ∧ truthy (imgDownloaded (item j')) = false
    ∧ (∀ u, u ∈ pending demoConstants flakyEnv "img/lol" threeImages ∅ →
         EvGet u ∈ log j')
    ∧ (∀ u, u ∈ pending demoConstants flakyEnv "img/lol" threeImages ∅ →
         downloadOk flakyEnv "img/lol" u = true →
         localPath "img/lol" u ∈ pathsOf (item j')
         ∧ localPath "img/lol" u ∈ disk j')
    ∧ (∀ E' lg',
         (∀ url, http_head E' url = http_head flakyEnv url) →
         ∃ probed rest,
           imgUrls threeImages = probed ++ rest
           ∧ log (complete (downloadImage demoConstants E' "img/lol"
                              (mkJob (item j') (disk j') lg'))).2
             = lg' ++ map EvHead probed
                   ++ map EvGet
                        (List.filter
                           (λ u, negb (bool_decide
                                         (localPath "img/lol" u ∈ disk j')))
                           (pending demoConstants flakyEnv "img/lol"
                                    threeImages ∅)))
    ∧ (localPath "img/lol" "http://h/img2" ∉ pathsOf (item j'))
    ∧ (localPath "img/lol" "http://h/img2" ∉ disk j').
Proof.
  destruct (failed_download_spares_siblings demoConstants flakyEnv "img/lol"
              threeImages ∅ [] "http://h/img2")
    as (j' & Hrun & _ & _ & Hflag & Hreq & Hok & _ & Hnext & _ & Halone).
  - reflexivity.
  - vm_compute. apply list_elem_of_further, list_elem_of_here.
  - reflexivity.
  - exists j'. split; [exact Hrun|]. split; [exact Hflag|].
    split; [exact Hreq|]. split; [exact Hok|]. split; [exact Hnext|].
    apply Halone. intros v Hv Hgood Heq.
    vm_compute in Hv.
    apply elem_of_cons in Hv as [->|Hv]; [by vm_compute in Heq|].
    apply elem_of_cons in Hv as [->|Hv]; [by vm_compute in Hgood|].
    apply elem_of_cons in Hv as [->|Hv]; [by vm_compute in Heq|].
    by apply elem_of_nil in Hv.
Defined.

(** The scenario evaluated: the first call answers [false] with the paths
    of [img1] and [img3] recorded; the call that follows probes again and
    requests [img2] alone. *)
Example partial_failure_scenario :
  complete (downloadImage demoConstants flakyEnv "img/lol"
              (mkJob threeImages ∅ []))
  = (false,
     mkJob (mkItem None (imgUrls threeImages) (Some false)
                   (Some ["img/lol/img1"; "img/lol/img3"]))
           {[ "img/lol/img1"; "img/lol/img3" ]}
           [EvHead "http://h/img1"; EvHead "http://h/img2";
            EvHead "http://h/img3"; EvGet "http://h/img1";
            EvGet "http://h/img2"; EvGet "http://h/img3"])
  ∧ log (complete
           (downloadImage demoConstants recoveredEnv "img/lol"
              (mkJob (mkItem None (imgUrls threeImages) (Some false)
                             (Some ["img/lol/img1"; "img/lol/img3"]))
                     {[ "img/lol/img1"; "img/lol/img3" ]} []))).2
    = [EvHead "http://h/img1"; EvHead "http://h/img2";
       EvHead "http://h/img3"; EvGet "http://h/img2"].
Proof. split; vm_compute; reflexivity. Qed.

(** A post with an abstract of seven Chinese characters and two images,
    both downloads failing: the budget is two, both are requested, and the
    call that follows requests both again. *)
Example failed_pair_scenario :
  let it := mkItem (Some "今天天气真不错") ["http://h/u1"; "http://h/u2"]
                   None None in
  let first := complete (downloadImage demoConstants downEnv "img/lol"
                           (mkJob it ∅ [])) in
  first.1 = false
  ∧ log first.2
    = [EvHead "http://h/u1"; EvHead "http://h/u2";
       EvGet "http://h/u1"; EvGet "http://h/u2"]
  ∧ imgPaths (item first.2) = Some []
  ∧ log (complete (downloadImage demoConstants downEnv "img/lol"
                     (mkJob (item first.2) (disk first.2) []))).2
    = [EvHead "http://h/u1"; EvHead "http://h/u2";
       EvGet "http://h/u1"; EvGet "http://h/u2"].
Proof. repeat split; vm_compute; reflexivity. Qed.

(** C9, as the specification states it, fails when a download that failed
    in the first call goes through in the second: the first call leaves
    the files as they were, every probe answers as before, and still the
    second call records a path the first did not. *)
Lemma second_call_counterexample :
  (∀ url, http_head recoveredEnv url = http_head downEnv url)
  ∧ disk (finalJob (downloadImage demoConstants downEnv "img/lol"
                      (mkJob oneImage ∅ []))) = ∅
  ∧ imgPaths
      (item (finalJob
               (downloadImage demoConstants recoveredEnv "img/lol"
                  (mkJob
                     (item (finalJob
                              (downloadImage demoConstants downEnv "img/lol"
                                 (mkJob oneImage ∅ []))))
                     (disk (finalJob
                              (downloadImage demoConstants downEnv "img/lol"
                                 (mkJob oneImage ∅ []))))
                     []))))
    ≠ imgPaths
        (item (finalJob (downloadImage demoConstants downEnv "img/lol"
                           (mkJob oneImage ∅ [])))).
Proof.
  split; [done|]. split; [by vm_compute|]. vm_compute. discriminate.
Qed.

(** The state a second call reaches, when probes and downloads end as
    in the first. *)
Lemma second_call_state (C : Constants) (E E' : Env) (dst : string)
    (it : Item) (fs : gset string) (lg lg' : list Event) :
  (∀ url, http_head E' url = http_head E url) →
  (∀ url, downloadOk E' dst url = downloadOk E dst url) →
  ∀ j1, j1 = finalJob (downloadImage C E dst (mkJob it fs lg)) →
  ∀ j2, j2 = finalJob (downloadImage C E' dst
                         (mkJob (item j1) (disk j1) lg')) →
  imgPaths (item j2) = imgPaths (item j1) ∧ disk j2 = disk j1.
Proof.
  intros Hhead Hsame j1 Hj1 j2 Hj2. unfold finalJob in *.
  destruct (shortCircuits it) eqn:Hguard.
  { rewrite (complete_skip C E dst it fs lg Hguard) in Hj1.
    subst j1. simpl in Hj2.
    rewrite (complete_skip C E' dst it fs lg' Hguard) in Hj2.
    by subst j2. }
  destruct (decide (selection C E it = [])) as [Hsel|Hsel].
  { destruct (downloadImage_none C E dst it fs lg Hguard Hsel)
      as (probed & rest & _ & Hrun).
    rewrite Hrun in Hj1. subst j1. simpl in Hj2. by subst j2. }
  destruct (downloadImage_some C E dst it fs lg Hguard Hsel)
    as (probed & rest & repaired & _ & Hrun & Hrep & Hcov).
  fold (pending C E dst it fs) in Hrun.
  set (got := fetched E dst (arrivalOrder E (pending C E dst it fs))) in *.
  set (P := pathsOf it ++ repaired ++ got) in *.
  rewrite Hrun in Hj1. subst j1. simpl in *.
  destruct (forallb (downloadOk E dst) (pending C E dst it fs)) eqn:Hall.
  { simpl in Hj2. by subst j2. }
  unfold settled in *.
  set (it1 := withPaths (started it) P) in *.
  set (fs1 := list_to_set got ∪ fs) in *.
  assert (shortCircuits it1 = false) as Hguard1.
  { apply orb_false_elim in Hguard as [Hf Hn].
    unfold shortCircuits. simpl. rewrite (truthy_started _ Hf).
    unfold started. by destruct (imgPaths it). }
  assert (selection C E' it1 = selection C E it) as Hsel1.
  { apply selection_agree; [done|..];
      unfold it1, started; by destruct (imgPaths it). }
  assert (selection C E' it1 ≠ []) as Hne by by rewrite Hsel1.
  destruct (downloadImage_some C E' dst it1 fs1 lg' Hguard1 Hne)
    as (probed' & rest' & repaired' & _ & Hrun' & Hrep' & _).
  fold (pending C E' dst it1 fs1) in Hrun'.
  rewrite Hrun' in Hj2. subst j2. simpl. clear Hrun'.
  assert (pathsOf it1 = P) as HP by done.
  assert (∀ u, u ∈ selection C E it → localPath dst u ∈ fs1 →
               localPath dst u ∈ P) as Hknown.
  { intros u Hu [Hg%elem_of_list_to_set|Hf]%elem_of_union; unfold P.
    - rewrite !elem_of_app. auto.
    - specialize (Hcov u Hu Hf). rewrite app_assoc, elem_of_app. auto. }
  assert (repaired' = []) as ->.
  { destruct repaired' as [|p ?]; [done|].
    apply Forall_cons in Hrep' as [(Hin & Hnot & u & Hu & ->) _].
    rewrite Hsel1 in Hu. exfalso. apply Hnot. rewrite HP. by apply Hknown. }
  assert (fetched E' dst (arrivalOrder E' (pending C E' dst it1 fs1)) = [])
    as ->.
  { apply elem_of_nil_inv. intros p (u & Hu & Hok & ->)%elem_of_fetched.
    rewrite arrivalOrder_perm in Hu.
    apply elem_of_pending in Hu as (Hu & Hnp & Hnf).
    rewrite Hsel1 in Hu. rewrite Hsame in Hok. rewrite HP in Hnp.
    apply Hnp. unfold P. rewrite !elem_of_app. right. right.
    apply elem_of_fetched. exists u. rewrite arrivalOrder_perm.
    split; [|done]. apply elem_of_pending. split; [done|].
    unfold P in Hnp. rewrite !elem_of_app in Hnp.
    unfold fs1 in Hnf. rewrite elem_of_union in Hnf. tauto. }
  rewrite imgPaths_settled, HP, !app_nil_r. split; [done|].
  simpl. set_solver.
Qed.

(** A call that gets as far as filtering records the path of every
    selected locator whose file exists. *)
Lemma existing_file_is_recorded (C : Constants) (E : Env) (dst : string)
    (it : Item) (fs : gset string) (lg : list Event) (u : string) :
  shortCircuits it = false →
  u ∈ selection C E it →
  localPath dst u ∈ fs →
  localPath dst u
    ∈ pathsOf (item (finalJob (downloadImage C E dst (mkJob it fs lg)))).
Proof.
  intros Hguard Hu Hfs. unfold finalJob.
  assert (selection C E it ≠ []) as Hsel.
  { intros Heq. rewrite Heq in Hu. by apply elem_of_nil in Hu. }
  destruct (downloadImage_some C E dst it fs lg Hguard Hsel)
    as (probed & rest & repaired & _ & -> & _ & Hcov).
  simpl. specialize (Hcov u Hu Hfs).
  assert (∀ ps b, pathsOf (settled it ps b) = ps) as ->
    by (intros ps b; unfold pathsOf; by rewrite imgPaths_settled).
  rewrite app_assoc, elem_of_app. by left.
Qed.

(** C9 (amended): when [downloadImage] is called again on the item and the
    files the first call left, and every probe and every download ends as
    it did in the first call, the second call leaves [imgPaths] and the
    files as the first call left them. Whatever the downloads do, a call
    requests no locator whose path is recorded in [imgPaths] or exists as
    a file; and when it gets as far as filtering, the path of a selected
    locator whose file exists is recorded in [imgPaths] (the repair)
    instead. *)
Theorem second_call_changes_nothing (C : Constants) (dst : string) :
  (∀ E E' it fs lg lg',
     (∀ url, http_head E' url = http_head E url) →
     (∀ url, downloadOk E' dst url = downloadOk E dst url) →
     imgPaths
       (item (finalJob
                (downloadImage C E' dst
                   (mkJob (item (finalJob (downloadImage C E dst
                                             (mkJob it fs lg))))
                          (disk (finalJob (downloadImage C E dst
                                             (mkJob it fs lg))))
                          lg'))))
     = imgPaths (item (finalJob (downloadImage C E dst
                                   (mkJob it fs lg))))
     ∧ disk
         (finalJob
            (downloadImage C E' dst
               (mkJob (item (finalJob (downloadImage C E dst
                                         (mkJob it fs lg))))
                      (disk (finalJob (downloadImage C E dst
                                         (mkJob it fs lg))))
                      lg')))
       = disk (finalJob (downloadImage C E dst (mkJob it fs lg))))
  ∧ (∀ E it fs lg u,
       EvGet u ∈ log (finalJob (downloadImage C E dst (mkJob it fs lg))) →
       EvGet u ∈ lg
       ∨ (localPath dst u ∉ pathsOf it) ∧ (localPath dst u ∉ fs))
  ∧ (∀ E it fs lg u,
       shortCircuits it = false →
       u ∈ selection C E it →
       localPath dst u ∈ fs →
       localPath dst u
         ∈ pathsOf (item (finalJob (downloadImage C E dst
                                      (mkJob it fs lg))))).
Proof.
  split; [|split].
  - intros E E' it fs lg lg' Hhead Hsame.
    by apply (second_call_state C E E' dst it fs lg lg' Hhead Hsame
                _ eq_refl _ eq_refl).
  - intros E it fs lg u [?|[_ Hp]]%requests_are_pending; [by left|right].
    by apply elem_of_pending in Hp as (_ & ? & ?).
  - intros E it fs lg u. apply existing_file_is_recorded.
Qed.

(** The partial-failure scenario called twice under the same answers: the
    second call, which tries [img2] again in vain, changes neither the
    recorded paths nor the files. *)
Lemma second_call_changes_nothing_witness :
  imgPaths
    (item (finalJob
             (downloadImage demoConstants flakyEnv "img/lol"
                (mkJob (item (finalJob (downloadImage demoConstants flakyEnv
                                          "img/lol"
                                          (mkJob threeImages ∅ []))))
                       (disk (finalJob (downloadImage demoConstants flakyEnv
                                          "img/lol"
                                          (mkJob threeImages ∅ []))))
                       []))))
  = imgPaths (item (finalJob (downloadImage demoConstants flakyEnv "img/lol"
                                (mkJob threeImages ∅ []))))
  ∧ disk
      (finalJob
         (downloadImage demoConstants flakyEnv "img/lol"
            (mkJob (item (finalJob (downloadImage demoConstants flakyEnv
                                      "img/lol"
                                      (mkJob threeImages ∅ []))))
                   (disk (finalJob (downloadImage demoConstants flakyEnv
                                      "img/lol"
                                      (mkJob threeImages ∅ []))))
                   [])))
    = disk (finalJob (downloadImage demoConstants flakyEnv "img/lol"
                        (mkJob threeImages ∅ []))).
Proof.
  apply (proj1 (second_call_changes_nothing demoConstants "img/lol")
           flakyEnv flakyEnv threeImages ∅ [] []); reflexivity.
Defined.

(** The repair evaluated: [img1] lies in the folder but is not recorded;
    the call records it without requesting it and downloads the other
    two. *)
Example repair_scenario :
  complete (downloadImage demoConstants recoveredEnv "img/lol"
              (mkJob threeImages {[ "img/lol/img1" ]} []))
  = (true,
      mkJob (mkItem None (imgUrls threeImages) (Some true)
                     (Some ["img/lol/img1"; "img/lol/img2"; "img/lol/img3"]))
             {[ "img/lol/img1"; "img/lol/img2"; "img/lol/img3" ]}
             [EvHead "http://h/img1"; EvHead "http://h/img2";
              EvHead "http://h/img3"; EvGet "http://h/img2";
              EvGet "http://h/img3"]
            ).
Proof. vm_compute. reflexivity. Qed.

(** The order of arrival evaluated: the response for [img1] comes last, so
    its path is recorded last although it was requested first. *)
Example arrival_order_scenario :
  item (finalJob (downloadImage demoConstants
                    (delayed "http://h/img1" recoveredEnv) "img/lol"
                    (mkJob threeImages ∅ [])))
  = mkItem None (imgUrls threeImages) (Some true)
           (Some ["img/lol/img2"; "img/lol/img3"; "img/lol/img1"]).
Proof. vm_compute. reflexivity. Qed.


(** ** Further properties of the selector *)

Lemma complete_returns {A} (r : Run A) :
  Returns r (complete r).1 (complete r).2.
Proof.
  induction r as [a j|j resume IH]; simpl; [constructor|].
  by apply (returns_later j resume j).
Qed.

Lemma returns_observed {A} (r : Run A) a j1 : Returns r a j1 → Observed r j1.
Proof.
  induction 1 as [a j|j resume j' a j1 Hitem Hdisk _ IH]; [constructor|].
  by apply (observed_later j resume j').
Qed.

Lemma until_returns {A} (Q : A → Job → Prop) (r : Run A) a j1 :
  unresolvedUntil Q r → Returns r a j1 → Q a j1.
Proof.
  intros Hu Hr. induction Hr as [a j|j resume j' a j1 Hitem Hdisk _ IH];
    simpl in Hu; [done|].
  destruct Hu as [_ Hres]. by apply IH, Hres.
Qed.

Lemma returns_andThen {A B} (r : Run A) (k : A → M B) b j2 :
  Returns (andThen r k) b j2 →
  ∃ a j1, Returns r a j1 ∧ Returns (k a j1) b j2.
Proof.
  induction r as [a j|j resume IH]; simpl.
  - intros Hk. exists a, j. split; [constructor|done].
  - inversion 1 as [|? ? j' ? ? Hitem Hdisk Hrest]; simplify_eq.
    destruct (IH j' Hrest) as (a & j1 & Hr & Hk).
    exists a, j1. split; [|done]. by apply (returns_later j resume j').
Qed.

Lemma returns_done_inv {A} (a b : A) j j1 :
  Returns (Done a j) b j1 → b = a ∧ j1 = j.
Proof. by inversion 1. Qed.

Section SelectorSchedules.

Context (E : Env) (maxSize n : Z).

Lemma httpHead_returns url j r j1 :
  Returns (httpHead E url j) r j1 →
  r = http_head E url ∧ item j1 = item j ∧ disk j ⊆ disk j1.
Proof.
  unfold httpHead. simpl.
  inversion 1 as [|? ? j' ? ? Hitem Hdisk Hrest]; simplify_eq.
  simpl in *. apply returns_done_inv in Hrest as [-> ->].
  by rewrite Hitem.
Qed.

Lemma selectLoop_returns urls : ∀ selected j sel j1,
  Returns (selectLoop E maxSize n urls selected j) sel j1 →
  sel = selected ++ take (Z.to_nat n - length selected)%nat
                         (List.filter (accepted E maxSize) urls)
  ∧ item j1 = item j ∧ disk j ⊆ disk j1.
Proof.
  induction urls as [|u rest IH]; intros selected j sel j1; simpl.
  { intros [-> ->]%returns_done_inv. by rewrite take_nil, app_nil_r. }
  destruct (Z.of_nat (length selected) <? n) eqn:Hroom.
  - apply Z.ltb_lt in Hroom.
    intros (r & j0 & Hhead & Hrest)%returns_andThen.
    apply httpHead_returns in Hhead as (-> & Hitem & Hdisk).
    apply IH in Hrest as (-> & Hitem' & Hdisk').
    split; [|split; [congruence|set_solver]].
    change (fitsBudget maxSize (http_head E u)) with (accepted E maxSize u).
    destruct (accepted E maxSize u); [|done].
    rewrite length_app. simpl.
    replace (Z.to_nat n - length selected)%nat
      with (S (Z.to_nat n - (length selected + 1)))%nat by lia.
    simpl. by rewrite <- app_assoc.
  - apply Z.ltb_ge in Hroom. intros [-> ->]%returns_done_inv.
    replace (Z.to_nat n - length selected)%nat with 0%nat by lia.
    by rewrite take_0, app_nil_r.
Qed.

Lemma selectLoop_full urls selected j :
  n ≤ Z.of_nat (length selected) →
  selectLoop E maxSize n urls selected j = Done selected j.
Proof.
  intros Hfull. destruct urls as [|u rest]; simpl; [done|].
  by rewrite (proj2 (Z.ltb_ge _ _) Hfull).
Qed.

End SelectorSchedules.

(** X1: whatever the other calls do while [selectImageBySize] waits for its
    probes (they may add files and requests, and they leave the item
    alone), it returns the first [maxNumImg] accepted locators of the
    list, in their order, and hands back the item untouched and no file
    removed. With a budget of zero or less, or an empty list, it returns
    the empty selection at once, without a probe. *)
Theorem selector_ignores_interleaving (E : Env) (imgUrls : list string)
    (maxSize maxNumImg : Z) (j : Job) (sel : list string) (j1 : Job) :
  Returns (selectImageBySize E imgUrls maxSize maxNumImg j) sel j1 →
  sel = take (Z.to_nat maxNumImg) (List.filter (accepted E maxSize) imgUrls)
  ∧ item j1 = item j
  ∧ disk j ⊆ disk j1
  ∧ (maxNumImg ≤ 0 ∨ imgUrls = [] → sel = [] ∧ j1 = j).
Proof.
  intros Hret. unfold selectImageBySize in Hret.
  destruct (selectLoop_returns E maxSize maxNumImg imgUrls [] j sel j1 Hret)
    as (Hsel & Hitem & Hdisk).
  simpl in Hsel. rewrite Nat.sub_0_r in Hsel.
  do 3 (split; [done|]).
  intros [Hle| ->].
  - rewrite selectLoop_full in Hret by done.
    by apply returns_done_inv in Hret as [-> ->].
  - simpl in Hret. by apply returns_done_inv in Hret as [-> ->].
Qed.

(** An interleaved run: while the selector waits for its two probes,
    another call writes a file and issues a request. *)
Lemma selector_ignores_interleaving_witness :
  let E := demoEnv (λ url, if String.eqb url "A" then 2000000 else 500000)
                   (λ _, 200) Threw 0 in
  let j1 := mkJob textPost {[ "img/lol/x" ]}
                  [EvHead "A"; EvGet "x"; EvHead "B"] in
  ["B"] = take (Z.to_nat 1) (List.filter (accepted E 1000000) ["A"; "B"])
  ∧ item j1 = item (mkJob textPost ∅ [])
  ∧ disk (mkJob textPost ∅ []) ⊆ disk j1
  ∧ (1 ≤ 0 ∨ ["A"; "B"] = [] → ["B"] = [] ∧ j1 = mkJob textPost ∅ []).
Proof.
  apply (selector_ignores_interleaving
           (demoEnv (λ url, if String.eqb url "A" then 2000000 else 500000)
                    (λ _, 200) Threw 0)
           ["A"; "B"] 1000000 1 (mkJob textPost ∅ []) ["B"]).
  apply (returns_later _ _
           (mkJob textPost {[ "img/lol/x" ]} [EvHead "A"; EvGet "x"]));
    [reflexivity|apply empty_subseteq|].
  apply (returns_later _ _
           (mkJob textPost {[ "img/lol/x" ]}
                  [EvHead "A"; EvGet "x"; EvHead "B"]));
    [reflexivity|reflexivity|].
  apply returns_done.
Defined.


(** ** Further properties of the prefetcher *)

Lemma maxNumImg_bounds C it : 1 ≤ maxNumImg C it ≤ 3.
Proof.
  unfold maxNumImg. destruct (negb _); [lia|]. destruct (_ <? _); lia.
Qed.

Lemma filter_sublist {A} (f : A → bool) (l : list A) :
  List.filter f l `sublist_of` l.
Proof.
  induction l as [|x l IH]; simpl; [done|].
  destruct (f x); by constructor.
Qed.

Lemma selection_sublist C E it : selection C E it `sublist_of` imgUrls it.
Proof.
  unfold selection. etrans; [apply sublist_take|apply filter_sublist].
Qed.

Lemma selection_length C E it :
  Z.of_nat (length (selection C E it)) ≤ maxNumImg C it.
Proof.
  unfold selection. rewrite length_take.
  pose proof (maxNumImg_bounds C it). lia.
Qed.

Lemma pending_sublist C E dst it fs :
  pending C E dst it fs `sublist_of` imgUrls it.
Proof.
  unfold pending. etrans; [apply filter_sublist|apply selection_sublist].
Qed.

(** X2: whatever the other calls do while it waits (they leave its item
    alone), a call of [downloadImage] answers [true] exactly when it leaves
    the item resolved, that is with the flag set or without locators; and
    after a [true] answer every later call on the item, for any folder,
    files and answers of the network, returns [true] at once without a
    request and without touching anything. *)
Theorem answer_tells_resolved (C : Constants) (E : Env) (dst : string)
    (j : Job) (b : bool) (j1 : Job) :
  Returns (downloadImage C E dst j) b j1 →
  shortCircuits (item j1) = b
  ∧ (b = true →
     ∀ E' dst' fs lg,
       downloadImage C E' dst' (mkJob (item j1) fs lg)
       = Done true (mkJob (item j1) fs lg)).
Proof.
  intros Hret.
  pose proof (until_returns _ _ _ _ (downloadImage_verdict C E dst j) Hret)
    as Hb.
  simpl in Hb. split; [done|]. intros -> E' dst' fs lg.
  by apply downloadImage_skip.
Qed.

(** The post with one image, downloaded while another call adds a file. *)
Lemma answer_tells_resolved_witness :
  let j1 := mkJob (mkItem None ["http://h/a.jpg"] (Some true)
                          (Some ["img/lol/a.jpg"]))
                  ({[ "img/lol/a.jpg" ]} ∪ {[ "img/lol/x" ]})
                  [EvHead "http://h/a.jpg"; EvGet "http://h/a.jpg"] in
  shortCircuits (item j1) = true
  ∧ (true = true →
     ∀ E' dst' fs lg,
       downloadImage demoConstants E' dst' (mkJob (item j1) fs lg)
       = Done true (mkJob (item j1) fs lg)).
Proof.
  apply (answer_tells_resolved demoConstants recoveredEnv "img/lol"
           (mkJob oneImage ∅ [])).
  apply (returns_later _ _
           (mkJob oneImage {[ "img/lol/x" ]} [EvHead "http://h/a.jpg"]));
    [reflexivity|apply empty_subseteq|].
  apply (returns_later _ _
           (mkJob (mkItem None ["http://h/a.jpg"] (Some false) (Some []))
                  {[ "img/lol/x" ]}
                  [EvHead "http://h/a.jpg"; EvGet "http://h/a.jpg"]));
    [reflexivity|reflexivity|].
  apply returns_done.
Defined.

(** X3: when a call left alone gets past the guard and none of the
    downloads it has to make fails (none is pending, or each one is
    answered without error, with status 200 and written), it answers
    [true] and sets the flag; the path of every selected locator is then
    recorded in [imgPaths], and the file of every locator it downloaded
    exists. *)
Theorem all_downloads_succeed (C : Constants) (E : Env) (dst : string)
    (it : Item) (fs : gset string) (lg : list Event) :
  shortCircuits it = false →
  forallb (downloadOk E dst) (pending C E dst it fs) = true →
  ∃ j',
    complete (downloadImage C E dst (mkJob it fs lg)) = (true, j')
    ∧ imgDownloaded (item j') = Some true
    ∧ (∀ u, u ∈ selection C E it → localPath dst u ∈ pathsOf (item j'))
    ∧ (∀ u, u ∈ pending C E dst it fs → localPath dst u ∈ disk j')
    ∧ fs ⊆ disk j'.
Proof.
  intros Hguard Hall.
  destruct (decide (selection C E it = [])) as [Hsel|Hsel].
  { destruct (downloadImage_none C E dst it fs lg Hguard Hsel)
      as (probed & rest & _ & Hrun).
    eexists. split; [exact Hrun|]. simpl. split; [done|].
    unfold pending. rewrite Hsel. simpl.
    split; [|split; [|done]]; intros u Hu; by apply elem_of_nil in Hu. }
  destruct (downloadImage_some C E dst it fs lg Hguard Hsel)
    as (probed & rest & repaired & _ & Hrun & _ & Hcov).
  fold (pending C E dst it fs) in Hrun. rewrite Hall in Hrun.
  eexists. split; [exact Hrun|]. simpl. split; [done|].
  assert (∀ u, u ∈ pending C E dst it fs →
               localPath dst u
                 ∈ fetched E dst (arrivalOrder E (pending C E dst it fs)))
    as Hgot.
  { intros u Hu. apply elem_of_fetched. exists u.
    rewrite arrivalOrder_perm. split; [done|]. split; [|done].
    rewrite forallb_forall in Hall. by apply Hall, list_elem_of_In. }
  split; [|split].
  - intros u Hu. unfold pathsOf. simpl. rewrite !elem_of_app.
    destruct (decide (localPath dst u ∈ pathsOf it)) as [?|Hnp]; [auto|].
    destruct (decide (localPath dst u ∈ fs)) as [Hf|Hnf].
    + specialize (Hcov u Hu Hf). rewrite elem_of_app in Hcov. tauto.
    + right. right. apply Hgot. by apply elem_of_pending.
  - intros u Hu. apply elem_of_union. left.
    by apply elem_of_list_to_set, Hgot.
  - set_solver.
Qed.

(** Three images, all served: the call answers [true]. *)
Lemma all_downloads_succeed_witness :
  ∃ j',
    complete (downloadImage demoConstants recoveredEnv "img/lol"
                (mkJob threeImages ∅ [])) = (true, j')
    ∧ imgDownloaded (item j') = Some true
    ∧ (∀ u, u ∈ selection demoConstants recoveredEnv threeImages →
         localPath "img/lol" u ∈ pathsOf (item j'))
    ∧ (∀ u, u ∈ pending demoConstants recoveredEnv "img/lol" threeImages ∅ →
         localPath "img/lol" u ∈ disk j')
    ∧ (∅ : gset string) ⊆ disk j'.
Proof.
  apply (all_downloads_succeed demoConstants recoveredEnv "img/lol"
           threeImages ∅ []); reflexivity.
Defined.

(** X4: when a call left alone gets past the guard and the probe accepts
    none of the locators (each errors, reports no length or zero, or is
    too large), the call probes every locator once, in order, requests no
    download, sets the flag and answers [true]; [imgPaths], missing or
    not, and the files stay as they were. The post is not probed again. *)
Theorem nothing_fits_resolves (C : Constants) (E : Env) (dst : string)
    (it : Item) (fs : gset string) (lg : list Event) :
  shortCircuits it = false →
  Forall (λ u, accepted E (MAX_IMAGE_SIZE C) u = false) (imgUrls it) →
  complete (downloadImage C E dst (mkJob it fs lg))
  = (true, mkJob (withFlag it true) fs (lg ++ map EvHead (imgUrls it)))
  ∧ ∀ E' dst' fs' lg',
      downloadImage C E' dst' (mkJob (withFlag it true) fs' lg')
      = Done true (mkJob (withFlag it true) fs' lg').
Proof.
  intros Hguard Hnone.
  assert (∀ l, Forall (λ u, accepted E (MAX_IMAGE_SIZE C) u = false) l →
               List.filter (accepted E (MAX_IMAGE_SIZE C)) l = [])
    as Hempty.
  { induction 1 as [|u l Hu _ IH]; simpl; [done|]. by rewrite Hu. }
  split; [|by intros; apply downloadImage_skip].
  destruct (selectLoop_run E (MAX_IMAGE_SIZE C) (maxNumImg C it)
              (imgUrls it) [] it fs lg)
    as (probed & rest & Hsplit & Hrun & _ & Hstop & _).
  assert (Forall (λ u, accepted E (MAX_IMAGE_SIZE C) u = false) probed)
    as Hprobed.
  { rewrite Hsplit in Hnone. by apply Forall_app in Hnone as [? _]. }
  rewrite (Hempty _ Hprobed) in Hrun, Hstop. simpl in Hrun, Hstop.
  pose proof (maxNumImg_bounds C it).
  destruct Hstop as [->|?]; [|lia]. rewrite app_nil_r in Hsplit.
  subst probed.
  unfold downloadImage. simpl. unfold shortCircuits in Hguard.
  rewrite Hguard. simpl. unfold selectImageBySize.
  by rewrite complete_andThen, Hrun.
Qed.

(** Three images of 2 MB each under a budget of 1 MB. *)
Lemma nothing_fits_resolves_witness :
  let E := demoEnv (λ _, 2000000) (λ _, 200) Threw 0 in
  complete (downloadImage demoConstants E "img/lol" (mkJob threeImages ∅ []))
  = (true, mkJob (withFlag threeImages true) ∅
                 ([] ++ map EvHead (imgUrls threeImages)))
  ∧ ∀ E' dst' fs' lg',
      downloadImage demoConstants E' dst'
        (mkJob (withFlag threeImages true) fs' lg')
      = Done true (mkJob (withFlag threeImages true) fs' lg').
Proof.
  apply (nothing_fits_resolves demoConstants
           (demoEnv (λ _, 2000000) (λ _, 200) Threw 0) "img/lol"
           threeImages ∅ []).
  - reflexivity.
  - repeat constructor.
Defined.

(** X5: in whatever state a call of [downloadImage] is seen, suspended or
    returned, with others adding files while it waits, it has changed
    neither the abstract nor the locators of its item, has removed no
    file, has not dropped [imgPaths] once it exists, and has not cleared a
    flag that was set. *)
Theorem call_keeps_post_and_files (C : Constants) (E : Env) (dst : string)
    (j j1 : Job) :
  Observed (downloadImage C E dst j) j1 →
  abstract (item j1) = abstract (item j)
  ∧ imgUrls (item j1) = imgUrls (item j)
  ∧ disk j ⊆ disk j1
  ∧ (is_Some (imgPaths (item j)) → is_Some (imgPaths (item j1)))
  ∧ (truthy (imgDownloaded (item j)) = true →
     truthy (imgDownloaded (item j1)) = true).
Proof.
  intros Hseen.
  destruct (observed_extends _ _ Hseen j j)
    as (Ha & Hu & _ & Hsome & Hdisk).
  { by apply mono_downloadImage. }
  { by apply resumed_extends. }
  do 4 (split; [done|]). intros Hflag.
  destruct j as [it fs lg].
  rewrite (downloadImage_skip C E dst it fs lg) in Hseen.
  - by inversion Hseen.
  - unfold shortCircuits. simpl in Hflag. by rewrite Hflag.
Qed.

(** The call of the three images seen after four responses. *)
Lemma call_keeps_post_and_files_witness :
  let j := mkJob (mkItem None (imgUrls threeImages) (Some false)
                         (Some ["img/lol/img3"]))
                 {[ "img/lol/img3" ]} [] in
  let j1 := (upTo 4 (downloadImage demoConstants recoveredEnv "img/lol" j)).2 in
  abstract (item j1) = abstract (item j)
  ∧ imgUrls (item j1) = imgUrls (item j)
  ∧ disk j ⊆ disk j1
  ∧ (is_Some (imgPaths (item j)) → is_Some (imgPaths (item j1)))
  ∧ (truthy (imgDownloaded (item j)) = true →
     truthy (imgDownloaded (item j1)) = true).
Proof.
  apply (call_keeps_post_and_files demoConstants recoveredEnv "img/lol").
  apply (observed_upTo 4).
Defined.

(** X6: a call of [downloadImage] left alone first probes a prefix of the
    item's locators, in order, and then requests downloads, every probe
    before any download; the downloads are for locators of the item, in
    their order, at most as many as the count budget allows and never
    more than three, and no locator listed once is requested twice. *)
Theorem requests_stay_in_budget (C : Constants) (E : Env) (dst : string)
    (it : Item) (fs : gset string) (lg : list Event) :
  ∃ probed rest todo,
    imgUrls it = probed ++ rest
    ∧ log (complete (downloadImage C E dst (mkJob it fs lg))).2
      = lg ++ map EvHead probed ++ map EvGet todo
    ∧ todo `sublist_of` imgUrls it
    ∧ Z.of_nat (length todo) ≤ maxNumImg C it
    ∧ (length todo ≤ 3)%nat
    ∧ (NoDup (imgUrls it) → NoDup todo).
Proof.
  assert (∀ todo, todo `sublist_of` selection C E it →
            todo `sublist_of` imgUrls it
            ∧ Z.of_nat (length todo) ≤ maxNumImg C it
            ∧ (length todo ≤ 3)%nat
            ∧ (NoDup (imgUrls it) → NoDup todo)) as Hbound.
  { intros todo Hsub.
    assert (todo `sublist_of` imgUrls it) as Hsub'
      by (etrans; [exact Hsub|apply selection_sublist]).
    pose proof (sublist_length _ _ Hsub).
    pose proof (selection_length C E it).
    pose proof (maxNumImg_bounds C it).
    split; [done|]. split; [lia|]. split; [lia|].
    intros Hnd. by apply (sublist_NoDup _ _ Hnd). }
  destruct (shortCircuits it) eqn:Hguard.
  { exists [], (imgUrls it), []. rewrite complete_skip by done. simpl.
    rewrite app_nil_r. do 2 (split; [done|]). apply Hbound, sublist_nil_l. }
  destruct (decide (selection C E it = [])) as [Hsel|Hsel].
  - destruct (downloadImage_none C E dst it fs lg Hguard Hsel)
      as (probed & rest & Hsplit & ->).
    exists probed, rest, []. simpl. rewrite app_nil_r.
    do 2 (split; [done|]). apply Hbound, sublist_nil_l.
  - destruct (downloadImage_some C E dst it fs lg Hguard Hsel)
      as (probed & rest & repaired & Hsplit & -> & _).
    exists probed, rest, (pending C E dst it fs). simpl.
    do 2 (split; [done|]). apply Hbound, filter_sublist.
Qed.

(** X24: the files a call of [downloadImage] left alone creates are
    exactly the local paths of the locators whose download it requested
    and that went through (no error, status 200, written); it writes no
    file for a download that fails, none for a locator it skips, and
    removes none. *)
Theorem files_come_from_downloads (C : Constants) (E : Env) (dst : string)
    (it : Item) (fs : gset string) (lg : list Event) (p : string) :
  p ∈ disk (complete (downloadImage C E dst (mkJob it fs lg))).2
  ↔ p ∈ fs
    ∨ ∃ u, shortCircuits it = false
        ∧ u ∈ pending C E dst it fs
        ∧ downloadOk E dst u = true
        ∧ p = localPath dst u.
Proof.
  destruct (shortCircuits it) eqn:Hguard.
  { rewrite complete_skip by done. simpl. naive_solver. }
  destruct (decide (selection C E it = [])) as [Hsel|Hsel].
  { destruct (downloadImage_none C E dst it fs lg Hguard Hsel)
      as (probed & rest & _ & ->). simpl.
    unfold pending. rewrite Hsel. simpl. split; [auto|].
    intros [?|(u & _ & Hu & _)]; [done|]. by apply elem_of_nil in Hu. }
  destruct (downloadImage_some C E dst it fs lg Hguard Hsel)
    as (probed & rest & repaired & _ & -> & _).
  fold (pending C E dst it fs). simpl.
  rewrite elem_of_union, elem_of_list_to_set, elem_of_fetched.
  split.
  - intros [(u & Hu & Hok & ->)|?]; [right|by left].
    exists u. rewrite arrivalOrder_perm in Hu. done.
  - intros [?|(u & _ & Hu & Hok & ->)]; [by right|left].
    exists u. by rewrite arrivalOrder_perm.
Qed.

(** *** Local paths *)

Lemma string_app_cons c (s1 s2 : string) :
  String c s1 +:+ s2 = String c (s1 +:+ s2).
Proof. done. Qed.

Lemma string_app_assoc (s1 s2 s3 : string) :
  s1 +:+ (s2 +:+ s3) = (s1 +:+ s2) +:+ s3.
Proof.
  induction s1 as [|c s1 IH]; [done|]. by rewrite !string_app_cons, IH.
Qed.

Lemma split_nonempty sep s : split sep s ≠ [].
Proof.
  destruct s as [|c s]; simpl; [done|].
  destruct (Ascii.eqb c sep); [done|]. by destruct (split sep s).
Qed.

(** Splitting and joining again gives the string back. *)
Lemma join_split sep s : join sep (split sep s) = s.
Proof.
  induction s as [|c s IH]; simpl; [done|].
  destruct (Ascii.eqb c sep) eqn:Hc.
  - apply Ascii.eqb_eq in Hc as ->.
    pose proof (split_nonempty sep s).
    destruct (split sep s) as [|hd tl]; [done|]. simpl in *. by rewrite IH.
  - destruct (split sep s) as [|hd [|hd' tl]]; simpl in *; by rewrite <- IH.
Qed.

Lemma split_no_sep sep s :
  Forall (λ part, occurs sep part = false) (split sep s).
Proof.
  induction s as [|c s IH]; simpl; [by repeat constructor|].
  destruct (Ascii.eqb c sep) eqn:Hc; [by constructor|].
  destruct (split sep s) as [|hd tl]; simpl.
  - repeat constructor. simpl. by rewrite Hc.
  - apply Forall_cons in IH as [Hhd Htl]. constructor; [|done].
    simpl. by rewrite Hc.
Qed.

Lemma join_last sep parts :
  parts ≠ [] →
  ∃ pre, join sep parts = pre +:+ List.last parts EmptyString
    ∧ (pre = EmptyString ∨ ∃ q, pre = q +:+ String sep EmptyString).
Proof.
  induction parts as [|x [|y l] IH]; intros Hne; [done|..].
  - exists EmptyString. simpl. auto.
  - destruct IH as (pre & Hjoin & Hpre); [done|].
    exists (x +:+ String sep pre). split.
    + change (join sep (x :: y :: l)) with (x +:+ String sep (join sep (y :: l))).
      change (List.last (x :: y :: l) EmptyString)
        with (List.last (y :: l) EmptyString).
      rewrite Hjoin.
      change (String sep (pre +:+ List.last (y :: l) EmptyString))
        with (String sep pre +:+ List.last (y :: l) EmptyString).
      by rewrite string_app_assoc.
    + right. destruct Hpre as [->|[q ->]].
      * by exists x.
      * exists (x +:+ String sep q).
        change (String sep (q +:+ String sep EmptyString))
          with (String sep q +:+ String sep EmptyString).
        by rewrite string_app_assoc.
Qed.

(** The name a locator is stored under is what follows its last slash. *)
Lemma lastSegment_spec url :
  occurs "/" (lastSegment url) = false
  ∧ ∃ pre, url = pre +:+ lastSegment url
      ∧ (pre = EmptyString ∨ ∃ q, pre = q +:+ "/").
Proof.
  unfold lastSegment. split.
  - pose proof (split_no_sep "/" url) as Hall.
    pose proof (split_nonempty "/" url) as Hne.
    induction Hall as [|x l Hx Hl IH]; [done|].
    destruct l as [|y l]; [done|]. by apply IH.
  - destruct (join_last "/" (split "/" url) (split_nonempty _ _))
      as (pre & Hjoin & Hpre).
    rewrite join_split in Hjoin. by exists pre.
Qed.

(** X7: every path a call of [downloadImage] left alone appends to
    [imgPaths] is [dst], a slash and a name without slash; the name is
    what follows the last slash of a locator of the item that the probe
    accepted (the whole locator if it has no slash). *)
Theorem recorded_paths_lie_in_dst (C : Constants) (E : Env) (dst : string)
    (it : Item) (fs : gset string) (lg : list Event) :
  ∃ added,
    pathsOf (item (complete (downloadImage C E dst (mkJob it fs lg))).2)
    = pathsOf it ++ added
    ∧ Forall (λ p, ∃ url name pre,
                url ∈ imgUrls it
                ∧ accepted E (MAX_IMAGE_SIZE C) url = true
                ∧ url = pre +:+ name
                ∧ (pre = EmptyString ∨ ∃ q, pre = q +:+ "/")
                ∧ occurs "/" name = false
                ∧ p = dst +:+ "/" +:+ name) added.
Proof.
  assert (∀ u, u ∈ selection C E it →
            ∃ url name pre,
              url ∈ imgUrls it
              ∧ accepted E (MAX_IMAGE_SIZE C) url = true
              ∧ url = pre +:+ name
              ∧ (pre = EmptyString ∨ ∃ q, pre = q +:+ "/")
              ∧ occurs "/" name = false
              ∧ localPath dst u = dst +:+ "/" +:+ name) as Hflat.
  { intros u Hu.
    destruct (lastSegment_spec u) as (Hno & pre & Hu' & Hpre).
    exists u, (lastSegment u), pre.
    unfold selection in Hu.
    pose proof (elem_of_sublist _ _ _ Hu (sublist_take _ _)) as Hsel.
    apply list_elem_of_In, filter_In in Hsel as [Hin Hacc].
    by rewrite <- list_elem_of_In in Hin. }
  destruct (shortCircuits it) eqn:Hguard.
  { exists []. rewrite complete_skip by done. simpl.
    by rewrite app_nil_r. }
  destruct (decide (selection C E it = [])) as [Hsel|Hsel].
  { destruct (downloadImage_none C E dst it fs lg Hguard Hsel)
      as (probed & rest & _ & ->).
    exists []. simpl. by rewrite app_nil_r. }
  destruct (downloadImage_some C E dst it fs lg Hguard Hsel)
    as (probed & rest & repaired & _ & -> & Hrep & _).
  fold (pending C E dst it fs).
  exists (repaired ++ fetched E dst (arrivalOrder E (pending C E dst it fs))).
  simpl. split.
  { unfold pathsOf at 1. by rewrite imgPaths_settled. }
  apply Forall_app. split.
  - eapply Forall_impl; [exact Hrep|].
    intros p (_ & _ & u & Hu & ->). by apply Hflat.
  - apply Forall_forall. intros p (u & Hu & _ & ->)%elem_of_fetched.
    rewrite arrivalOrder_perm in Hu.
    apply elem_of_pending in Hu as [Hu _]. by apply Hflat.
Qed.


(** ** Properties of the housekeeping *)

Lemma string_app_length (s1 s2 : string) :
  String.length (s1 +:+ s2) = (String.length s1 + String.length s2)%nat.
Proof.
  induction s1 as [|c s1 IH]; [done|].
  rewrite string_app_cons. simpl. by rewrite IH.
Qed.

Lemma prefix_length (p s : string) :
  String.prefix p s = true → (String.length p ≤ String.length s)%nat.
Proof.
  revert s. induction p as [|c p IH]; intros [|c' s]; simpl; try done.
  - lia.
  - destruct (ascii_dec c c'); [|done]. intros H%IH. lia.
Qed.

Lemma underDir_self dir : underDir dir dir = true.
Proof. unfold underDir. by rewrite String.eqb_refl. Qed.

(** The root of the image folders does not lie in the folder of a name. *)
Lemma root_not_under_imageDir C tiebaName :
  underDir (imageDir C tiebaName) (IMAGE_DOWNLOAD_DIR C) = false.
Proof.
  unfold underDir, imageDir. apply orb_false_intro.
  - apply String.eqb_neq. intros Heq.
    apply (f_equal String.length) in Heq.
    rewrite !string_app_length in Heq. simpl in Heq. lia.
  - apply not_true_is_false. intros Hpre%prefix_length.
    rewrite !string_app_length in Hpre. simpl in Hpre. lia.
Qed.

Section Housekeeping.

Context (C : Constants) (E : Env).

Lemma cannotEnsureDir_spec path fs :
  let r := cannotEnsureDir E path fs in
  (r.1 = false → path ∈ r.2)
  ∧ (r.1 = true → r.2 = fs ∧ (path ∉ fs) ∧ file_mkdir_ok E path = false)
  ∧ fs ⊆ r.2
  ∧ (∀ p, p ∈ r.2 → p ∈ fs ∨ p = path).
Proof.
  unfold cannotEnsureDir, fileMkdir.
  destruct (bool_decide (path ∈ fs)) eqn:Hin; simpl.
  { apply bool_decide_eq_true in Hin. set_solver. }
  apply bool_decide_eq_false in Hin.
  destruct (file_mkdir_ok E path); simpl; set_solver.
Qed.

Lemma elem_of_fileDelete dir fs p :
  p ∈ fileDelete dir fs ↔ p ∈ fs ∧ underDir dir p = false.
Proof. unfold fileDelete. rewrite elem_of_filter. tauto. Qed.

End Housekeeping.

(** X8: when [prepareForImageDownload] answers [true], the folder [dst]
    exists afterwards, and so does the root folder of the images unless it
    lies inside [dst]; for the folder [getEntry] uses for a name, it does
    not. *)
Theorem prepare_ensures_folders (C : Constants) (E : Env) (dst : string)
    (fs : gset string) :
  (prepareForImageDownload C E dst fs).1 = true →
  dst ∈ (prepareForImageDownload C E dst fs).2
  ∧ (underDir dst (IMAGE_DOWNLOAD_DIR C) = false →
     IMAGE_DOWNLOAD_DIR C ∈ (prepareForImageDownload C E dst fs).2)
  ∧ (∀ tiebaName, dst = imageDir C tiebaName →
       IMAGE_DOWNLOAD_DIR C ∈ (prepareForImageDownload C E dst fs).2).
Proof.
  unfold prepareForImageDownload.
  destruct (cannotEnsureDir_spec E (IMAGE_DOWNLOAD_DIR C) fs)
    as (Hroot & _ & _ & _).
  destruct (cannotEnsureDir E (IMAGE_DOWNLOAD_DIR C) fs) as [[] fs1];
    simpl in *; [done|].
  specialize (Hroot eq_refl).
  set (fs2 := match file_mtime E dst with
              | Some lastClearDate =>
                  if IMAGE_CLEAR_INTERVAL C <? clock_prepare E - lastClearDate
                  then fileDelete dst fs1 else fs1
              | None => fs1
              end).
  assert (underDir dst (IMAGE_DOWNLOAD_DIR C) = false →
          IMAGE_DOWNLOAD_DIR C ∈ fs2) as Hkept.
  { intros Hout. unfold fs2. destruct (file_mtime E dst) as [t|]; [|done].
    destruct (_ <? _); [|done]. by apply elem_of_fileDelete. }
  destruct (cannotEnsureDir_spec E dst fs2) as (Hdst & _ & Hsub & _).
  destruct (cannotEnsureDir E dst fs2) as [[] fs3]; simpl in *; [done|].
  intros _. split; [by apply Hdst|].
  assert (underDir dst (IMAGE_DOWNLOAD_DIR C) = false →
          IMAGE_DOWNLOAD_DIR C ∈ fs3) as Hroot3
    by (intros Hout; by apply Hsub, Hkept).
  split; [done|].
  intros tiebaName ->. apply Hroot3, root_not_under_imageDir.
Qed.

(** On an empty disk where folders can be made, both are there afterwards. *)
Lemma prepare_ensures_folders_witness :
  "img/lol" ∈ (prepareForImageDownload demoConstants recoveredEnv
                 "img/lol" ∅).2
  ∧ (underDir "img/lol" (IMAGE_DOWNLOAD_DIR demoConstants) = false →
     IMAGE_DOWNLOAD_DIR demoConstants
       ∈ (prepareForImageDownload demoConstants recoveredEnv "img/lol" ∅).2)
  ∧ (∀ tiebaName, "img/lol" = imageDir demoConstants tiebaName →
       IMAGE_DOWNLOAD_DIR demoConstants
         ∈ (prepareForImageDownload demoConstants recoveredEnv
              "img/lol" ∅).2).
Proof.
  apply (prepare_ensures_folders demoConstants recoveredEnv "img/lol" ∅).
  reflexivity.
Defined.

(** X9: whatever it answers, [prepareForImageDownload] creates nothing but
    the root folder and [dst], and removes nothing outside [dst]; and when
    [dst] is not due for clearing (it has no modification time, or the
    last one is no older than the clearing interval) it removes nothing at
    all. *)
Theorem prepare_touches_only_its_folders (C : Constants) (E : Env)
    (dst : string) (fs : gset string) :
  (∀ p, p ∈ (prepareForImageDownload C E dst fs).2 →
        p ∈ fs ∨ p = IMAGE_DOWNLOAD_DIR C ∨ p = dst)
  ∧ (∀ p, p ∈ fs → underDir dst p = false →
          p ∈ (prepareForImageDownload C E dst fs).2)
  ∧ (match file_mtime E dst with
     | Some lastClearDate =>
         clock_prepare E - lastClearDate ≤ IMAGE_CLEAR_INTERVAL C
     | None => True
     end → fs ⊆ (prepareForImageDownload C E dst fs).2).
Proof.
  unfold prepareForImageDownload.
  destruct (cannotEnsureDir_spec E (IMAGE_DOWNLOAD_DIR C) fs)
    as (_ & _ & Hsub1 & Hnew1).
  destruct (cannotEnsureDir E (IMAGE_DOWNLOAD_DIR C) fs) as [[] fs1];
    simpl in *.
  { split; [intros p Hp; apply Hnew1 in Hp; tauto|].
    split; [|intros _]; set_solver. }
  set (fs2 := match file_mtime E dst with
              | Some lastClearDate =>
                  if IMAGE_CLEAR_INTERVAL C <? clock_prepare E - lastClearDate
                  then fileDelete dst fs1 else fs1
              | None => fs1
              end).
  assert (fs2 ⊆ fs1) as Hsub2.
  { unfold fs2. destruct (file_mtime E dst) as [t|]; [|done].
    destruct (_ <? _); [|done]. intros p Hp.
    by apply elem_of_fileDelete in Hp as [? _]. }
  assert (∀ p, p ∈ fs1 → underDir dst p = false → p ∈ fs2) as Hout.
  { intros p Hp Hnot. unfold fs2.
    destruct (file_mtime E dst) as [t|]; [|done].
    destruct (_ <? _); [|done]. by apply elem_of_fileDelete. }
  destruct (cannotEnsureDir_spec E dst fs2) as (_ & _ & Hsub3 & Hnew3).
  destruct (cannotEnsureDir E dst fs2) as [failed fs3]; simpl in *.
  split; [|split].
  - intros p Hp. apply Hnew3 in Hp as [Hp| ->]; [|auto].
    apply Hsub2, Hnew1 in Hp. tauto.
  - intros p Hp Hnot. apply Hsub3, Hout; [by apply Hsub1|done].
  - intros Hfresh. assert (fs2 = fs1) as Heq; [|set_solver].
    unfold fs2. destruct (file_mtime E dst) as [t|]; [|done].
    by rewrite (proj2 (Z.ltb_ge _ _) Hfresh).
Qed.

(** X10: when [dst] is due for clearing (its last modification is older
    than the clearing interval) and [prepareForImageDownload] answers
    [true], nothing that was in [dst] is left: of the paths in or below
    [dst], only [dst] itself exists afterwards. *)
Theorem prepare_clears_stale_folder (C : Constants) (E : Env)
    (dst : string) (fs : gset string) (lastClearDate : Z) :
  file_mtime E dst = Some lastClearDate →
  IMAGE_CLEAR_INTERVAL C < clock_prepare E - lastClearDate →
  (prepareForImageDownload C E dst fs).1 = true →
  ∀ p, p ∈ (prepareForImageDownload C E dst fs).2 →
       underDir dst p = true → p = dst.
Proof.
  intros Hmtime Hstale. unfold prepareForImageDownload.
  destruct (cannotEnsureDir E (IMAGE_DOWNLOAD_DIR C) fs) as [[] fs1];
    simpl; [done|].
  rewrite Hmtime, (proj2 (Z.ltb_lt _ _) Hstale).
  destruct (cannotEnsureDir_spec E dst (fileDelete dst fs1))
    as (_ & _ & _ & Hnew).
  destruct (cannotEnsureDir E dst (fileDelete dst fs1)) as [[] fs3];
    simpl in *; [done|].
  intros _ p Hp Hunder. apply Hnew in Hp as [Hp| ->]; [|done].
  apply elem_of_fileDelete in Hp as [_ Hnot]. congruence.
Qed.

(** A folder last modified more than a day ago, holding an old image. *)
Lemma prepare_clears_stale_folder_witness :
  file_mtime (agedEnv recoveredEnv) "img/lol" = Some 1000
  ∧ ∀ p, p ∈ (prepareForImageDownload demoConstants (agedEnv recoveredEnv)
                "img/lol" {[ "img"; "img/lol"; "img/lol/old.jpg" ]}).2 →
         underDir "img/lol" p = true → p = "img/lol".
Proof.
  split; [reflexivity|].
  apply (prepare_clears_stale_folder demoConstants (agedEnv recoveredEnv)
           "img/lol" {[ "img"; "img/lol"; "img/lol/old.jpg" ]} 1000);
    reflexivity.
Defined.

(** The same evaluated: the old image is gone, the folders are there. *)
Example stale_folder_scenario :
  prepareForImageDownload demoConstants (agedEnv recoveredEnv) "img/lol"
    {[ "img"; "img/lol"; "img/lol/old.jpg"; "img/other/b.jpg" ]}
  = (true, {[ "img"; "img/lol"; "img/other/b.jpg" ]}).
Proof. vm_compute. reflexivity. Qed.


(** ** What the image pass keeps *)

Lemma itemGrows_refl fs it : itemGrows fs it it.
Proof. repeat split; try done. exists []. by rewrite app_nil_r. Qed.

Lemma itemGrows_mono fs fs' it it' :
  fs ⊆ fs' → itemGrows fs it it' → itemGrows fs' it it'.
Proof.
  intros Hsub (Ha & Hu & (added & Hp & Hd) & Hs).
  repeat split; try done. exists added. split; [done|].
  eapply Forall_impl; [exact Hd|]. intros p Hp'. by apply Hsub.
Qed.

Lemma itemGrows_trans fs it1 it2 it3 :
  itemGrows fs it1 it2 → itemGrows fs it2 it3 → itemGrows fs it1 it3.
Proof.
  intros (Ha & Hu & (p1 & Hp1 & Hd1) & Hs)
         (Ha' & Hu' & (p2 & Hp2 & Hd2) & Hs').
  split; [congruence|]. split; [congruence|]. split; [|auto].
  exists (p1 ++ p2). split; [by rewrite Hp2, Hp1, <- app_assoc|].
  by apply Forall_app.
Qed.

Lemma grows_item j j' : grows j j' → itemGrows (disk j') (item j) (item j').
Proof. intros [? ? ? ? _ _]. by repeat split. Qed.

Lemma callFrom_mono fs fs' it c :
  fs ⊆ fs' → callFrom fs it c → callFrom fs' it c.
Proof. intros Hsub [Hg Hr]. split; [by eapply itemGrows_mono|done]. Qed.

(** Where a run is parked lies a step from where its stretch started. *)
Lemma park_frame (r : Run bool) j0 :
  guar grows j0 r →
  grows j0 (mkJob (itemOf (park r).1) (park r).2.1 (park r).2.2).
Proof.
  destruct r as [v [it fs lg]|[it fs lg] resume]; simpl; [done|].
  by intros [? _].
Qed.

Section PassFrame.

Context (C : Constants) (E : Env) (dst : string).

Lemma startAll_frame its : ∀ fs lg,
  fs ⊆ (startAll C E dst its fs lg).2.1
  ∧ Forall2 (callFrom (startAll C E dst its fs lg).2.1) its
            (startAll C E dst its fs lg).1.
Proof.
  induction its as [|it rest IH]; intros fs lg; simpl; [done|].
  pose proof (park_frame (downloadImage C E dst (mkJob it fs lg))
                (mkJob it fs lg)
                (mono_downloadImage C E dst _ _ (reflexivity _))) as Hpark.
  assert (shortCircuits it = true →
          (park (downloadImage C E dst (mkJob it fs lg))).1
          = Returned true it) as Hskip.
  { intros Hguard. by rewrite downloadImage_skip. }
  destruct (park _) as [c [fs1 lg1]]. simpl in *.
  pose proof (grows_disk _ _ Hpark) as Hdisk. simpl in Hdisk.
  destruct (IH fs1 lg1) as (Hsub & Hrest).
  destruct (startAll C E dst rest fs1 lg1) as [cs [fs2 lg2]]. simpl in *.
  split; [set_solver|]. constructor; [|done].
  apply (callFrom_mono fs1); [done|]. split; [|done].
  by apply (grows_item (mkJob it fs lg) (mkJob (itemOf c) fs1 lg1)).
Qed.

Lemma wake_frame i its cs fs lg :
  Forall callOK cs → Forall2 (callFrom fs) its cs →
  fs ⊆ (wake i cs fs lg).2.1
  ∧ Forall2 (callFrom (wake i cs fs lg).2.1) its (wake i cs fs lg).1.
Proof.
  intros Hok Hfrom. unfold wake.
  destruct (cs !! i) as [[v it'|it' resume]|] eqn:Hi; simpl; try done.
  pose proof (Forall_lookup_1 _ _ _ _ Hok Hi) as (_ & _ & Hguar).
  pose proof (park_frame _ _ (Hguar (mkJob it' fs lg))) as Hpark.
  destruct (park _) as [c [fs1 lg1]]. simpl in *.
  pose proof (grows_disk _ _ Hpark) as Hsub. simpl in Hsub.
  split; [done|].
  destruct (Forall2_lookup_r _ _ _ _ _ Hfrom Hi) as (it & Hit & Hg & Hr).
  rewrite <- (list_insert_id its i it Hit).
  apply Forall2_insert.
  - eapply Forall2_impl; [exact Hfrom|].
    intros ? ? ?. by apply (callFrom_mono fs).
  - split.
    + eapply itemGrows_trans; [by eapply itemGrows_mono|].
      by apply (grows_item (mkJob it' fs lg) (mkJob (itemOf c) fs1 lg1)).
    + intros Hres. by specialize (Hr Hres).
Qed.

Lemma wakeEach_frame arrivals its : ∀ cs fs lg,
  Forall callOK cs → Forall2 (callFrom fs) its cs →
  fs ⊆ (wakeEach arrivals cs fs lg).2.1
  ∧ Forall2 (callFrom (wakeEach arrivals cs fs lg).2.1) its
            (wakeEach arrivals cs fs lg).1.
Proof.
  induction arrivals as [|i rest IH]; intros cs fs lg Hok Hfrom; simpl;
    [done|].
  destruct (wake_ok i cs fs lg Hok) as (Hok1 & _).
  destruct (wake_frame i its cs fs lg Hok Hfrom) as (Hsub1 & Hfrom1).
  destruct (wake i cs fs lg) as [cs1 [fs1 lg1]]. simpl in *.
  destruct (IH cs1 fs1 lg1 Hok1 Hfrom1) as (Hsub2 & Hfrom2).
  split; [set_solver|done].
Qed.

Lemma drain_frame cs : ∀ its fs lg,
  Forall callOK cs → Forall2 (callFrom fs) its cs →
  fs ⊆ (drain cs fs lg).2.1
  ∧ Forall2 (callFrom (drain cs fs lg).2.1) its (drain cs fs lg).1.
Proof.
  induction cs as [|c rest IH]; intros its fs lg Hok Hfrom; simpl.
  { by apply Forall2_nil_inv_r in Hfrom as ->. }
  apply Forall2_cons_inv_r in Hfrom as (it & its' & Hc & Hrest & ->).
  apply Forall_cons in Hok as [Hcok Hrok].
  destruct c as [v it'|it' resume]; simpl in *.
  - destruct (IH its' fs lg Hrok Hrest) as (Hsub & Hfrom').
    destruct (drain rest fs lg) as [cs' [fs' lg']]. simpl in *.
    split; [done|]. constructor; [|done]. by apply (callFrom_mono fs).
  - destruct Hcok as (Hunres & _ & Hguar).
    pose proof (guar_complete grows _ _ (Hguar (mkJob it' fs lg))) as Hg.
    destruct (complete (resume (mkJob it' fs lg))) as [v j]. simpl in *.
    pose proof (grows_disk _ _ Hg) as Hsub. simpl in Hsub.
    destruct (IH its' (disk j) (log j) Hrok) as (Hsub' & Hfrom').
    { eapply Forall2_impl; [exact Hrest|].
      intros ? ? ?. by apply (callFrom_mono fs). }
    destruct (drain rest (disk j) (log j)) as [cs' [fs' lg']]. simpl in *.
    split; [set_solver|]. constructor; [|done].
    destruct Hc as [Hgrow Hres]. split.
    + apply (itemGrows_mono (disk j)); [done|].
      eapply itemGrows_trans; [eapply itemGrows_mono; [exact Hsub|done]|].
      by apply (grows_item (mkJob it' fs lg) j).
    + intros Hguard. by specialize (Hres Hguard).
Qed.

Lemma callFrom_kept fs its cs :
  Forall2 (callFrom fs) its cs → Forall2 (postKept fs) its (itemOf <$> cs).
Proof.
  intros Hfrom. apply Forall2_fmap_r.
  eapply Forall2_impl; [exact Hfrom|].
  intros it c [Hg Hr]. split; [done|]. intros Hres. by rewrite (Hr Hres).
Qed.

(** Whatever the arrivals and the timer, the pass hands back the posts it
    was given, one for one, each a later state of itself and the resolved
    ones untouched; no file is removed. *)
Lemma downloadItems_frame its fs lg arrivals timerFires :
  fs ⊆ (downloadItems C E dst its fs lg arrivals timerFires).2.1.2
  ∧ Forall2 (postKept
               (downloadItems C E dst its fs lg arrivals timerFires).2.1.2)
            its
            (downloadItems C E dst its fs lg arrivals timerFires).2.1.1.
Proof.
  unfold downloadItems.
  destruct (startAll_ok C E dst its fs lg) as (Hok0 & _).
  destruct (startAll_frame its fs lg) as (Hsub0 & Hfrom0).
  destruct (startAll C E dst its fs lg) as [cs0 [fs0 lg0]]. simpl in *.
  destruct (wakeEach_ok arrivals cs0 fs0 lg0 Hok0) as (Hok1 & _).
  destruct (wakeEach_frame arrivals its cs0 fs0 lg0 Hok0 Hfrom0)
    as (Hsub1 & Hfrom1).
  destruct (wakeEach arrivals cs0 fs0 lg0) as [cs1 [fs1 lg1]]. simpl in *.
  destruct (settledResults cs1) as [rs|]; simpl.
  { split; [set_solver|]. by apply callFrom_kept. }
  destruct timerFires; simpl.
  { split; [set_solver|]. by apply callFrom_kept. }
  destruct (drain_frame cs1 its fs1 lg1 Hok1 Hfrom1) as (Hsub2 & Hfrom2).
  destruct (drain cs1 fs1 lg1) as [cs2 [fs2 lg2]]. simpl in *.
  split; [set_solver|]. by apply callFrom_kept.
Qed.

Lemma tryDownloadAll_frame its maxTime partialDownloaded fs lg :
  let r := tryDownloadAllImageWithTimeout C E dst its maxTime
             partialDownloaded fs lg in
  Forall2 (postKept r.2.1.2) its r.2.1.1
  ∧ (if partialDownloaded then fs
     else (prepareForImageDownload C E dst fs).2) ⊆ r.2.1.2.
Proof.
  unfold tryDownloadAllImageWithTimeout, doWithTimeout. simpl.
  assert (∀ fs1,
            let r := downloadItems C E dst its fs1 lg
                       (image_arrivals E maxTime) (image_timer E maxTime) in
            let r' := match r with
                      | (Some downloadResults, st) =>
                          (forallb fulfilledTrue downloadResults, st)
                      | (None, st) => (false, st)
                      end in
            Forall2 (postKept r'.2.1.2) its r'.2.1.1 ∧ fs1 ⊆ r'.2.1.2)
    as Hpass.
  { intros fs1.
    destruct (downloadItems_frame its fs1 lg (image_arrivals E maxTime)
                (image_timer E maxTime)) as (Hsub & Hkept).
    destruct (downloadItems C E dst its fs1 lg _ _)
      as [[results|] [[its' fs'] lg']]; simpl in *; done. }
  assert (Forall2 (postKept (prepareForImageDownload C E dst fs).2) its its)
    as Hsame.
  { apply Forall_Forall2_diag, Forall_forall. intros it _.
    split; [apply itemGrows_refl|done]. }
  destruct partialDownloaded; simpl; [apply Hpass|].
  destruct (prepareForImageDownload C E dst fs) as [[] fs1]; simpl in *;
    [apply Hpass|done].
Qed.

End PassFrame.

(** X11: whatever the order in which responses arrive and whether or not
    the timer fires, [tryDownloadAllImageWithTimeout] hands back as many
    posts as it was given, in the same order, each with its abstract and
    locators unchanged and its recorded paths extended at the end by paths
    of files that exist afterwards; a post that was resolved (flag set, or
    no locators) is handed back exactly as it was. After the housekeeping
    no file is removed, and when the housekeeping fails nothing is
    requested and no post is touched. *)
Theorem pass_keeps_posts (C : Constants) (E : Env) (dst : string)
    (its : list Item) (maxTime : Z) (partialDownloaded : bool)
    (fs : gset string) (lg : list Event) :
  let r := tryDownloadAllImageWithTimeout C E dst its maxTime
             partialDownloaded fs lg in
  let prepared :=
    if partialDownloaded then (true, fs)
    else prepareForImageDownload C E dst fs in
  Forall2 (postKept r.2.1.2) its r.2.1.1
  ∧ prepared.2 ⊆ r.2.1.2
  ∧ (prepared.1 = false → r = (false, (its, prepared.2, lg))).
Proof.
  unfold tryDownloadAllImageWithTimeout, doWithTimeout. simpl.
  destruct (if partialDownloaded then (true, fs)
            else prepareForImageDownload C E dst fs) as [[] fs1]; simpl.
  - destruct (downloadItems_frame C E dst its fs1 lg
                (image_arrivals E maxTime) (image_timer E maxTime))
      as (Hsub & Hkept).
    destruct (downloadItems C E dst its fs1 lg _ _)
      as [[results|] [[its' fs'] lg']]; simpl in *; done.
  - split; [|done].
    apply Forall_Forall2_diag, Forall_forall. intros it _.
    split; [apply itemGrows_refl|done].
Qed.

Section OrchestratorFrame.

Context (C : Constants) (E : Env).

Lemma prepare_keeps_outside dst fs p :
  p ∈ fs → underDir dst p = false →
  p ∈ (prepareForImageDownload C E dst fs).2.
Proof.
  intros Hp Hout. unfold prepareForImageDownload.
  destruct (cannotEnsureDir_spec E (IMAGE_DOWNLOAD_DIR C) fs)
    as (_ & _ & Hsub1 & _).
  destruct (cannotEnsureDir E (IMAGE_DOWNLOAD_DIR C) fs) as [[] fs1];
    simpl in *; [by apply Hsub1|].
  match goal with
  | |- context [cannotEnsureDir E dst ?fs2] =>
      destruct (cannotEnsureDir_spec E dst fs2) as (_ & _ & Hsub3 & _);
      destruct (cannotEnsureDir E dst fs2) as [failed fs3];
      assert (p ∈ fs2) as Hp2
  end.
  { destruct (file_mtime E dst) as [t|]; [|by apply Hsub1].
    destruct (_ <? _); [|by apply Hsub1].
    apply elem_of_fileDelete. split; [by apply Hsub1|done]. }
  simpl in *. by apply Hsub3.
Qed.

(** The pass of [getEntry] and the store write after it: the posts are
    kept, the record is written under the name, and files are removed by
    the housekeeping of a first pass only, inside the folder of the
    name. *)
Lemma passAndStore_frame tiebaName its d partialDownloaded w :
  let r := passAndStore C E tiebaName (imageDir C tiebaName) its d
             partialDownloaded w in
  ∃ its' flag,
    r.1 = mkEntry (Some its') (Some d)
    ∧ store r.2 = <[tiebaName := mkCache (Some its') (Some d) flag]> (store w)
    ∧ Forall2 (postKept (files r.2)) its its'
    ∧ (partialDownloaded = true → files w ⊆ files r.2)
    ∧ (∀ p, p ∈ files w → underDir (imageDir C tiebaName) p = false →
            p ∈ files r.2)
    ∧ history w `prefix_of` history r.2.
Proof.
  unfold passAndStore.
  destruct (tryDownloadAll_verdict C E (imageDir C tiebaName) its
              (IMAGE_TIMEOUT C) partialDownloaded (files w) (history w))
    as (its0 & fs0 & evs & Hrun & _).
  pose proof (tryDownloadAll_frame C E (imageDir C tiebaName) its
                (IMAGE_TIMEOUT C) partialDownloaded (files w) (history w))
    as Hframe.
  simpl in Hframe. rewrite Hrun in *. simpl in *.
  destruct Hframe as (Hkept & Hsub).
  exists its0. eexists. split; [done|]. split; [done|]. split; [done|].
  split; [|split].
  - intros ->. done.
  - intros p Hp Hout. apply Hsub. destruct partialDownloaded; [done|].
    by apply prepare_keeps_outside.
  - unfold cacheSet. simpl. rewrite <- app_assoc. by eexists.
Qed.

End OrchestratorFrame.


(** ** Further properties of the orchestrator *)

Section OrchestratorFacts.

Context (C : Constants) (E : Env).

(** A fresh record whose images are complete is returned as it is, and
    nothing else happens. *)
Lemma getEntry_reads tiebaName w its d :
  tiebaName ≠ EmptyString →
  store w !! tiebaName = Some (mkCache (Some its) (Some d) true) →
  clock_check E - d
  < default (DEFAULT_REFRESH_CIRCLE C) (prefs_refresh_circle E) * 60000 →
  getEntry C E tiebaName false w = (mkEntry (Some its) (Some d), w).
Proof.
  intros Hname Hc Hfresh. unfold getEntry.
  rewrite bool_decide_eq_false_2 by done. rewrite Hc. simpl.
  by rewrite (proj2 (Z.ltb_lt _ _) Hfresh).
Qed.

(** The record an invocation writes is the one the store holds under the
    name afterwards, and it carries what the invocation returns. *)
Lemma stored_record tiebaName forceLoad w key r :
  EvCacheSet key r ∈ issued w (getEntry C E tiebaName forceLoad w).2 →
  key = tiebaName ∧ tiebaName ≠ EmptyString
  ∧ store (getEntry C E tiebaName forceLoad w).2 !! tiebaName = Some r
  ∧ ∃ its d, items r = Some its ∧ date r = Some d
      ∧ (getEntry C E tiebaName forceLoad w).1 = mkEntry (Some its) (Some d).
Proof.
  intros Hset.
  destruct (decide (tiebaName = EmptyString)) as [->|Hname].
  { unfold getEntry in Hset. simpl in Hset.
    rewrite issued_same in Hset. by apply elem_of_nil in Hset. }
  destruct (getEntry_course C E tiebaName forceLoad w Hname)
    as [its d flag Hforce Hvalid Hc|its Hwhy Hget|e Hwhy Hget _ _].
  - destruct flag; simpl in *.
    { rewrite issued_same in Hset. by apply elem_of_nil in Hset. }
    destruct (passAndStore_run C E tiebaName its d true w)
      as (its' & fs' & evs & Hrun & Hhttp).
    simpl in Hrun. rewrite Hrun in *. simpl in *.
    rewrite issued_app in Hset.
    apply elem_of_app in Hset as [Hin|Hin%list_elem_of_singleton].
    { by apply (proj1 (Forall_forall _ _) Hhttp) in Hin. }
    injection Hin as -> ->. do 2 (split; [done|]).
    split; [by rewrite lookup_insert_eq|]. by exists its', d.
  - destruct (passAndStore_run C E tiebaName its (clock_fetched E) false
                (mkWorld (files w) (store w)
                         (history w ++ [EvFetch tiebaName])))
      as (its' & fs' & evs & Hrun & Hhttp).
    simpl in Hrun. rewrite Hrun in *. simpl in *.
    rewrite <- app_assoc, issued_app in *.
    apply elem_of_app in Hset as [Hin|Hin]; [set_solver|].
    apply elem_of_app in Hin as [Hin|Hin%list_elem_of_singleton].
    { by apply (proj1 (Forall_forall _ _) Hhttp) in Hin. }
    injection Hin as -> ->. do 2 (split; [done|]).
    split; [by rewrite lookup_insert_eq|]. by exists its', (clock_fetched E).
  - simpl in Hset. rewrite issued_app in Hset. set_solver.
Qed.

End OrchestratorFacts.

(** X12: an invocation of [getEntry] leaves the records stored under other
    names as they are, keeps the history written so far, and removes no
    file outside the image folder of its name; unless it calls the remote
    client it removes no file at all. *)
Theorem invocation_touches_only_its_name (C : Constants) (E : Env)
    (tiebaName : string) (forceLoad : bool) (w : World) :
  let r := getEntry C E tiebaName forceLoad w in
  (∀ key, key ≠ tiebaName → store r.2 !! key = store w !! key)
  ∧ history w `prefix_of` history r.2
  ∧ (∀ p, p ∈ files w → underDir (imageDir C tiebaName) p = false →
          p ∈ files r.2)
  ∧ (EvFetch tiebaName ∉ issued w r.2 → files w ⊆ files r.2).
Proof.
  simpl.
  destruct (decide (tiebaName = EmptyString)) as [->|Hname].
  { unfold getEntry. simpl. done. }
  pose proof (fetch_issued_iff C E tiebaName forceLoad w Hname) as Hiff.
  destruct (getEntry_course C E tiebaName forceLoad w Hname)
    as [its d flag Hforce Hvalid Hc|its Hwhy Hget|e Hwhy Hget _ _].
  - destruct flag; [done|].
    destruct (passAndStore_frame C E tiebaName its d true w)
      as (its' & flag & _ & Hstore & _ & Hfiles & Hout & Hhist).
    split; [|by auto]. intros key Hkey.
    by rewrite Hstore, lookup_insert_ne.
  - destruct (passAndStore_frame C E tiebaName its (clock_fetched E) false
                (mkWorld (files w) (store w)
                         (history w ++ [EvFetch tiebaName])))
      as (its' & flag & _ & Hstore & _ & _ & Hout & Hhist).
    simpl in *. split; [|split; [|split; [done|]]].
    + intros key Hkey. by rewrite Hstore, lookup_insert_ne.
    + etrans; [|exact Hhist]. by apply prefix_app_r.
    + intros Hno. exfalso. by apply Hno, Hiff.
  - simpl. split; [done|]. split; [by apply prefix_app_r|done].
Qed.

(** X13: [getEntry] returns items and date together: [info] is [null]
    exactly when the date is. *)
Theorem entry_fields_go_together (C : Constants) (E : Env)
    (tiebaName : string) (forceLoad : bool) (w : World) :
  info (getEntry C E tiebaName forceLoad w).1 = None
  ↔ entryDate (getEntry C E tiebaName forceLoad w).1 = None.
Proof.
  destruct (decide (tiebaName = EmptyString)) as [->|Hname].
  { unfold getEntry. simpl. done. }
  destruct (getEntry_course C E tiebaName forceLoad w Hname)
    as [its d flag Hforce Hvalid Hc|its Hwhy Hget|e Hwhy Hget Huse Hnone].
  - destruct flag; [done|].
    destruct (passAndStore_frame C E tiebaName its d true w)
      as (its' & flag & -> & _). done.
  - destruct (passAndStore_frame C E tiebaName its (clock_fetched E) false
                (mkWorld (files w) (store w)
                         (history w ++ [EvFetch tiebaName])))
      as (its' & flag & -> & _). done.
  - simpl.
    destruct (store w !! tiebaName) as [[[its|] [d|] flag]|] eqn:Hc.
    1: rewrite (Huse its d); [done|]; by eexists.
    all: rewrite Hnone; [done|];
      intros (its' & d' & c & Hc' & Hi & Hd); by simplify_eq/=.
Qed.

(** X14: when the remote client is called and delivers posts, the
    invocation returns and stores, under the name and with the time of the
    fetch, as many posts as were delivered, in the same order, each with
    its abstract and locators unchanged; whatever record was stored before
    is replaced, also when the image pass fails or is cut short. *)
Theorem fetched_posts_are_stored (C : Constants) (E : Env)
    (tiebaName : string) (forceLoad : bool) (w : World) (its : list Item) :
  tiebaName ≠ EmptyString →
  forceLoad = true
  ∨ isCacheValid C E (store w !! tiebaName) (clock_check E) = false →
  tryGetTiebaPostWithTimeout E tiebaName (POST_INFO_TIMEOUT C)
    (MAX_NUMBER_OF_POST C) = Some its →
  ∃ its' flag,
    (getEntry C E tiebaName forceLoad w).1
    = mkEntry (Some its') (Some (clock_fetched E))
    ∧ store (getEntry C E tiebaName forceLoad w).2 !! tiebaName
      = Some (mkCache (Some its') (Some (clock_fetched E)) flag)
    ∧ length its' = length its
    ∧ Forall2 (postKept (files (getEntry C E tiebaName forceLoad w).2))
              its its'.
Proof.
  intros Hname Hwhy Hget.
  destruct (getEntry_course C E tiebaName forceLoad w Hname)
    as [its0 d flag Hforce Hvalid Hc|its0 _ Hget0|e _ Hget0 _ _].
  - destruct Hwhy; congruence.
  - assert (its0 = its) as -> by congruence.
    destruct (passAndStore_frame C E tiebaName its (clock_fetched E) false
                (mkWorld (files w) (store w)
                         (history w ++ [EvFetch tiebaName])))
      as (its' & flag & Hentry & Hstore & Hkept & _).
    simpl in *. exists its', flag. split; [done|].
    split; [by rewrite Hstore, lookup_insert_eq|].
    split; [|done]. symmetry. by eapply Forall2_length.
  - congruence.
Qed.

(** A forced reload that delivers a text post and a post with one image. *)
Lemma fetched_posts_are_stored_witness :
  let E := demoEnv (λ _, 1) (λ _, 200)
                   (Resolved (Some [textPost; oneImage])) 1000 in
  ∃ its' flag,
    (getEntry demoConstants E "lol" true emptyWorld).1
    = mkEntry (Some its') (Some (clock_fetched E))
    ∧ store (getEntry demoConstants E "lol" true emptyWorld).2 !! "lol"
      = Some (mkCache (Some its') (Some (clock_fetched E)) flag)
    ∧ length its' = length [textPost; oneImage]
    ∧ Forall2 (postKept (files (getEntry demoConstants E "lol" true
                                  emptyWorld).2))
              [textPost; oneImage] its'.
Proof.
  apply (fetched_posts_are_stored demoConstants
           (demoEnv (λ _, 1) (λ _, 200)
                    (Resolved (Some [textPost; oneImage])) 1000)
           "lol" true emptyWorld [textPost; oneImage]).
  - discriminate.
  - by left.
  - reflexivity.
Defined.

(** X15: an invocation that follows one that stored a record, for the
    same name, without a forced reload and while the record is fresh,
    does not call the remote client and removes no file; if the stored
    record says that all images are there, it returns what the first
    invocation returned and changes nothing at all. *)
Theorem next_invocation_reuses (C : Constants) (E E' : Env)
    (tiebaName : string) (forceLoad : bool) (w : World) (r : CacheRecord) :
  let first := getEntry C E tiebaName forceLoad w in
  let second := getEntry C E' tiebaName false first.2 in
  EvCacheSet tiebaName r ∈ issued w first.2 →
  (∀ d, date r = Some d →
     clock_check E' - d
     < default (DEFAULT_REFRESH_CIRCLE C) (prefs_refresh_circle E') * 60000) →
  (EvFetch tiebaName ∉ issued first.2 second.2)
  ∧ files first.2 ⊆ files second.2
  ∧ (imgAllDownloaded r = true → second = (first.1, first.2)).
Proof.
  intros first second Hset Hfresh. subst first second.
  destruct (stored_record C E tiebaName forceLoad w tiebaName r Hset)
    as (_ & Hname & Hstore & its & d & Hits & Hdate & Hentry).
  set (w1 := (getEntry C E tiebaName forceLoad w).2) in *.
  assert (isCacheValid C E' (store w1 !! tiebaName) (clock_check E') = true)
    as Hvalid.
  { apply isCacheValid_usable. exists its, d. split; [by exists r|].
    by apply Hfresh. }
  assert (EvFetch tiebaName ∉ issued w1 (getEntry C E' tiebaName false w1).2)
    as Hnofetch.
  { rewrite (fetch_issued_iff C E' tiebaName false w1 Hname).
    intros [?|?]; congruence. }
  split; [done|]. split.
  - destruct (getEntry_course C E' tiebaName false w1 Hname)
      as [its0 d0 flag _ _ Hc|its0 Hwhy _|e Hwhy _ _ _].
    + destruct flag; [done|].
      by destruct (passAndStore_frame C E' tiebaName its0 d0 true w1)
        as (? & ? & _ & _ & _ & Hfiles & _); apply Hfiles.
    + destruct Hwhy; congruence.
    + destruct Hwhy; congruence.
  - intros Hflag. rewrite Hentry.
    apply getEntry_reads; [done| |by apply Hfresh].
    rewrite Hstore. destruct r as [its0 d0 flag]. simpl in *. by subst.
Qed.

(** A first fetch of a post without images, and the next invocation a
    second later. *)
Lemma next_invocation_reuses_witness :
  let E := demoEnv (λ _, 1) (λ _, 200) (Resolved (Some [textPost])) 1000 in
  let E' := demoEnv (λ _, 1) (λ _, 200) Threw 2000 in
  let first := getEntry demoConstants E "lol" false emptyWorld in
  let second := getEntry demoConstants E' "lol" false first.2 in
  (EvFetch "lol" ∉ issued first.2 second.2)
  ∧ files first.2 ⊆ files second.2
  ∧ (imgAllDownloaded (mkCache (Some [textPost]) (Some 1000) true) = true →
     second = (first.1, first.2)).
Proof.
  apply (next_invocation_reuses demoConstants
           (demoEnv (λ _, 1) (λ _, 200) (Resolved (Some [textPost])) 1000)
           (demoEnv (λ _, 1) (λ _, 200) Threw 2000)
           "lol" false emptyWorld
           (mkCache (Some [textPost]) (Some 1000) true)).
  - vm_compute. apply list_elem_of_further, list_elem_of_here.
  - intros d [= <-]. vm_compute. reflexivity.
Defined.

(** X16: the freshness test only gets harder to pass as time goes by: a
    record that is fresh at some time is fresh at every earlier time, and
    a record that is stale stays stale. *)
Theorem freshness_wears_off (C : Constants) (E : Env)
    (cache : option CacheRecord) (now later : Z) :
  now ≤ later →
  (isCacheValid C E cache later = true → isCacheValid C E cache now = true)
  ∧ (isCacheValid C E cache now = false →
     isCacheValid C E cache later = false).
Proof.
  intros Hle.
  assert (isCacheValid C E cache later = true →
          isCacheValid C E cache now = true) as Hback.
  { rewrite !isCacheValid_usable.
    intros (its & d & Huse & Hlt). exists its, d. split; [done|lia]. }
  split; [done|]. intros Hstale. apply not_true_is_false.
  intros Hfresh%Hback. congruence.
Qed.

(** A record captured at time 0, ten and forty minutes later. *)
Lemma freshness_wears_off_witness :
  let E := demoEnv (λ _, 1) (λ _, 200) Threw 0 in
  let cache := Some (mkCache (Some [textPost]) (Some 0) true) in
  (isCacheValid demoConstants E cache 2400000 = true →
   isCacheValid demoConstants E cache 600000 = true)
  ∧ (isCacheValid demoConstants E cache 600000 = false →
     isCacheValid demoConstants E cache 2400000 = false).
Proof.
  apply (freshness_wears_off demoConstants
           (demoEnv (λ _, 1) (λ _, 200) Threw 0)
           (Some (mkCache (Some [textPost]) (Some 0) true)) 600000 2400000).
  lia.
Defined.

(** X17: a refresh interval set to zero or less in the preferences is
    taken as it is, not replaced by the default: no record captured up to
    now passes the freshness test, so every invocation for a non-empty
    name calls the remote client. *)
Theorem zero_interval_always_fetches (C : Constants) (E : Env)
    (tiebaName : string) (forceLoad : bool) (w : World) (interval : Z) :
  tiebaName ≠ EmptyString →
  prefs_refresh_circle E = Some interval →
  interval ≤ 0 →
  (∀ c d, store w !! tiebaName = Some c → date c = Some d →
          d ≤ clock_check E) →
  isCacheValid C E (store w !! tiebaName) (clock_check E) = false
  ∧ EvFetch tiebaName ∈ issued w (getEntry C E tiebaName forceLoad w).2.
Proof.
  intros Hname Hpref Hle Hpast.
  assert (isCacheValid C E (store w !! tiebaName) (clock_check E) = false)
    as Hstale.
  { apply not_true_is_false.
    intros (its & d & (c & Hc & _ & Hd) & Hlt)%isCacheValid_usable.
    rewrite Hpref in Hlt. simpl in Hlt.
    specialize (Hpast c d Hc Hd). lia. }
  split; [done|]. apply fetch_issued_iff; auto.
Qed.

(** A record captured this very moment, under an interval of zero. *)
Lemma zero_interval_always_fetches_witness :
  let E := withInterval 0 (demoEnv (λ _, 1) (λ _, 200) Threw 1000) in
  let w := worldWith (mkCache (Some [donePost]) (Some 1000) true) in
  isCacheValid demoConstants E (store w !! "lol") (clock_check E) = false
  ∧ EvFetch "lol" ∈ issued w (getEntry demoConstants E "lol" false w).2.
Proof.
  apply (zero_interval_always_fetches demoConstants
           (withInterval 0 (demoEnv (λ _, 1) (λ _, 200) Threw 1000))
           "lol" false
           (worldWith (mkCache (Some [donePost]) (Some 1000) true)) 0).
  - discriminate.
  - reflexivity.
  - lia.
  - intros c d Hc Hd. vm_compute in Hc. injection Hc as <-.
    injection Hd as <-. vm_compute. discriminate.
Defined.


(** ** Properties of the settings screen *)

Lemma isWidgetOption_spec v :
  isWidgetOption v = true ↔
  ∃ value, value ≠ EmptyString
    ∧ getField "name" v = Some (JString (value +:+ BA))
    ∧ getField "value" v = Some (JString value).
Proof.
  unfold isWidgetOption, nonEmptyString. split.
  - destruct (getField "name" v) as [[| | |[|c n]| |]|]; try done.
    destruct (getField "value" v) as [[| | |[|c' x]| |]|]; try done.
    intros ->%String.eqb_eq. by exists (String c' x).
  - intros (value & Hne & -> & ->). destruct value as [|c x]; [done|].
    rewrite string_app_cons. apply String.eqb_refl.
Qed.

Lemma isWidgetOption_optionFor newTiebaName :
  newTiebaName ≠ EmptyString →
  isWidgetOption (optionFor newTiebaName) = true.
Proof. intros Hne. apply isWidgetOption_spec. by exists newTiebaName. Qed.

Lemma filter_all {A} (f : A → bool) (l : list A) :
  Forall (λ x, f x = true) l → List.filter f l = l.
Proof.
  induction 1 as [|x l Hx _ IH]; simpl; [done|]. by rewrite Hx, IH.
Qed.

Lemma filter_Forall {A} (f : A → bool) (l : list A) :
  Forall (λ x, f x = true) (List.filter f l).
Proof.
  apply Forall_forall. intros x Hx.
  by apply list_elem_of_In, filter_In in Hx as [_ ?].
Qed.

(** X18: [loadWidgetOptions] returns the parsed array with the entries
    taken out that the filter rejects, the others staying as often as they
    occur and in their order; the filter keeps an entry exactly when it is
    an object whose [value] is a non-empty string and whose [name] is that
    string followed by the suffix. What is parsed but is no array gives no
    option. Loading what was loaded changes nothing. *)
Theorem loaded_options_are_wellformed (parsed : JValue)
    (opts : list JValue) :
  loadWidgetOptions (Some parsed) = Some opts →
  (∀ elements, parsed = JArray elements →
     opts = List.filter isWidgetOption elements)
  ∧ (∀ v, isWidgetOption v = true ↔
          ∃ value, value ≠ EmptyString
            ∧ getField "name" v = Some (JString (value +:+ BA))
            ∧ getField "value" v = Some (JString value))
  ∧ Forall (λ v, ∃ value, value ≠ EmptyString
                   ∧ getField "name" v = Some (JString (value +:+ BA))
                   ∧ getField "value" v = Some (JString value)) opts
  ∧ (∀ elements, parsed = JArray elements →
       opts `sublist_of` elements
       ∧ (∀ pre v post, elements = pre ++ v :: post →
            isWidgetOption v = true →
            opts = List.filter isWidgetOption pre
                   ++ v :: List.filter isWidgetOption post)
       ∧ (Forall (λ v, isWidgetOption v = true) elements → opts = elements))
  ∧ ((∀ elements, parsed ≠ JArray elements) → opts = [])
  ∧ loadWidgetOptions (Some (JArray opts)) = Some opts.
Proof.
  intros Hload.
  assert (Forall (λ v, isWidgetOption v = true) opts) as Hall.
  { destruct parsed; simpl in Hload; simplify_eq; try done.
    apply filter_Forall. }
  split; [|split; [|split; [|split; [|split]]]].
  - intros elements ->. simpl in Hload. by simplify_eq.
  - apply isWidgetOption_spec.
  - eapply Forall_impl; [exact Hall|]. intros v. by apply isWidgetOption_spec.
  - intros elements ->. simpl in Hload. simplify_eq.
    split; [apply filter_sublist|]. split.
    + intros pre v post -> Hok. rewrite List.filter_app. simpl. by rewrite Hok.
    + apply filter_all.
  - intros Hno. destruct parsed; simpl in Hload; simplify_eq; try done.
    by destruct (Hno elements).
  - simpl. by rewrite filter_all.
Qed.

(** The file with five entries: the second, third and fourth are dropped. *)
Lemma loaded_options_are_wellformed_witness :
  let opts := [optionFor "lol"; optionFor "go"] in
  (∀ elements, optionsFile = JArray elements →
     opts = List.filter isWidgetOption elements)
  ∧ (∀ v, isWidgetOption v = true ↔
          ∃ value, value ≠ EmptyString
            ∧ getField "name" v = Some (JString (value +:+ BA))
            ∧ getField "value" v = Some (JString value))
  ∧ Forall (λ v, ∃ value, value ≠ EmptyString
                   ∧ getField "name" v = Some (JString (value +:+ BA))
                   ∧ getField "value" v = Some (JString value)) opts
  ∧ (∀ elements, optionsFile = JArray elements →
       opts `sublist_of` elements
       ∧ (∀ pre v post, elements = pre ++ v :: post →
            isWidgetOption v = true →
            opts = List.filter isWidgetOption pre
                   ++ v :: List.filter isWidgetOption post)
       ∧ (Forall (λ v, isWidgetOption v = true) elements → opts = elements))
  ∧ ((∀ elements, optionsFile ≠ JArray elements) → opts = [])
  ∧ loadWidgetOptions (Some (JArray opts)) = Some opts.
Proof.
  apply (loaded_options_are_wellformed optionsFile
           [optionFor "lol"; optionFor "go"]).
  reflexivity.
Defined.

(** An entry that occurs twice is loaded twice. *)
Example repeated_option_scenario :
  loadWidgetOptions (Some (JArray [optionFor "lol"; JNull; optionFor "lol"]))
  = Some [optionFor "lol"; optionFor "lol"].
Proof. reflexivity. Qed.

Lemma hasValue_spec newTiebaName v :
  hasValue newTiebaName v = true
  ↔ getField "value" v = Some (JString newTiebaName).
Proof.
  unfold hasValue.
  destruct (getField "value" v) as [[| | |x| |]|]; try (split; done).
  rewrite String.eqb_eq. split; [by intros ->|by intros [= ->]].
Qed.

Lemma existsb_hasValue newTiebaName (opts : list JValue) :
  existsb (hasValue newTiebaName) opts = false
  ↔ ∀ v, v ∈ opts → getField "value" v ≠ Some (JString newTiebaName).
Proof.
  rewrite <- not_true_iff_false, existsb_exists. split.
  - intros Hno v Hv Hval. apply Hno. exists v.
    split; [by apply list_elem_of_In|by apply hasValue_spec].
  - intros Hno (v & Hv%list_elem_of_In & Hval%hasValue_spec).
    by apply (Hno v).
Qed.

(** X19: [onAdd] accepts a name exactly when it is not empty and no option
    of the screen has it as its value. A rejected name changes nothing and
    nothing is written. An accepted name is appended as the last option,
    shown with the suffix; the list then shows the names of all options,
    and the file is written from them (if the write fails, the answer is
    [true] all the same and the file is as before). *)
Theorem onAdd_appends_new_names (write_ok : list JValue → bool)
    (newTiebaName : string) (s : Screen) :
  let r := onAdd write_ok newTiebaName s in
  (r.1 = true ↔
   newTiebaName ≠ EmptyString
   ∧ ∀ v, v ∈ options s → getField "value" v ≠ Some (JString newTiebaName))
  ∧ (r.1 = false → r.2 = s)
  ∧ (r.1 = true →
     options r.2 = options s ++ [optionFor newTiebaName]
     ∧ listData r.2 = getField "name" <$> options r.2
     ∧ savedOptions r.2
       = if write_ok (options r.2) then Some (options r.2)
         else savedOptions s).
Proof.
  unfold onAdd, saveWidgetOptions.
  destruct newTiebaName as [|c n]; simpl.
  { split; [|done]. split; [done|]. by intros [? _]. }
  destruct (existsb (hasValue (String c n)) (options s)) eqn:Hdup; simpl.
  { split; [|done]. split; [done|]. intros [_ Hno].
    apply existsb_hasValue in Hno. congruence. }
  pose proof (proj1 (existsb_hasValue _ _) Hdup) as Hno.
  split; [by split|]. split; [done|]. intros _.
  destruct (write_ok (options s ++ [optionFor (String c n)])) eqn:Hw;
    simpl; by rewrite Hw.
Qed.

(** X20: [onRemove] for the row of an existing option takes out exactly
    that option: those before and after it stay, in their order; the list
    loses the same row, so that it still shows the names of the options if
    it did before; and the file is written from what is left. *)
Theorem onRemove_drops_one_entry (write_ok : list JValue → bool)
    (deletingIdx : nat) (s : Screen) :
  (deletingIdx < length (options s))%nat →
  let s' := onRemove write_ok deletingIdx s in
  options s'
  = take deletingIdx (options s) ++ drop (S deletingIdx) (options s)
  ∧ S (length (options s')) = length (options s)
  ∧ (listData s = getField "name" <$> options s →
     listData s' = getField "name" <$> options s')
  ∧ savedOptions s'
    = if write_ok (options s') then Some (options s') else savedOptions s.
Proof.
  intros Hidx. unfold onRemove, saveWidgetOptions.
  assert (S (length (delete deletingIdx (options s))) = length (options s))
    as Hlen.
  { rewrite length_delete; [lia|]. by apply lookup_lt_is_Some. }
  destruct (write_ok (delete deletingIdx (options s))) eqn:Hw; simpl;
    rewrite Hw;
    (split; [apply delete_take_drop|]; split; [done|]; split; [|done];
     intros Hrows; by rewrite list_fmap_delete, <- Hrows).
Qed.

(** The second of three options is removed. *)
Lemma onRemove_drops_one_entry_witness :
  let s := mkScreen [optionFor "a"; optionFor "b"; optionFor "c"]
             (getField "name"
                <$> [optionFor "a"; optionFor "b"; optionFor "c"]) None in
  let s' := onRemove (λ _, true) 1 s in
  options s' = take 1 (options s) ++ drop 2 (options s)
  ∧ S (length (options s')) = length (options s)
  ∧ (listData s = getField "name" <$> options s →
     listData s' = getField "name" <$> options s')
  ∧ savedOptions s'
    = if (λ _ : list JValue, true) (options s') then Some (options s')
      else savedOptions s.
Proof.
  apply (onRemove_drops_one_entry (λ _, true) 1
           (mkScreen [optionFor "a"; optionFor "b"; optionFor "c"]
              (getField "name"
                 <$> [optionFor "a"; optionFor "b"; optionFor "c"]) None)).
  simpl. lia.
Defined.

Section ScreenInvariant.

Context (write_ok : list JValue → bool).

Lemma valueOf_optionFor newTiebaName :
  valueOf (optionFor newTiebaName) = Some newTiebaName.
Proof. done. Qed.

Lemma saved_after opts s :
  savedOptions (saveWidgetOptions write_ok opts s).2 = Some opts
  ∨ savedOptions (saveWidgetOptions write_ok opts s).2 = savedOptions s.
Proof. unfold saveWidgetOptions. destruct (write_ok opts); auto. Qed.

Lemma kept_after opts s :
  options (saveWidgetOptions write_ok opts s).2 = options s
  ∧ listData (saveWidgetOptions write_ok opts s).2 = listData s.
Proof. unfold saveWidgetOptions. by destruct (write_ok opts). Qed.

(** What every screen of a run satisfies. *)
Lemma shown_invariant parsed s :
  Shown write_ok parsed s →
  Forall (λ v, isWidgetOption v = true) (options s)
  ∧ listData s = getField "name" <$> options s
  ∧ (∀ o, savedOptions s = Some o → Forall (λ v, isWidgetOption v = true) o)
  ∧ (NoDup (valueOf <$> options (mainJSBox parsed)) →
     NoDup (valueOf <$> options s)).
Proof.
  induction 1 as [|n s _ (Hall & Hrows & Hsaved & Hnd)
                  |idx s _ (Hall & Hrows & Hsaved & Hnd) Hidx].
  - split; [|done]. unfold mainJSBox. simpl.
    destruct parsed as [[| | | |elements|]|]; simpl; try done.
    apply filter_Forall.
  - unfold onAdd.
    destruct (String.length n =? 0)%nat eqn:Hlen; simpl; [done|].
    destruct (existsb (hasValue n) (options s)) eqn:Hdup; simpl; [done|].
    assert (n ≠ EmptyString) as Hne by (by intros ->).
    set (opts := options s ++ [optionFor n]).
    set (s1 := mkScreen opts (getField "name" <$> opts) (savedOptions s)).
    destruct (kept_after opts s1) as [-> ->].
    assert (Forall (λ v, isWidgetOption v = true) opts) as Hall'.
    { apply Forall_app. split; [done|].
      repeat constructor. by apply isWidgetOption_optionFor. }
    split; [done|]. split; [done|]. split.
    + intros o Ho. destruct (saved_after opts s1) as [Heq|Heq];
        rewrite Heq in Ho; [by simplify_eq|by apply Hsaved].
    + intros Hstart. simpl. unfold opts. rewrite fmap_app. simpl.
      apply NoDup_app. split; [by apply Hnd|]. split; [|apply NoDup_singleton].
      intros x Hx ->%list_elem_of_singleton.
      apply list_elem_of_fmap in Hx as (v & Hv & Hin).
      apply (proj1 (existsb_hasValue _ _) Hdup v Hin).
      rewrite valueOf_optionFor in Hv. unfold valueOf in Hv.
      destruct (getField "value" v) as [[| | |x| |]|]; by simplify_eq.
  - unfold onRemove.
    set (opts := delete idx (options s)).
    set (s1 := mkScreen opts (delete idx (listData s)) (savedOptions s)).
    destruct (kept_after opts s1) as [-> ->].
    assert (Forall (λ v, isWidgetOption v = true) opts) as Hall'.
    { by apply Forall_delete. }
    split; [done|]. split.
    { simpl. unfold opts. by rewrite list_fmap_delete, Hrows. }
    split.
    + intros o Ho. destruct (saved_after opts s1) as [Heq|Heq];
        rewrite Heq in Ho; [by simplify_eq|by apply Hsaved].
    + intros Hstart. simpl. unfold opts. rewrite list_fmap_delete.
      eapply sublist_NoDup; [by apply Hnd|apply sublist_delete].
Qed.

End ScreenInvariant.

(** X21: on every screen of a run of [mainJSBox], whatever the options
    file held and whatever names are added and rows deleted, each option
    is one the filter of [loadWidgetOptions] keeps, so that loading the
    array of the options, or the array the file was last written from,
    gives back all of them in their order; the list shows the names of
    the options; and if the options loaded at the start stand for
    different forums, so do the options of the screen. *)
Theorem shown_options_stay_loadable (write_ok : list JValue → bool)
    (parsed : option JValue) (s : Screen) :
  Shown write_ok parsed s →
  loadWidgetOptions (Some (JArray (options s))) = Some (options s)
  ∧ (∀ o, savedOptions s = Some o →
       loadWidgetOptions (Some (JArray o)) = Some o)
  ∧ listData s = getField "name" <$> options s
  ∧ Forall (λ v, ∃ value, value ≠ EmptyString
                   ∧ getField "name" v = Some (JString (value +:+ BA))
                   ∧ getField "value" v = Some (JString value)) (options s)
  ∧ (NoDup (valueOf <$> options (mainJSBox parsed)) →
     NoDup (valueOf <$> options s)).
Proof.
  intros Hshown.
  destruct (shown_invariant write_ok parsed s Hshown)
    as (Hall & Hrows & Hsaved & Hnd).
  split; [simpl; by rewrite filter_all|].
  split; [intros o Ho; simpl; by rewrite (filter_all _ _ (Hsaved o Ho))|].
  split; [done|]. split; [|done].
  eapply Forall_impl; [exact Hall|]. intros v. by apply isWidgetOption_spec.
Qed.

(** The file with five entries is loaded, a forum is added, the first row
    is deleted, and a name already there is refused. *)
Lemma shown_options_stay_loadable_witness :
  let s := (onAdd (λ _, true) "go"
              (onRemove (λ _, true) 0
                 (onAdd (λ _, true) "dota"
                    (mainJSBox (Some optionsFile))).2)).2 in
  loadWidgetOptions (Some (JArray (options s))) = Some (options s)
  ∧ (∀ o, savedOptions s = Some o →
       loadWidgetOptions (Some (JArray o)) = Some o)
  ∧ listData s = getField "name" <$> options s
  ∧ Forall (λ v, ∃ value, value ≠ EmptyString
                   ∧ getField "name" v = Some (JString (value +:+ BA))
                   ∧ getField "value" v = Some (JString value)) (options s)
  ∧ (NoDup (valueOf <$> options (mainJSBox (Some optionsFile))) →
     NoDup (valueOf <$> options s)).
Proof.
  apply (shown_options_stay_loadable (λ _, true) (Some optionsFile)).
  apply shown_add. apply shown_remove; [|simpl; lia].
  apply shown_add. apply shown_start.
Defined.

(** The same run evaluated. *)
Example settings_scenario :
  let s := (onAdd (λ _, true) "go"
              (onRemove (λ _, true) 0
                 (onAdd (λ _, true) "dota"
                    (mainJSBox (Some optionsFile))).2)).2 in
  options s = [optionFor "go"; optionFor "dota"]
  ∧ savedOptions s = Some [optionFor "go"; optionFor "dota"]
  ∧ (onAdd (λ _, true) "go" s).1 = false.
Proof. repeat split. Qed.


(** ** Further properties of the pass and of the invocation *)

Section ResolvedPass.

Context (C : Constants) (E : Env) (dst : string).

Lemma startAll_resolved its fs lg :
  Forall (λ it, shortCircuits it = true) its →
  startAll C E dst its fs lg = (Returned true <$> its, (fs, lg)).
Proof.
  induction 1 as [|it rest Hit _ IH]; simpl; [done|].
  rewrite downloadImage_skip by done. simpl. by rewrite IH.
Qed.

Lemma wakeEach_returned arrivals (its : list Item) fs lg :
  wakeEach arrivals (Returned true <$> its) fs lg
  = (Returned true <$> its, (fs, lg)).
Proof.
  induction arrivals as [|i rest IH]; simpl; [done|].
  unfold wake. rewrite list_lookup_fmap.
  by destruct (its !! i); simpl; rewrite IH.
Qed.

Lemma settledResults_returned (its : list Item) :
  settledResults (Returned true <$> its)
  = Some ((λ _, fulfilled true) <$> its).
Proof.
  induction its as [|it rest IH]; [done|].
  rewrite !fmap_cons. simpl. by rewrite IH.
Qed.

End ResolvedPass.

(** X22: a pass over posts that are all resolved (flag set, or no
    locators) makes no request, hands the posts back as they are and leaves
    the files as the housekeeping left them, whatever the arrivals and the
    timer; its answer is that of the housekeeping, [true] when the
    housekeeping is skipped. *)
Theorem pass_over_resolved_posts (C : Constants) (E : Env) (dst : string)
    (its : list Item) (maxTime : Z) (partialDownloaded : bool)
    (fs : gset string) (lg : list Event) :
  Forall (λ it, shortCircuits it = true) its →
  tryDownloadAllImageWithTimeout C E dst its maxTime partialDownloaded fs lg
  = let prepared :=
      if partialDownloaded then (true, fs)
      else prepareForImageDownload C E dst fs in
    (prepared.1, (its, prepared.2, lg)).
Proof.
  intros Hres.
  assert (∀ fs1 arrivals timerFires,
            downloadItems C E dst its fs1 lg arrivals timerFires
            = (Some ((λ _, fulfilled true) <$> its), (its, fs1, lg)))
    as Hpass.
  { intros fs1 arrivals timerFires. unfold downloadItems.
    rewrite startAll_resolved by done. rewrite wakeEach_returned.
    rewrite settledResults_returned. do 3 f_equal.
    rewrite <- list_fmap_compose. apply list_fmap_id. }
  assert (forallb fulfilledTrue ((λ _, fulfilled true) <$> its) = true)
    as Hall.
  { clear. induction its as [|it rest IH]; [done|].
    rewrite fmap_cons. simpl. exact IH. }
  unfold tryDownloadAllImageWithTimeout, doWithTimeout.
  destruct partialDownloaded; simpl.
  - by rewrite Hpass, Hall.
  - destruct (prepareForImageDownload C E dst fs) as [[] fs1]; simpl;
      [|done].
    by rewrite Hpass, Hall.
Qed.

(** A text post and a finished post, with a timer that fires. *)
Lemma pass_over_resolved_posts_witness :
  let E := hurried [1; 0]%nat recoveredEnv in
  tryDownloadAllImageWithTimeout demoConstants E "img/lol"
    [textPost; donePost] 10000 true ∅ []
  = let prepared := if true then (true, ∅)
                    else prepareForImageDownload demoConstants E "img/lol" ∅ in
    (prepared.1, ([textPost; donePost], prepared.2, [])).
Proof.
  apply (pass_over_resolved_posts demoConstants
           (hurried [1; 0]%nat recoveredEnv) "img/lol" [textPost; donePost]
           10000 true ∅ []).
  by repeat constructor.
Defined.

(** X23: what an invocation of [getEntry] issues is, in this order, at
    most one call of the remote client, then image requests, then at most
    one write to the store, under its name and of the record the store
    holds afterwards; image requests are always followed by the write, and
    an invocation that writes nothing leaves files and store as they
    were. *)
Theorem invocation_events_in_order (C : Constants) (E : Env)
    (tiebaName : string) (forceLoad : bool) (w : World) :
  let r := getEntry C E tiebaName forceLoad w in
  ∃ fetch http write,
    history r.2 = history w ++ fetch ++ http ++ write
    ∧ (fetch = [] ∨ fetch = [EvFetch tiebaName])
    ∧ Forall isHttp http
    ∧ (write = []
       ∨ ∃ record, write = [EvCacheSet tiebaName record]
           ∧ store r.2 !! tiebaName = Some record)
    ∧ (write = [] →
       http = [] ∧ files r.2 = files w ∧ store r.2 = store w).
Proof.
  simpl.
  destruct (decide (tiebaName = EmptyString)) as [->|Hname].
  { exists [], [], []. unfold getEntry. simpl. rewrite app_nil_r.
    repeat split; auto. }
  destruct (getEntry_course C E tiebaName forceLoad w Hname)
    as [its d flag Hforce Hvalid Hc|its Hwhy Hget|e Hwhy Hget _ _].
  - destruct flag.
    { exists [], [], []. simpl. rewrite app_nil_r. repeat split; auto. }
    destruct (passAndStore_run C E tiebaName its d true w)
      as (its' & fs' & evs & Hrun & Hhttp).
    simpl in Hrun. rewrite Hrun. simpl.
    eexists [], evs, [_]. simpl. split; [done|]. split; [auto|].
    split; [done|]. split; [|done].
    right. eexists. split; [done|]. by rewrite lookup_insert_eq.
  - destruct (passAndStore_run C E tiebaName its (clock_fetched E) false
                (mkWorld (files w) (store w)
                         (history w ++ [EvFetch tiebaName])))
      as (its' & fs' & evs & Hrun & Hhttp).
    simpl in Hrun. rewrite Hrun. simpl.
    eexists [EvFetch tiebaName], evs, [_]. rewrite <- !app_assoc. simpl.
    split; [done|]. split; [auto|]. split; [done|]. split; [|done].
    right. eexists. split; [done|]. by rewrite lookup_insert_eq.
  - exists [EvFetch tiebaName], [], []. simpl.
    repeat split; auto.
Qed.
